(** * Field populator: insert-only locale adoption

    A shallow embedding of the merge engines, the call gateway and the
    adoption traversal of the field-populator app
    ([src/lib/mergeText.js], [src/lib/mergeRichText.js],
    [src/lib/rateLimiter.js], [src/lib/adoptTree.js]), with the properties
    stated about them.

    JavaScript strings are modelled as [string]; numbers that the code
    uses as integers (timestamps, lengths, diff operations) as [Z]. *)

From Stdlib Require Import ZArith String Ascii List Bool Lia Sorted.
From stdpp Require Import base list strings gmap sets.

Import ListNotations.
Set Warnings "-register-all,-clear-no-such-hyp".
Local Open Scope string_scope.
Local Open Scope Z_scope.

(** ** Characters of a string *)

Definition chars (s : string) : list ascii := list_ascii_of_string s.

(** ** JSON values

    Field values, node payloads and link objects are JSON values as the
    content API returns them.  An object is the list of its properties in
    their order, which is the order [JSON.stringify] prints them in; a
    property that is absent reads as [undefined], here [None]. *)

Inductive json : Type :=
  | JNull
  | JBool (b : bool)
  | JNum (n : Z)
  | JStr (s : string)
  | JArr (items : list json)
  | JObj (props : list (string * json)).

(** Equality of the [JSON.stringify] images: the same constructors over
    the same scalars, items and properties, in the same order. *)
Fixpoint json_eqb (a b : json) : bool :=
  match a, b with
  | JNull, JNull => true
  | JBool x, JBool y => Bool.eqb x y
  | JNum x, JNum y => Z.eqb x y
  | JStr x, JStr y => String.eqb x y
  | JArr xs, JArr ys =>
      (fix items (xs ys : list json) : bool :=
         match xs, ys with
         | [], [] => true
         | x :: xs', y :: ys' => json_eqb x y && items xs' ys'
         | _, _ => false
         end) xs ys
  | JObj ps, JObj qs =>
      (fix props (ps qs : list (string * json)) : bool :=
         match ps, qs with
         | [], [] => true
         | (k, x) :: ps', (l, y) :: qs' =>
             String.eqb k l && json_eqb x y && props ps' qs'
         | _, _ => false
         end) ps qs
  | _, _ => false
  end.

(** JavaScript truthiness of a JSON value. *)
Definition truthy (v : json) : bool :=
  match v with
  | JNull => false
  | JBool b => b
  | JNum n => negb (n =? 0)
  | JStr s => negb (String.eqb s "")
  | JArr _ | JObj _ => true
  end.

(** [o[key]] on an object given by its properties; [undefined] when the
    property is absent. *)
Fixpoint lookup_prop {V : Type} (key : string) (props : list (string * V))
  : option V :=
  match props with
  | [] => None
  | (k, v) :: rest => if String.eqb k key then Some v else lookup_prop key rest
  end.

Definition get (v : option json) (key : string) : option json :=
  match v with
  | Some (JObj props) => lookup_prop key props
  | _ => None
  end.

(** [{ ...o, [key]: v }], and [o[key] = v] on a copy: the property keeps
    its place when [o] has it and is added last otherwise. *)
Fixpoint set_prop {V : Type} (key : string) (v : V)
    (props : list (string * V)) : list (string * V) :=
  match props with
  | [] => [(key, v)]
  | (k, x) :: rest =>
      if String.eqb k key then (k, v) :: rest
      else (k, x) :: set_prop key v rest
  end.

(** [JSON.parse(JSON.stringify(v))] gives back a JSON value as it is. *)
Definition clone {A : Type} (v : A) : A := v.

(** ** The diff library

    [diff-match-patch] is a third-party package.  A diff is an array of
    [[op, text]] pairs with [op] one of [-1] (delete), [0] (equal) and
    [1] (insert).  The engine is a parameter of the development: the code
    calls [dmp.diff_main(a, b)] and then [dmp.diff_cleanupSemantic(diffs)],
    which rewrites the array in place (here: returns the rewritten array). *)

Module Dmp.

Definition diff : Type := Z * string.

Definition DIFF_DELETE : Z := -1.
Definition DIFF_INSERT : Z := 1.
Definition DIFF_EQUAL : Z := 0.

Record engine : Type := {
  diff_main : string -> string -> list diff;
  diff_cleanupSemantic : list diff -> list diff
}.

(** The library's own [diff_text1] and [diff_text2]: the texts a diff was
    computed from and to. *)
Fixpoint diff_text1 (diffs : list diff) : string :=
  match diffs with
  | [] => ""
  | (op, text) :: rest =>
      if op =? DIFF_INSERT then diff_text1 rest
      else (text ++ diff_text1 rest)%string
  end.

Fixpoint diff_text2 (diffs : list diff) : string :=
  match diffs with
  | [] => ""
  | (op, text) :: rest =>
      if op =? DIFF_DELETE then diff_text2 rest
      else (text ++ diff_text2 rest)%string
  end.

Definition op_ok (d : diff) : bool :=
  (fst d =? DIFF_DELETE) || (fst d =? DIFF_EQUAL) || (fst d =? DIFF_INSERT).

(** What the library documents of a diff from [text1] to [text2]: only the
    three operations occur, and the diff spells both texts. *)
Definition edit_script (diffs : list diff) (text1 text2 : string) : Prop :=
  forallb op_ok diffs = true /\
  diff_text1 diffs = text1 /\
  diff_text2 diffs = text2.

(** The diff the code works on: [diff_main] followed by the in-place
    [diff_cleanupSemantic]. *)
Definition diff_of (dmp : engine) (text1 text2 : string) : list diff :=
  diff_cleanupSemantic dmp (diff_main dmp text1 text2).

(** A small executable engine, used to run the merges on concrete inputs:
    the common prefix and the common suffix are kept as equalities (as
    [diff_main] does first), what is left in between is one deletion
    followed by one insertion. *)
Fixpoint commonPrefix (a b : string) : string * (string * string) :=
  match a, b with
  | String x a', String y b' =>
      if Ascii.eqb x y
      then let '(p, r) := commonPrefix a' b' in (String x p, r)
      else ("", (a, b))
  | _, _ => ("", (a, b))
  end.

Definition rev_string (s : string) : string :=
  string_of_list_ascii (rev (list_ascii_of_string s)).

Definition span (op : Z) (text : string) : list diff :=
  match text with "" => [] | _ => [(op, text)] end.

Definition simple_diff_main (text1 text2 : string) : list diff :=
  let '(p, (r1, r2)) := commonPrefix text1 text2 in
  let '(s, (m1, m2)) := commonPrefix (rev_string r1) (rev_string r2) in
  (span DIFF_EQUAL p ++ span DIFF_DELETE (rev_string m1)
     ++ span DIFF_INSERT (rev_string m2) ++ span DIFF_EQUAL (rev_string s))%list.

Definition simple : engine :=
  {| diff_main := simple_diff_main; diff_cleanupSemantic := fun d => d |}.

(** The crudest diff: delete all of [text1], insert all of [text2]. *)
Definition replace_all : engine :=
  {| diff_main := fun text1 text2 =>
       (span DIFF_DELETE text1 ++ span DIFF_INSERT text2)%list;
     diff_cleanupSemantic := fun d => d |}.

End Dmp.

(** ** Plain-text merge ([src/lib/mergeText.js]) *)

Module MergeText.
Import Dmp.

(** The loop of [mergeSourceAdditionsIntoTarget]: [out] grows by the text
    of every equal, insert and delete span; a span with any other
    operation adds nothing. *)
Fixpoint merge_loop (diffs : list diff) (out : string) : string :=
  match diffs with
  | [] => out
  | (op, text) :: rest =>
      if op =? 0 then merge_loop rest (out ++ text)%string
      else if op =? 1 then merge_loop rest (out ++ text)%string
      else if op =? -1 then merge_loop rest (out ++ text)%string
      else merge_loop rest out
  end.

(** The text of every span of a diff, in order: the value of [out] after
    the loop when only the three operations occur. *)
Fixpoint all_text (diffs : list diff) : string :=
  match diffs with
  | [] => ""
  | (_, text) :: rest => (text ++ all_text rest)%string
  end.

(** [source || ""] and [target || ""] are the identity on strings. *)
Definition mergeSourceAdditionsIntoTarget (dmp : engine)
    (source target : string) : string :=
  let diffs := diff_of dmp target source in
  merge_loop diffs "".

End MergeText.

(** ** Call gateway ([src/lib/rateLimiter.js])

    Time is what [Date.now()] returns, in milliseconds; a random draw is
    given by the integer [Math.floor(Math.random() * n)] it yields. *)

Module RateLimiter.

(** [Math.ceil(a / b)] for integers with [b] positive. *)
Definition ceil_div (a b : Z) : Z := - ((- a) / b).

Record limiter_config : Type := {
  maxPerSecond : Z;
  jitterMs : Z
}.

Definition windowMs : Z := 1000.

Definition minInterval (cfg : limiter_config) : Z :=
  ceil_div windowMs (maxPerSecond cfg).

(** [while (calls.length && now - calls[0] > windowMs) calls.shift()] *)
Fixpoint drop_old (now : Z) (calls : list Z) : list Z :=
  match calls with
  | [] => []
  | oldest :: rest =>
      if now - oldest >? windowMs then drop_old now rest else calls
  end.

Inductive throttle_outcome : Type :=
  | Sleep (wait : Z)     (* [await sleep(wait); return throttle()] *)
  | Proceed.             (* the call may be issued *)

(** One pass through the body of [throttle]: [now] is the first clock
    reading, [jitter] the value of [Math.floor(Math.random() * jitterMs)],
    [now'] the clock reading pushed on the log. *)
Definition throttle_pass (cfg : limiter_config) (now jitter now' : Z)
    (calls : list Z) : list Z * throttle_outcome :=
  let calls := drop_old now calls in
  if Z.of_nat (length calls) >=? maxPerSecond cfg then
    match calls with
    | oldest :: _ =>
        (calls, Sleep (Z.max (minInterval cfg - (now - oldest)) 0 + jitter))
    | [] =>
        (* [calls[0]] is [undefined]: the wait is [NaN], [setTimeout]
           fires at once *)
        (calls, Sleep 0)
    end
  else ((calls ++ [now'])%list, Proceed).

(** [throttle] as a loop: the readings of one pass are
    [(now, jitter, now')]; after a sleep the next readings are used. *)
Fixpoint throttle_run (cfg : limiter_config) (readings : list (Z * Z * Z))
    (calls : list Z) (waits : list Z) : option (list Z * list Z) :=
  match readings with
  | [] => None
  | (now, jitter, now') :: later =>
      match throttle_pass cfg now jitter now' calls with
      | (calls', Proceed) => Some (calls', waits)
      | (calls', Sleep w) => throttle_run cfg later calls' (waits ++ [w])%list
      end
  end.

(** The singleton limiter. *)
Definition throttle_config : limiter_config :=
  {| maxPerSecond := 8; jitterMs := 25 |}.

(** The time until the oldest retained timestamp is [windowMs] old. *)
Definition window_remaining (now : Z) (calls : list Z) : Z :=
  match calls with
  | oldest :: _ => windowMs - (now - oldest)
  | [] => 0
  end.

(** *** [callCMA] *)

(** What a failed call throws: the fields the gateway looks at, and the
    rest of the error. *)
Record failure : Type := {
  status : option Z;
  sys_id : option string;
  detail : string
}.

Inductive outcome (A : Type) : Type :=
  | Returned (v : A)
  | Thrown (e : failure).
Arguments Returned {A} v.
Arguments Thrown {A} e.

(** [e?.status === 429 || e?.sys?.id === "RateLimitExceeded"] *)
Definition isRate (e : failure) : bool :=
  match status e with Some s => s =? 429 | None => false end
  || match sys_id e with
     | Some i => String.eqb i "RateLimitExceeded"
     | None => false
     end.

Inductive event : Type :=
  | EvThrottle                 (* [await throttle()] *)
  | EvCall (n : nat)           (* the [n]-th invocation of [fn] *)
  | EvSleep (ms : Z).          (* [await sleep(ms)] *)

Record options : Type := {
  retries : Z;
  baseDelay : Z
}.

Definition default_options : options := {| retries := 4; baseDelay := 300 |}.

(** The [for (;;)] loop of [callCMA].  [fn n] is what the [n]-th invocation
    of the wrapped operation does, [rnd n] the value of
    [Math.floor(Math.random() * 100)] drawn after it failed.  The loop
    invokes [fn] once per round, so the invocation number is [attempt].
    [None]: the fuel ran out. *)
Fixpoint callCMA_loop {A : Type} (fuel : nat) (opts : options)
    (fn : nat -> outcome A) (rnd : nat -> Z) (attempt : nat)
    (trace : list event) : option (outcome A * list event) :=
  match fuel with
  | O => None
  | S fuel' =>
      let trace := (trace ++ [EvThrottle; EvCall attempt])%list in
      match fn attempt with
      | Returned v => Some (Returned v, trace)
      | Thrown e =>
          if negb (isRate e) || (Z.of_nat attempt >=? retries opts)
          then Some (Thrown e, trace)
          else
            let wait := baseDelay opts * 2 ^ Z.of_nat attempt + rnd attempt in
            callCMA_loop fuel' opts fn rnd (S attempt)
              (trace ++ [EvSleep wait])%list
      end
  end.

Definition callCMA {A : Type} (fuel : nat) (opts : options)
    (fn : nat -> outcome A) (rnd : nat -> Z)
  : option (outcome A * list event) :=
  callCMA_loop fuel opts fn rnd 0%nat [].

(** The trace of a run that stops at invocation [k]. *)
Definition rounds (opts : options) (rnd : nat -> Z) (from k : nat)
  : list event :=
  (flat_map (fun i => [EvThrottle; EvCall i;
                       EvSleep (baseDelay opts * 2 ^ Z.of_nat i + rnd i)])
     (seq from k) ++ [EvThrottle; EvCall (from + k)])%list.

End RateLimiter.

(** ** Structured-document merge ([src/lib/mergeRichText.js]) *)

Module RichText.
Import Dmp.

Record mark : Type := { mark_type : string }.

(** A rich-text node: [nodeType], [data], and, where the node has them,
    [content] (blocks, inlines), [value] and [marks] (text nodes). *)
Inductive node : Type :=
  | Node (nodeType : string) (data : option json)
         (content : option (list node)) (value : option string)
         (marks : option (list mark)).

Definition nodeType (n : node) : string :=
  let 'Node t _ _ _ _ := n in t.
Definition data (n : node) : option json :=
  let 'Node _ d _ _ _ := n in d.
Definition content (n : node) : option (list node) :=
  let 'Node _ _ c _ _ := n in c.
Definition value (n : node) : option string :=
  let 'Node _ _ _ v _ := n in v.
Definition marks (n : node) : option (list mark) :=
  let 'Node _ _ _ _ m := n in m.

Definition set_content (n : node) (c : list node) : node :=
  let 'Node t d _ v m := n in Node t d (Some c) v m.

Definition mark_eqb (a b : mark) : bool :=
  String.eqb (mark_type a) (mark_type b).

Definition option_eqb {A : Type} (eqb : A -> A -> bool) (a b : option A)
  : bool :=
  match a, b with
  | None, None => true
  | Some x, Some y => eqb x y
  | _, _ => false
  end.

Fixpoint list_eqb {A : Type} (eqb : A -> A -> bool) (xs ys : list A) : bool :=
  match xs, ys with
  | [], [] => true
  | x :: xs', y :: ys' => eqb x y && list_eqb eqb xs' ys'
  | _, _ => false
  end.

(** [jsonEq(a, b)]: [JSON.stringify(a) === JSON.stringify(b)] on nodes
    whose properties are printed in the order above. *)
Fixpoint jsonEq (a b : node) : bool :=
  let 'Node ta da ca va ma := a in
  let 'Node tb db cb vb mb := b in
  String.eqb ta tb
  && option_eqb json_eqb da db
  && match ca, cb with
     | None, None => true
     | Some xs, Some ys =>
         (fix items (xs ys : list node) : bool :=
            match xs, ys with
            | [], [] => true
            | x :: xs', y :: ys' => jsonEq x y && items xs' ys'
            | _, _ => false
            end) xs ys
     | _, _ => false
     end
  && option_eqb String.eqb va vb
  && option_eqb (list_eqb mark_eqb) ma mb.

(** [d || {}] *)
Definition or_empty (d : option json) : json :=
  match d with
  | Some v => if truthy v then v else JObj []
  | None => JObj []
  end.

(** A span of flattened inline text.  [hyperlink] is [null] or the
    [{ data }] object [cloneHyperlink] makes, given by its [data]. *)
Record span : Type := {
  start : Z;
  end_ : Z;
  span_marks : list mark;
  hyperlink : option json;
  text : string
}.

Definition cloneMarks (ms : list mark) : list mark :=
  map (fun m => {| mark_type := mark_type m |}) ms.

(** [cloneHyperlink(h)] for a hyperlink whose [data] property is [d]. *)
Definition cloneHyperlink (d : option json) : json := clone (or_empty d).

Definition len (s : string) : Z := Z.of_nat (String.length s).

(** [pushSpan(t, marks, hyperlink)] on the state [(text, spans)];
    [hyperlink] is [None] for [null] and else the [data] property of the
    hyperlink node. *)
Definition pushSpan (t : string) (ms : list mark)
    (hl : option (option json)) (st : string * list span)
  : string * list span :=
  let '(txt, spans) := st in
  if String.eqb t "" then st
  else
    ((txt ++ t)%string,
     (spans ++ [{| start := len txt;
                   end_ := len txt + len t;
                   span_marks := cloneMarks ms;
                   hyperlink := match hl with
                                | Some d => Some (cloneHyperlink d)
                                | None => None
                                end;
                   text := t |}])%list).

Definition marks_or (n : node) (activeMarks : list mark) : list mark :=
  match marks n with Some ms => ms | None => activeMarks end.

(** [walk(nodes, activeMarks, activeHyperlink)] of [flattenInlineBlock],
    one node at a time, and over an array of nodes. *)
Fixpoint walk_node (n : node) (activeMarks : list mark)
    (activeHyperlink : option (option json)) (st : string * list span)
  : string * list span :=
  let walk :=
    fix walk (nodes : list node) (am : list mark)
        (ah : option (option json)) (st : string * list span)
      : string * list span :=
      match nodes with
      | [] => st
      | m :: rest => walk rest am ah (walk_node m am ah st)
      end in
  let 'Node t d c v ms := n in
  if String.eqb t "text" then
    pushSpan (match v with Some s => s | None => "" end)
      (marks_or n activeMarks) activeHyperlink st
  else if String.eqb t "hyperlink" then
    match c with
    | Some l => walk l (marks_or n activeMarks) (Some d) st
    | None => st    (* [walk([], ...)] *)
    end
  else
    match c with
    | Some l => walk l (marks_or n activeMarks) activeHyperlink st
    | None => st
    end.

Fixpoint walk (nodes : list node) (activeMarks : list mark)
    (activeHyperlink : option (option json)) (st : string * list span)
  : string * list span :=
  match nodes with
  | [] => st
  | n :: rest =>
      walk rest activeMarks activeHyperlink
        (walk_node n activeMarks activeHyperlink st)
  end.

Definition flattenInlineBlock (block : node) : string * list span :=
  walk (match content block with Some l => l | None => [] end) [] None
    ("", []).

(** [s.slice(a, b)]: a negative index counts from the end, indices are
    clamped to the string. *)
Definition js_index (n i : Z) : Z :=
  if i <? 0 then Z.max (n + i) 0 else Z.min i n.

Definition slice (s : string) (a b : Z) : string :=
  let a' := js_index (len s) a in
  let b' := js_index (len s) b in
  if a' <? b' then String.substring (Z.to_nat a') (Z.to_nat (b' - a')) s
  else "".

Fixpoint sliceSpans (spans : list span) (start_ end' : Z) : list span :=
  if start_ >=? end' then []
  else
    match spans with
    | [] => []
    | s :: rest =>
        if (end_ s <=? start_) || (start s >=? end') then
          sliceSpans rest start_ end'
        else
          let from := Z.max start_ (start s) in
          let to := Z.min end' (end_ s) in
          {| start := from;
             end_ := to;
             span_marks := cloneMarks (span_marks s);
             hyperlink := match hyperlink s with
                          | Some d => Some (cloneHyperlink (Some d))
                          | None => None
                          end;
             text := slice (text s) (from - start s) (to - start s) |}
          :: sliceSpans rest start_ end'
    end.

Definition covers (pos : Z) (s : span) : bool :=
  (pos >=? start s) && (pos <? end_ s).

Definition spanAtPosition (spans : list span) (pos : Z) : option span :=
  if pos <? 0 then None
  else
    match List.find (covers pos) spans with
    | Some s => Some s
    | None =>
        (* exactly at the end of the last span: that span *)
        match last spans with
        | Some l => if pos =? end_ l then Some l else None
        | None => None
        end
    end.

(** The span an insertion at [cursor] takes its formatting from:
    [spanAtPosition(targetSpans, cursor) ||
     spanAtPosition(targetSpans, cursor - 1)]. *)
Definition inherit_at (targetSpans : list span) (cursor : Z) : option span :=
  match spanAtPosition targetSpans cursor with
  | Some s => Some s
  | None => spanAtPosition targetSpans (cursor - 1)
  end.

Definition inserted_span (inherit : option span) (txt : string) : span :=
  {| start := -1;
     end_ := -1;
     span_marks := match inherit with
                   | Some s => cloneMarks (span_marks s)
                   | None => []
                   end;
     hyperlink := match inherit with
                  | Some s =>
                      match hyperlink s with
                      | Some d => Some (cloneHyperlink (Some d))
                      | None => None
                      end
                  | None => None
                  end;
     text := txt |}.

(** The loop of [rebuildSpansFromDiffs]: [out] and [cursor] after the
    diffs. *)
Fixpoint rebuild_loop (diffs : list diff) (targetSpans : list span)
    (out : list span) (cursor : Z) : list span :=
  match diffs with
  | [] => out
  | (op, txt) :: rest =>
      let n := len txt in
      if (op =? 0) || (op =? -1) then
        rebuild_loop rest targetSpans
          (out ++ sliceSpans targetSpans cursor (cursor + n))%list
          (cursor + n)
      else if op =? 1 then
        rebuild_loop rest targetSpans
          (out ++ [inserted_span (inherit_at targetSpans cursor) txt])%list
          cursor
      else rebuild_loop rest targetSpans out cursor
  end.

(** [arr.sort()] on strings: ascending by code units. *)
Fixpoint sort_insert (x : string) (l : list string) : list string :=
  match l with
  | [] => [x]
  | y :: rest => if String.leb x y then x :: l else y :: sort_insert x rest
  end.

Definition sort (l : list string) : list string :=
  fold_right sort_insert [] l.

(** [marks.map((m) => m.type).sort().join("|")] *)
Definition marks_key (ms : list mark) : string :=
  String.concat "|" (sort (map mark_type ms)).

Definition sameMarks (a b : list mark) : bool :=
  if negb (Nat.eqb (length a) (length b)) then false
  else String.eqb (marks_key a) (marks_key b).

(** [sameHyperlink(a, b)] on the [hyperlink] property of two spans. *)
Definition sameHyperlink (a b : option json) : bool :=
  match a, b with
  | None, None => true
  | Some x, Some y => json_eqb (or_empty (Some x)) (or_empty (Some y))
  | _, _ => false
  end.

Definition append_text (p : span) (t : string) : span :=
  {| start := start p; end_ := end_ p; span_marks := span_marks p;
     hyperlink := hyperlink p; text := (text p ++ t)%string |}.

(** [coalesceSpans]: [prev] is the span pushed last, which the loop keeps
    a reference to and extends in place; [done] is what was pushed before
    it. *)
Fixpoint coalesce_loop (spans : list span) (done : list span)
    (prev : option span) : list span :=
  match spans with
  | [] => match prev with Some p => (done ++ [p])%list | None => done end
  | s :: rest =>
      match prev with
      | Some p =>
          if sameMarks (span_marks p) (span_marks s)
             && sameHyperlink (hyperlink p) (hyperlink s)
          then coalesce_loop rest done (Some (append_text p (text s)))
          else coalesce_loop rest (done ++ [p])%list (Some s)
      | None => coalesce_loop rest done (Some s)
      end
  end.

Definition coalesceSpans (spans : list span) : list span :=
  coalesce_loop spans [] None.

Definition rebuildSpansFromDiffs (diffs : list diff) (targetSpans : list span)
  : list span :=
  coalesceSpans (rebuild_loop diffs targetSpans [] 0).

(** [normalizeMarks]: one [{ type }] per mark type, in the order the types
    first occur; a mark with an empty type is dropped. *)
Fixpoint normalize_loop (ms : list mark) (seen : list string) : list mark :=
  match ms with
  | [] => []
  | m :: rest =>
      if String.eqb (mark_type m) "" then normalize_loop rest seen
      else if existsb (String.eqb (mark_type m)) seen
      then normalize_loop rest seen
      else {| mark_type := mark_type m |}
             :: normalize_loop rest (mark_type m :: seen)
  end.

Definition normalizeMarks (ms : list mark) : list mark := normalize_loop ms [].

(** [keyFor(marks, hyperlink)] is the string
    [`${m}::${h}`] with [m] the sorted mark types joined by ["|"] and [h]
    the stringified hyperlink data, or [""] without hyperlink.  It is kept
    as the pair of [m] and the data.  The initial [currentMarksKey], [""],
    is no such key: [None]. *)
Definition keyFor (ms : list mark) (hl : option json) : string * option json :=
  (marks_key ms,
   match hl with Some d => Some (or_empty (Some d)) | None => None end).

Definition key_eqb (a b : string * option json) : bool :=
  String.eqb (fst a) (fst b) && option_eqb json_eqb (snd a) (snd b).

Record builder : Type := {
  b_content : list node;
  currentHyperlink : option json;
  currentMarksKey : option (string * option json);
  currentMarks : list mark;
  currentText : string
}.

Definition flushText (b : builder) : builder :=
  if String.eqb (currentText b) "" then b
  else
    let textNode :=
      Node "text" (Some (JObj [])) None (Some (currentText b))
        (Some (currentMarks b)) in
    let pushed :=
      match currentHyperlink b with
      | Some d =>
          Node "hyperlink" (Some (clone (or_empty (Some d))))
            (Some [textNode]) None None
      | None => textNode
      end in
    {| b_content := (b_content b ++ [pushed])%list;
       currentHyperlink := currentHyperlink b;
       currentMarksKey := currentMarksKey b;
       currentMarks := currentMarks b;
       currentText := "" |}.

Definition build_step (b : builder) (s : span) : builder :=
  let k := keyFor (span_marks s) (hyperlink s) in
  let b :=
    if negb (option_eqb key_eqb (Some k) (currentMarksKey b)) then
      let b := flushText b in
      {| b_content := b_content b;
         currentHyperlink :=
           match hyperlink s with
           | Some d => Some (clone (or_empty (Some d)))
           | None => None
           end;
         currentMarksKey := Some k;
         currentMarks := normalizeMarks (span_marks s);
         currentText := currentText b |}
    else b in
  {| b_content := b_content b;
     currentHyperlink := currentHyperlink b;
     currentMarksKey := currentMarksKey b;
     currentMarks := currentMarks b;
     currentText := (currentText b ++ text s)%string |}.

Definition buildInlineBlockFromSpans (ty : string) (d : json)
    (spans : list span) : node :=
  let b0 := {| b_content := []; currentHyperlink := None;
               currentMarksKey := None; currentMarks := [];
               currentText := "" |} in
  let b := flushText (fold_left build_step spans b0) in
  Node ty (Some (or_empty (Some d))) (Some (b_content b)) None None.

Definition mergeInlineBlock (dmp : engine) (srcBlock tgtBlock : node) : node :=
  let srcPara := flattenInlineBlock srcBlock in
  let tgtPara := flattenInlineBlock tgtBlock in
  let diffs := diff_of dmp (fst tgtPara) (fst srcPara) in
  let mergedSpans := rebuildSpansFromDiffs diffs (snd tgtPara) in
  buildInlineBlockFromSpans (nodeType tgtBlock) (or_empty (data tgtBlock))
    mergedSpans.

Definition isRichTextDocument (val : node) : bool :=
  String.eqb (nodeType val) "document"
  && match content val with Some _ => true | None => false end.

Definition isInlineBlockType (ty : string) : bool :=
  String.eqb ty "paragraph" || String.eqb ty "heading-1"
  || String.eqb ty "heading-2" || String.eqb ty "heading-3"
  || String.eqb ty "heading-4" || String.eqb ty "heading-5"
  || String.eqb ty "heading-6" || String.eqb ty "blockquote".

Definition isListType (ty : string) : bool :=
  String.eqb ty "unordered-list" || String.eqb ty "ordered-list".

(** A no-op placeholder in the source. *)
Definition coalesceAdjacentTextNodesInBlocks (blocks : list node) : list node :=
  blocks.

Definition content_or_empty (n : node) : list node :=
  match content n with Some l => l | None => [] end.

(** The inner loop of [mergeListBlock], over the children of one item:
    [steps] rounds from index [j]. *)
Fixpoint child_loop (dmp : engine) (steps : nat) (j : nat)
    (childSrc childTgt childMerged : list node) : list node :=
  match steps with
  | O => childMerged
  | S steps' =>
      let next := child_loop dmp steps' (S j) childSrc childTgt in
      match childTgt !! j, childSrc !! j with
      | None, Some cs => next (childMerged ++ [clone cs])%list
      | Some ct, None => next (childMerged ++ [clone ct])%list
      | Some ct, Some cs =>
          if String.eqb (nodeType cs) (nodeType ct) then
            if isInlineBlockType (nodeType ct) then
              next (childMerged ++ [mergeInlineBlock dmp cs ct])%list
            else if jsonEq cs ct then next (childMerged ++ [clone ct])%list
            else next (childMerged ++ [clone ct; clone cs])%list
          else next (childMerged ++ [clone ct; clone cs])%list
      | None, None => next childMerged   (* not reached: [j < maxChild] *)
      end
  end.

(** The loop of [mergeListBlock] over the items. *)
Fixpoint item_loop (dmp : engine) (steps : nat) (i : nat)
    (srcItems tgtItems mergedItems : list node) : list node :=
  match steps with
  | O => mergedItems
  | S steps' =>
      let next := item_loop dmp steps' (S i) srcItems tgtItems in
      match tgtItems !! i, srcItems !! i with
      | None, Some srcItem => next (mergedItems ++ [clone srcItem])%list
      | Some tgtItem, None => next (mergedItems ++ [clone tgtItem])%list
      | Some tgtItem, Some srcItem =>
          if negb (String.eqb (nodeType srcItem) (nodeType tgtItem)) then
            next (mergedItems ++ [clone tgtItem; clone srcItem])%list
          else
            let childSrc := content_or_empty srcItem in
            let childTgt := content_or_empty tgtItem in
            let maxChild := Nat.max (length childSrc) (length childTgt) in
            let childMerged :=
              child_loop dmp maxChild 0 childSrc childTgt [] in
            let newItem :=
              set_content (clone tgtItem)
                (coalesceAdjacentTextNodesInBlocks childMerged) in
            next (mergedItems ++ [newItem])%list
      | None, None => next mergedItems   (* not reached: [i < maxLen] *)
      end
  end.

Definition mergeListBlock (dmp : engine) (srcList tgtList : node) : node :=
  let out := clone tgtList in
  let srcItems := content_or_empty srcList in
  let tgtItems := content_or_empty out in
  let maxLen := Nat.max (length srcItems) (length tgtItems) in
  set_content out (item_loop dmp maxLen 0 srcItems tgtItems []).

(** The loop of [mergeRichTextDocuments] over the blocks. *)
Fixpoint block_loop (dmp : engine) (steps : nat) (i : nat)
    (srcBlocks tgtBlocks mergedBlocks : list node) : list node :=
  match steps with
  | O => mergedBlocks
  | S steps' =>
      let next := block_loop dmp steps' (S i) srcBlocks tgtBlocks in
      match tgtBlocks !! i, srcBlocks !! i with
      | None, Some srcBlock => next (mergedBlocks ++ [clone srcBlock])%list
      | Some tgtBlock, None => next (mergedBlocks ++ [clone tgtBlock])%list
      | Some tgtBlock, Some srcBlock =>
          if negb (String.eqb (nodeType srcBlock) (nodeType tgtBlock)) then
            next (mergedBlocks ++ [clone tgtBlock; clone srcBlock])%list
          else if isInlineBlockType (nodeType tgtBlock) then
            next (mergedBlocks ++ [mergeInlineBlock dmp srcBlock tgtBlock])%list
          else if isListType (nodeType tgtBlock) then
            next (mergedBlocks ++ [mergeListBlock dmp srcBlock tgtBlock])%list
          else if jsonEq srcBlock tgtBlock then
            next (mergedBlocks ++ [clone tgtBlock])%list
          else next (mergedBlocks ++ [clone tgtBlock; clone srcBlock])%list
      | None, None => next mergedBlocks   (* not reached: [i < maxLen] *)
      end
  end.

Definition mergeRichTextDocuments (dmp : engine) (sourceDoc targetDoc : node)
  : node :=
  if negb (isRichTextDocument sourceDoc) || negb (isRichTextDocument targetDoc)
  then targetDoc
  else
    let out := clone targetDoc in
    let srcBlocks := content_or_empty sourceDoc in
    let tgtBlocks := content_or_empty out in
    let maxLen := Nat.max (length srcBlocks) (length tgtBlocks) in
    let mergedBlocks := block_loop dmp maxLen 0 srcBlocks tgtBlocks [] in
    set_content out (coalesceAdjacentTextNodesInBlocks mergedBlocks).

(** The number of blocks of a document. *)
Definition block_count (doc : node) : nat := length (content_or_empty doc).

(** What [block_loop] pushes twice for: a block on both sides at [i] with
    kinds that differ, or with the same kind, neither inline-bearing nor a
    list, and different content. *)
Definition pushes_two (srcBlocks tgtBlocks : list node) (i : nat) : bool :=
  match tgtBlocks !! i, srcBlocks !! i with
  | Some t, Some s =>
      if negb (String.eqb (nodeType s) (nodeType t)) then true
      else if isInlineBlockType (nodeType t) then false
      else if isListType (nodeType t) then false
      else negb (jsonEq s t)
  | _, _ => false
  end.

Definition kinds_align (srcBlocks tgtBlocks : list node) : Prop :=
  forall i s t, srcBlocks !! i = Some s -> tgtBlocks !! i = Some t ->
                nodeType s = nodeType t.

(** Spans that tile the text from [from] to [to]: each starts where the
    one before ends, is as long as its text, and is not empty. *)
Fixpoint tiled (from : Z) (spans : list span) (to : Z) : Prop :=
  match spans with
  | [] => from = to
  | s :: rest =>
      start s = from /\ end_ s = from + len (text s) /\ 0 < len (text s) /\
      tiled (end_ s) rest to
  end.

(** The state of [flattenInlineBlock]: the spans tile the text so far. *)
Definition tiled_state (st : string * list span) : Prop :=
  tiled 0 (snd st) (len (fst st)).

(** How far a run of diffs moves the cursor of [rebuild_loop]. *)
Fixpoint advance (diffs : list diff) : Z :=
  match diffs with
  | [] => 0
  | (op, txt) :: rest =>
      if (op =? 0) || (op =? -1) then len txt + advance rest else advance rest
  end.

(** The formatting of a span, and the characters of a span list with the
    formatting each one carries. *)
Definition format : Type := list mark * option json.

Definition format_of (s : span) : format := (span_marks s, hyperlink s).

Definition same_format (a b : format) : bool :=
  sameMarks (fst a) (fst b) && sameHyperlink (snd a) (snd b).

Definition char_formats (spans : list span) : list (ascii * format) :=
  flat_map (fun s => map (fun c => (c, format_of s)) (chars (text s))) spans.

Definition same_char_format (x y : ascii * format) : Prop :=
  fst x = fst y /\ same_format (snd x) (snd y) = true.

(** The number of indices below [n] the loop pushes twice for. *)
Definition extra_blocks (srcBlocks tgtBlocks : list node) (n : nat) : nat :=
  length (List.filter (pushes_two srcBlocks tgtBlocks) (seq 0 n)).

End RichText.

(** ** Sample documents *)

Module Samples.
Import RichText.

Definition bold : mark := {| mark_type := "bold" |}.
Definition italic : mark := {| mark_type := "italic" |}.

Definition text_node (s : string) (ms : list mark) : node :=
  Node "text" (Some (JObj [])) None (Some s) (Some ms).

Definition paragraph (inlines : list node) : node :=
  Node "paragraph" (Some (JObj [])) (Some inlines) None None.

Definition document (blocks : list node) : node :=
  Node "document" (Some (JObj [])) (Some blocks) None None.

Definition link (linkType id : string) : json :=
  JObj [("sys", JObj [("type", JStr "Link"); ("linkType", JStr linkType);
                      ("id", JStr id)])].

Definition embedded_asset (id : string) : node :=
  Node "embedded-asset-block" (Some (JObj [("target", link "Asset" id)]))
    (Some []) None None.

Definition bold_hello_world : node :=
  paragraph [text_node "Hello world" [bold]].

Definition italic_hello_brave_world : node :=
  paragraph [text_node "Hello brave world" [italic]].

Definition three_blocks : node :=
  document [paragraph [text_node "Hello there" []];
            embedded_asset "a1";
            paragraph [text_node "Bye" []]].

Definition two_blocks : node :=
  document [paragraph [text_node "Hello" []]; embedded_asset "a2"].

Definition german_body : node := document [paragraph [text_node "Hallo" []]].

Definition english_body : node :=
  document [paragraph [text_node "Hello" []]].

End Samples.

(** ** Adoption traversal ([src/lib/adoptTree.js]) *)

Module AdoptTree.
Import Dmp RichText.

(** A field value under one locale: a JSON value, with the objects that
    have a [nodeType] (rich-text nodes) given as [node]s. *)
Inductive fval : Type :=
  | FJ (j : json)
  | FDoc (d : node).

(** [fieldId -> { localeCode -> value }] *)
Definition locale_map : Type := list (string * fval).
Definition field_map : Type := list (string * locale_map).

(** [JSON.stringify(a) === JSON.stringify(b)] on two defined values. *)
Definition fval_eqb (a b : fval) : bool :=
  match a, b with
  | FJ x, FJ y => json_eqb x y
  | FDoc x, FDoc y => jsonEq x y
  | _, _ => false
  end.

Definition isRichText (val : option fval) : bool :=
  match val with
  | Some (FDoc d) => isRichTextDocument d
  | _ => false
  end.

Definition truthy_val (val : option fval) : bool :=
  match val with
  | Some (FJ j) => truthy j
  | Some (FDoc _) => true
  | None => false
  end.

(** [v === undefined || v === null] *)
Definition nullish (val : option fval) : bool :=
  match val with
  | None | Some (FJ JNull) => true
  | _ => false
  end.

Definition isString (val : option fval) : bool :=
  match val with Some (FJ (JStr _)) => true | _ => false end.

Definition isArray (val : option fval) : bool :=
  match val with Some (FJ (JArr _)) => true | _ => false end.

(** [l?.sys?.id] when it is truthy; record ids are strings. *)
Definition link_id_json (l : json) : option string :=
  match get (get (Some l) "sys") "id" with
  | Some (JStr s) => if String.eqb s "" then None else Some s
  | _ => None
  end.

Definition link_id (val : option fval) : option string :=
  match val with
  | Some (FJ j) => link_id_json j
  | _ => None
  end.

(** [arr.map((l) => l?.sys?.id).filter(Boolean)], [[]] when [arr] is not an
    array. *)
Definition link_ids (val : option fval) : list string :=
  match val with
  | Some (FJ (JArr items)) =>
      flat_map (fun l => match link_id_json l with
                         | Some i => [i]
                         | None => []
                         end) items
  | _ => []
  end.

Record item_def : Type := {
  item_type : option string;
  item_linkType : option string
}.

Record field_def : Type := {
  fd_id : string;
  fd_type : string;
  fd_linkType : option string;
  fd_items : option item_def;
  fd_localized : bool
}.

Record contentType : Type := { ct_fields : list field_def }.

Record entry : Type := {
  e_id : string;
  e_version : Z;
  e_contentType : string;
  e_fields : field_map
}.

Record config : Type := {
  sourceLocale : string;
  targetLocale : string;
  defaultLocale : string;
  selected : list (string * list string);
  adoptAll : bool
}.

(** What the loop over the fields keeps: [newFields], [changed] and the
    insertion-ordered set [refIds]. *)
Record field_acc : Type := {
  newFields : field_map;
  changed : nat;
  refIds : list string
}.

(** [set.add(id)] on an insertion-ordered set. *)
Definition set_add (id : string) (s : list string) : list string :=
  if existsb (String.eqb id) s then s else (s ++ [id])%list.

Definition add_ref (acc : field_acc) (refId : option string) : field_acc :=
  match refId with
  | Some id =>
      {| newFields := newFields acc; changed := changed acc;
         refIds := set_add id (refIds acc) |}
  | None => acc
  end.

(** [newFields[fieldId] = { ...localizedValues, [targetLocale]: v };
     changed++] *)
Definition write_target (cfg : config) (fieldId : string)
    (localizedValues : locale_map) (v : fval) (acc : field_acc) : field_acc :=
  {| newFields :=
       set_prop fieldId (set_prop (targetLocale cfg) v localizedValues)
         (newFields acc);
     changed := S (changed acc);
     refIds := refIds acc |}.

(** [clone(v)] of a value that is known to be defined. *)
Definition write_clone (cfg : config) (fieldId : string)
    (localizedValues : locale_map) (v : option fval) (acc : field_acc)
  : field_acc :=
  match v with
  | Some x => write_target cfg fieldId localizedValues (clone x) acc
  | None => acc
  end.

(** [localizedValues?.[defaultLocale] ?? Object.values(localizedValues)[0]] *)
Definition default_or_first (cfg : config) (localizedValues : locale_map)
  : option fval :=
  if nullish (lookup_prop (defaultLocale cfg) localizedValues) then
    match localizedValues with
    | (_, v) :: _ => Some v
    | [] => None
    end
  else lookup_prop (defaultLocale cfg) localizedValues.

Definition is_entry_link (def : field_def) : bool :=
  String.eqb (fd_type def) "Link"
  && match fd_linkType def with
     | Some t => String.eqb t "Entry"
     | None => false
     end.

Definition is_entry_link_array (def : field_def) : bool :=
  String.eqb (fd_type def) "Array"
  && match fd_items def with
     | Some it =>
         match item_type it, item_linkType it with
         | Some t, Some lt => String.eqb t "Link" && String.eqb lt "Entry"
         | _, _ => false
         end
     | None => false
     end.

(** The branch for localized scalars, strings and rich text. *)
Definition adopt_scalar (dmp : engine) (cfg : config) (fieldId : string)
    (localizedValues : locale_map) (acc : field_acc) : field_acc :=
  let srcVal := lookup_prop (sourceLocale cfg) localizedValues in
  let tgtVal := lookup_prop (targetLocale cfg) localizedValues in
  if nullish tgtVal then
    (* full adopt if target empty; [srcVal !== undefined] *)
    write_clone cfg fieldId localizedValues srcVal acc
  else
    match srcVal, tgtVal with
    | Some (FJ (JStr s)), Some (FJ (JStr t)) =>
        let merged := MergeText.mergeSourceAdditionsIntoTarget dmp s t in
        if negb (String.eqb merged t)
        then write_target cfg fieldId localizedValues (FJ (JStr merged)) acc
        else acc
    | _, _ =>
        if isRichText srcVal && isRichText tgtVal then
          match srcVal, tgtVal with
          | Some (FDoc s), Some (FDoc t) =>
              let mergedDoc := mergeRichTextDocuments dmp s t in
              if negb (jsonEq mergedDoc t)
              then write_target cfg fieldId localizedValues (FDoc mergedDoc) acc
              else acc
          | _, _ => acc
          end
        else if isRichText srcVal && negb (isRichText tgtVal) then acc
        else
          match srcVal, tgtVal with
          | Some s, Some t =>
              if negb (fval_eqb s t)
              then write_target cfg fieldId localizedValues (clone s) acc
              else acc
          | _, _ => acc     (* [srcVal === undefined] *)
          end
    end.

(** One round of the loop over [contentType.fields]. *)
Definition process_field (dmp : engine) (cfg : config) (entryId : string)
    (fields : field_map) (acc : field_acc) (def : field_def) : field_acc :=
  let fieldId := fd_id def in
  let allowedForThisEntry :=
    match lookup_prop entryId (selected cfg) with
    | Some s => s
    | None => []
    end in
  let allowed :=
    adoptAll cfg || existsb (String.eqb fieldId) allowedForThisEntry in
  match lookup_prop fieldId fields with
  | None => acc
  | Some localizedValues =>
      if is_entry_link def then
        if fd_localized def then
          let srcLink := lookup_prop (sourceLocale cfg) localizedValues in
          let tgtLink := lookup_prop (targetLocale cfg) localizedValues in
          let acc :=
            if nullish tgtLink && truthy_val srcLink && allowed
            then write_clone cfg fieldId localizedValues srcLink acc
            else acc in
          let acc :=
            match srcLink, tgtLink with
            | Some s, Some t =>
                if allowed && truthy_val srcLink && truthy_val tgtLink
                   && negb (fval_eqb s t)
                then write_target cfg fieldId localizedValues (clone s) acc
                else acc
            | _, _ => acc
            end in
          add_ref acc
            (match link_id srcLink with
             | Some i => Some i
             | None => link_id tgtLink
             end)
        else
          add_ref acc (link_id (default_or_first cfg localizedValues))
      else if is_entry_link_array def then
        if fd_localized def then
          let srcArr := lookup_prop (sourceLocale cfg) localizedValues in
          let tgtArr := lookup_prop (targetLocale cfg) localizedValues in
          let acc :=
            if nullish tgtArr && truthy_val srcArr && allowed
            then write_clone cfg fieldId localizedValues srcArr acc
            else acc in
          let acc :=
            match srcArr, tgtArr with
            | Some s, Some t =>
                if allowed && isArray srcArr && isArray tgtArr
                   && negb (fval_eqb s t)
                then write_target cfg fieldId localizedValues (clone s) acc
                else acc
            | _, _ => acc
            end in
          fold_left (fun a id => add_ref a (Some id))
            (link_ids srcArr ++ link_ids tgtArr)%list acc
        else
          fold_left (fun a id => add_ref a (Some id))
            (link_ids (default_or_first cfg localizedValues)) acc
      else if fd_localized def then
        if negb (adoptAll cfg)
           && negb (existsb (String.eqb fieldId) allowedForThisEntry)
        then acc
        else adopt_scalar dmp cfg fieldId localizedValues acc
      else acc
  end.

(** The loop over the fields of one entry, from [newFields = { ...fields }],
    [changed = 0] and an empty [refIds]. *)
Definition process_fields (dmp : engine) (cfg : config) (e : entry)
    (ct : contentType) : field_acc :=
  fold_left (process_field dmp cfg (e_id e) (e_fields e)) (ct_fields ct)
    {| newFields := e_fields e; changed := 0; refIds := [] |}.

(** [{ ...entry, fields: newFields }], the entry handed to
    [cma.entry.update]. *)
Definition with_fields (e : entry) (fs : field_map) : entry :=
  {| e_id := e_id e; e_version := e_version e;
     e_contentType := e_contentType e; e_fields := fs |}.

(** What the loop over the fields may have done to one field: nothing, or
    set the target-locale key of the fetched value map. *)
Definition only_target_set (cfg : config) (fields newer : field_map)
    (fieldId : string) : Prop :=
  lookup_prop fieldId newer = lookup_prop fieldId fields \/
  exists (localizedValues : locale_map) (v : fval),
    lookup_prop fieldId fields = Some localizedValues /\
    lookup_prop fieldId newer
    = Some (set_prop (targetLocale cfg) v localizedValues).

(** A localized field that is neither an entry link nor an array of entry
    links, and a configuration that adopts every field from ["en-US"] into
    ["de-DE"]. *)
Definition body_field : field_def :=
  {| fd_id := "body"; fd_type := "RichText"; fd_linkType := None;
     fd_items := None; fd_localized := true |}.

Definition adopt_all_config : config :=
  {| sourceLocale := "en-US"; targetLocale := "de-DE";
     defaultLocale := "en-US"; selected := []; adoptAll := true |}.

(** *** The traversal

    The remote store holds the entries and the content types of one space
    and environment.  [cma.entry.get] and [cma.contentType.get] fail for
    an id the store does not have; [cma.entry.update] fails when the
    version it is given is not the stored one, and else stores the entry
    under the next version.  The gateway retries rate-limit failures only,
    which this store does not raise, so [callCMA(() => f())] is [f()]. *)

Inductive error : Type :=
  | EntryNotFound (id : string)
  | ContentTypeNotFound (id : string)
  | VersionMismatch (id : string).

Inductive result (A : Type) : Type :=
  | Done (a : A)
  | Failed (e : error).
Arguments Done {A} a.
Arguments Failed {A} e.

Record summary : Type := {
  updatedEntries : nat;
  changedFields : nat;
  traversedEntries : nat
}.

Definition zero_summary : summary :=
  {| updatedEntries := 0; changedFields := 0; traversedEntries := 0 |}.

(** The objects shared by all calls of one traversal ([visited],
    [ctCache]), the remote store, and a log of the remote calls. *)
Record state : Type := {
  visited : gset string;
  ctCache : gmap string contentType;
  entries : gmap string entry;
  fetched : list string;              (* [cma.entry.get], oldest first *)
  written : list (string * entry * entry)
    (* [cma.entry.update]: the id, the fetched entry, the entry sent *)
}.

Record world : Type := {
  dmp : engine;
  cfg : config;
  contentTypes : gmap string contentType
}.

Definition entry_update (st : state) (entryId : string) (e sent : entry)
  : result unit * state :=
  match entries st !! entryId with
  | None => (Failed (EntryNotFound entryId), st)
  | Some stored =>
      if e_version stored =? e_version sent then
        (Done tt,
         {| visited := visited st; ctCache := ctCache st;
            entries :=
              <[entryId :=
                  {| e_id := e_id sent; e_version := e_version sent + 1;
                     e_contentType := e_contentType sent;
                     e_fields := e_fields sent |}]> (entries st);
            fetched := fetched st;
            written := (written st ++ [(entryId, e, sent)])%list |})
      else (Failed (VersionMismatch entryId), st)
  end.

Definition add_summary (a b : summary) : summary :=
  {| updatedEntries := updatedEntries a + updatedEntries b;
     changedFields := changedFields a + changedFields b;
     traversedEntries := traversedEntries a + traversedEntries b |}.

(** [visited.add(entryId)] followed by [cma.entry.get]. *)
Definition visit (st : state) (entryId : string) : state :=
  {| visited := {[entryId]} ∪ visited st; ctCache := ctCache st;
     entries := entries st; fetched := (fetched st ++ [entryId])%list;
     written := written st |}.

(** [ctCache[ctId]], fetched and cached when it is not there. *)
Definition get_contentType (w : world) (st : state) (ctId : string)
  : option (contentType * state) :=
  match ctCache st !! ctId with
  | Some ct => Some (ct, st)
  | None =>
      match contentTypes w !! ctId with
      | Some ct =>
          Some (ct,
                {| visited := visited st;
                   ctCache := <[ctId := ct]> (ctCache st);
                   entries := entries st; fetched := fetched st;
                   written := written st |})
      | None => None
      end
  end.

(** The loop over [refIds], with [rec] the recursive call. *)
Fixpoint adopt_children
    (rec : state -> string -> option (result summary * state))
    (ids : list string) (st : state) (sum : summary)
  : option (result summary * state) :=
  match ids with
  | [] => Some (Done sum, st)
  | childId :: rest =>
      match rec st childId with
      | None => None
      | Some (Failed err, st) => Some (Failed err, st)
      | Some (Done s, st) => adopt_children rec rest st (add_summary sum s)
      end
  end.

(** [adoptEntryTree] with the recursion depth bounded by [fuel]; [None]
    when the fuel runs out. *)
Fixpoint adoptEntryTree (fuel : nat) (w : world) (st : state)
    (entryId : string) : option (result summary * state) :=
  match fuel with
  | O => None
  | S fuel' =>
      if String.eqb entryId "" || bool_decide (entryId ∈ visited st)
      then Some (Done zero_summary, st)
      else
        let st := visit st entryId in
        match entries st !! entryId with
        | None => Some (Failed (EntryNotFound entryId), st)
        | Some e =>
            match get_contentType w st (e_contentType e) with
            | None => Some (Failed (ContentTypeNotFound (e_contentType e)), st)
            | Some (ct, st) =>
                let acc := process_fields (dmp w) (cfg w) e ct in
                let updated :=
                  if (0 <? changed acc)%nat
                  then entry_update st entryId e (with_fields e (newFields acc))
                  else (Done tt, st) in
                match updated with
                | (Failed err, st) => Some (Failed err, st)
                | (Done _, st) =>
                    let here :=
                      if (0 <? changed acc)%nat
                      then {| updatedEntries := 1;
                              changedFields := changed acc;
                              traversedEntries := 1 |}
                      else {| updatedEntries := 0; changedFields := 0;
                              traversedEntries := 1 |} in
                    adopt_children (adoptEntryTree fuel' w) (refIds acc) st
                      here
                end
            end
        end
  end.

(** The entries of the store that the traversal has not visited. *)
Definition unvisited (st : state) : nat :=
  size (dom (entries st) ∖ visited st).

(** [st'] comes after [st] in a traversal that fetched the entries [new]
    in between: nothing leaves [visited], the store keeps its ids, the
    fetched ids are distinct, were not visited before and are visited
    after; the entries written in between are among the fetched ones, in
    the same order, each being its fetched entry with the [newFields] of
    the loop over its fields. *)
Definition extends (w : world) (st st' : state) (new : list string) : Prop :=
  visited st ⊆ visited st' /\
  dom (entries st') = dom (entries st) /\
  fetched st' = (fetched st ++ new)%list /\
  NoDup new /\
  (forall x, x ∈ new -> (x ∉ visited st) /\ (x ∈ visited st')) /\
  exists wnew : list (string * entry * entry),
    written st' = (written st ++ wnew)%list /\
    map (fun p => fst (fst p)) wnew `sublist_of` new /\
    Forall (fun p => exists ct,
              snd p = with_fields (snd (fst p))
                        (newFields
                           (process_fields (dmp w) (cfg w) (snd (fst p)) ct)))
      wnew.

(** The state a traversal starts from: [visited = new Set()],
    [ctCache = {}]. *)
Definition initial (store : gmap string entry) : state :=
  {| visited := ∅; ctCache := ∅; entries := store; fetched := [];
     written := [] |}.

End AdoptTree.

(** ** A cyclic record graph *)

Module Cycle.
Import AdoptTree.

(** Two entries that link to each other. *)
Definition page_type : contentType :=
  {| ct_fields :=
       [{| fd_id := "title"; fd_type := "Symbol"; fd_linkType := None;
           fd_items := None; fd_localized := true |};
        {| fd_id := "related"; fd_type := "Link"; fd_linkType := Some "Entry";
           fd_items := None; fd_localized := false |}] |}.

Definition page (id title_en : string) (title_de : option string)
    (related : string) : entry :=
  {| e_id := id; e_version := 1; e_contentType := "page";
     e_fields :=
       [("title",
         (("en-US", FJ (JStr title_en))
            :: match title_de with
               | Some t => [("de-DE", FJ (JStr t))]
               | None => []
               end)%list);
        ("related", [("en-US", FJ (Samples.link "Entry" related))])] |}.

Definition cyclic_store : gmap string entry :=
  <["A" := page "A" "Hello world, new sentence." (Some "Hello world.") "B"]>
    (<["B" := page "B" "Welcome" None "A"]> ∅).

(** [A] links to [B]; both are in sync. *)
Definition synced_store : gmap string entry :=
  <["A" := page "A" "Hello" (Some "Hello") "B"]>
    (<["B" := page "B" "Welcome" (Some "Welcome") ""]> ∅).

Definition cyclic_world : world :=
  {| dmp := Dmp.simple; cfg := adopt_all_config;
     contentTypes := <["page" := page_type]> ∅ |}.

End Cycle.


(** ** Measures on the runs of the call gateway *)

Module GatewayRuns.
Import RateLimiter.

(** The time slept in a trace, and the invocations made. *)
Fixpoint total_sleep (trace : list event) : Z :=
  match trace with
  | [] => 0
  | EvSleep ms :: rest => ms + total_sleep rest
  | _ :: rest => total_sleep rest
  end.

Fixpoint invocations (trace : list event) : nat :=
  match trace with
  | [] => 0
  | EvCall _ :: rest => S (invocations rest)
  | _ :: rest => invocations rest
  end.

(** The timestamps of a log that are at most [windowMs] old at [now]. *)
Definition recent (now : Z) (calls : list Z) : list Z :=
  List.filter (fun t => negb (now - t >? windowMs)) calls.

End GatewayRuns.

(** ** Measures on spans and blocks *)

Module Spans.
Import RichText.

(** The text of a list of spans. *)
Fixpoint ctext (spans : list span) : string :=
  match spans with
  | [] => ""
  | s :: rest => (text s ++ ctext rest)%string
  end.

(** No span has the formatting of the span before it. *)
Fixpoint adjacent_distinct (spans : list span) : Prop :=
  match spans with
  | a :: (b :: _) as rest =>
      same_format (format_of a) (format_of b) = false /\
      adjacent_distinct rest
  | _ => True
  end.

(** The hyperlink data of a span is as [cloneHyperlink] leaves it. *)
Definition hyperlink_normalized (s : span) : Prop :=
  match hyperlink s with
  | Some d => or_empty (Some d) = d
  | None => True
  end.

(** Both lists have a node at [i], of different kinds. *)
Definition kind_mismatch (src tgt : list node) (i : nat) : bool :=
  match tgt !! i, src !! i with
  | Some t, Some s => negb (String.eqb (nodeType s) (nodeType t))
  | _, _ => false
  end.

End Spans.

(** ** Field selection *)

Module Selection.
Import AdoptTree.

(** [adoptAll || allowedForThisEntry.has(fieldId)] *)
Definition allowed (cfg : config) (entryId fieldId : string) : bool :=
  adoptAll cfg
  || existsb (String.eqb fieldId)
       (match lookup_prop entryId (selected cfg) with
        | Some s => s
        | None => []
        end).

(** One round of the loop either leaves [newFields] and [changed] as they
    are, or counts one change. *)
Definition kept_or_counted (acc acc' : field_acc) : Prop :=
  (newFields acc' = newFields acc /\ changed acc' = changed acc) \/
  changed acc' = S (changed acc).

(** A set of ids to recurse into: no id twice, no empty id. *)
Definition distinct_ids (ids : list string) : Prop :=
  NoDup ids /\ Forall (fun i => i <> "") ids.

(** What a run from [st] to [st'] with outcome [r] did, measured from a
    summary [before]: [new] are the entries it fetched and [wnew] the
    updates it sent.  Every stored entry is as before or was updated, and
    a summary it returns counts the fetches and the updates. *)
Definition accounted (st st' : state) (before : summary)
    (r : result summary) (new : list string)
    (wnew : list (string * entry * entry)) : Prop :=
  fetched st' = (fetched st ++ new)%list /\
  written st' = (written st ++ wnew)%list /\
  (forall x, entries st' !! x = entries st !! x \/
             x ∈ map (fun p => fst (fst p)) wnew) /\
  match r with
  | Done s =>
      traversedEntries s = (traversedEntries before + length new)%nat /\
      updatedEntries s = (updatedEntries before + length wnew)%nat /\
      (updatedEntries before <= changedFields before ->
       updatedEntries s <= changedFields s)%nat
  | Failed _ => True
  end.

End Selection.

(** ** HTML rendering of a diff ([src/lib/renderDiffHtml.js]) *)

Module Html.
Import Dmp.

(** [s.replace(/c/g, rep)] for a single character [c]. *)
Fixpoint replace_char (c : ascii) (rep : string) (s : string) : string :=
  match s with
  | EmptyString => EmptyString
  | String x rest =>
      if Ascii.eqb x c then (rep ++ replace_char c rep rest)%string
      else String x (replace_char c rep rest)
  end.

Definition escapeHtml (str : string) : string :=
  replace_char ">" "&gt;"
    (replace_char "<" "&lt;" (replace_char "&" "&amp;" str)).

(** The double quote, for the attribute values of the tags. *)
Definition dquote : string := String "034"%char EmptyString.

Definition render_span (d : diff) : string :=
  let '(op, text) := d in
  if op =? DIFF_INSERT then
    ("<ins style=" ++ dquote
       ++ "background-color:#e6ffed;text-decoration:none;" ++ dquote ++ ">"
       ++ escapeHtml text ++ "</ins>")%string
  else if op =? DIFF_DELETE then
    ("<del style=" ++ dquote ++ "background-color:#ffeef0;" ++ dquote ++ ">"
       ++ escapeHtml text ++ "</del>")%string
  else ("<span>" ++ escapeHtml text ++ "</span>")%string.

Definition renderDiffHtml (dmp : engine) (source target : string) : string :=
  String.concat "" (map render_span (diff_of dmp source target)).

(** How often a character occurs in a string. *)
Fixpoint count_char (c : ascii) (s : string) : nat :=
  match s with
  | EmptyString => 0
  | String x rest =>
      if Ascii.eqb x c then S (count_char c rest) else count_char c rest
  end.

End Html.

(** ** Locale pairs (the dialog that starts an adoption) *)

Module Locales.

Definition ALLOWED_BASES : list string :=
  ["en"; "de"; "es"; "nl"; "it"; "ar"; "fr"; "zh"; "jp"].

(** [code.split("-")[0]] *)
Fixpoint before_dash (s : string) : string :=
  match s with
  | EmptyString => EmptyString
  | String c rest =>
      if Ascii.eqb c "-" then EmptyString else String c (before_dash rest)
  end.

(** [s.startsWith(p)] *)
Fixpoint startsWith (s p : string) : bool :=
  match p with
  | EmptyString => true
  | String c p' =>
      match s with
      | EmptyString => false
      | String d s' => Ascii.eqb c d && startsWith s' p'
      end
  end.

Definition isPairAllowed (sourceCode targetCode : string) : bool :=
  if String.eqb sourceCode "" || String.eqb targetCode "" then false
  else
    let srcBase := before_dash sourceCode in
    let tgtBase := before_dash targetCode in
    if negb (existsb (String.eqb srcBase) ALLOWED_BASES) then false
    else if negb (String.eqb srcBase tgtBase) then false
    else String.eqb targetCode sourceCode
         || startsWith targetCode (srcBase ++ "-")%string.

End Locales.

(** ** Plain text of a rich-text value ([src/lib/renderDiffHtml.js]) *)

Module PlainText.
Import RichText.

(** [extractPlainTextFromRichText] on a node: the texts of the children
    joined by a space when there is a [content] array, the [value] of a
    text node, and nothing else. *)
Fixpoint extractPlainTextFromRichText (richText : node) : string :=
  let 'Node t d c v ms := richText in
  match c with
  | Some l =>
      String.concat " "
        ((fix each (l : list node) : list string :=
            match l with
            | [] => []
            | m :: rest => extractPlainTextFromRichText m :: each rest
            end) l)
  | None =>
      if String.eqb t "text" then match v with Some s => s | None => "" end
      else ""
  end.

(** Text nodes have no [content] array, here and below. *)
Fixpoint text_nodes_are_leaves (n : node) : bool :=
  let 'Node t d c v ms := n in
  match c with
  | Some l =>
      negb (String.eqb t "text")
      && (fix all (l : list node) : bool :=
            match l with
            | [] => true
            | m :: rest => text_nodes_are_leaves m && all rest
            end) l
  | None => true
  end.

End PlainText.

(** ** Occurrence as one block *)

Module Contiguous.

(** [s.includes(t)]: [t] occurs in [s] as one block of consecutive
    characters. *)
Fixpoint occurs_in (t s : string) : bool :=
  String.prefix t s
  || match s with
     | EmptyString => false
     | String _ rest => occurs_in t rest
     end.

End Contiguous.

(** ** Formatting of a built block *)

Module InlineResult.
Import RichText.

(** A mark type without ["|"], the separator [keyFor] and [sameMarks] join
    the sorted types with. *)
Fixpoint pipe_free (s : string) : bool :=
  match s with
  | EmptyString => true
  | String c rest => negb (Ascii.eqb c "|") && pipe_free rest
  end.

Definition plain_span (s : span) : bool :=
  forallb (fun m => pipe_free (mark_type m)) (span_marks s).

Definition plain_marks (spans : list span) : bool := forallb plain_span spans.

(** The formatting an insertion takes over: that of the span it inherits
    from, none without such a span. *)
Definition inherited_format (inherit : option span) : format :=
  match inherit with
  | Some s => format_of s
  | None => ([], None)
  end.

(** Formatting [r], read off a block, shows formatting [f]: one mark for
    every non-empty mark type of [f] and no other, and the hyperlink of
    [f]. *)
Definition shows (f r : format) : Prop :=
  NoDup (map mark_type (fst r)) /\
  (forall ty, In ty (map mark_type (fst r))
              <-> In ty (map mark_type (fst f)) /\ ty <> "") /\
  sameHyperlink (snd f) (snd r) = true.

Definition key_of (f : format) : string * option json :=
  keyFor (fst f) (snd f).

(** What [flushText] writes for a run of spans whose first span has
    formatting [g], as [flattenInlineBlock] reads it back. *)
Definition written (g : format) : format :=
  (normalizeMarks (fst g), snd (key_of g)).

(** A character of the built block against the character of the span list
    it was built from: the same character, written for a run that starts
    with a span of the list with the same key. *)
Definition rendered_from (formats : list format) (x y : ascii * format)
  : Prop :=
  fst x = fst y /\
  exists g, In g formats /\ key_of g = key_of (snd x) /\ snd y = written g.

(** The state of [buildInlineBlockFromSpans] after the spans [done]: the
    characters of the flushed runs are in [content], those of the pending
    run are in [currentText], written with the marks and the hyperlink of
    the span that started the run. *)
Definition build_inv (done : list span) (b : builder) : Prop :=
  exists flushed pending : list (ascii * format),
    char_formats done = (flushed ++ pending)%list /\
    Forall2 (rendered_from (map format_of done)) flushed
      (char_formats (snd (walk (b_content b) [] None ("", [])))) /\
    map fst pending = chars (currentText b) /\
    match currentMarksKey b with
    | None => pending = []
    | Some k =>
        exists g, In g (map format_of done) /\ k = key_of g /\
                  currentMarks b = normalizeMarks (fst g) /\
                  currentHyperlink b = snd (key_of g) /\
                  Forall (fun x => key_of (snd x) = k) pending
    end.

End InlineResult.
(** * Properties *)

(** ** Strings *)

Lemma string_app_nil_r (a : string) : (a ++ "")%string = a.
Proof.
  induction a as [|c a IH]; [reflexivity|].
  change (String c (a ++ "")%string = String c a). now rewrite IH.
Qed.

Lemma string_app_assoc (a b c : string) :
  ((a ++ b) ++ c)%string = (a ++ (b ++ c))%string.
Proof.
  induction a as [|x a IH]; [reflexivity|].
  change (String x ((a ++ b) ++ c)%string = String x (a ++ (b ++ c))%string).
  now rewrite IH.
Qed.

Lemma chars_app (a b : string) : chars (a ++ b)%string = (chars a ++ chars b)%list.
Proof.
  unfold chars. induction a as [|c a IH]; [reflexivity|].
  change (c :: list_ascii_of_string (a ++ b)%string
          = c :: (list_ascii_of_string a ++ list_ascii_of_string b)%list).
  now rewrite IH.
Qed.

(** ** JSON values *)

Lemma json_eqb_eq : forall a b : json, json_eqb a b = true <-> a = b.
Proof.
  fix IH 1. intros a b.
  destruct a as [|x|x|x|xs|ps]; destruct b as [|y|y|y|ys|qs];
    try (split; [discriminate | congruence]).
  - split; reflexivity.
  - simpl. rewrite Bool.eqb_true_iff. split; congruence.
  - simpl. rewrite Z.eqb_eq. split; congruence.
  - simpl. rewrite String.eqb_eq. split; congruence.
  - simpl. revert ys. induction xs as [|x xs IHxs]; intros [|y ys];
      try (split; [discriminate | congruence]).
    + split; reflexivity.
    + rewrite andb_true_iff, (IH x y), (IHxs ys). split.
      * intros [-> H]. now inversion H.
      * intros H. inversion H. split; reflexivity.
  - simpl. revert qs. induction ps as [|[k x] ps IHps]; intros [|[l y] qs];
      try (split; [discriminate | congruence]).
    + split; reflexivity.
    + rewrite !andb_true_iff, String.eqb_eq, (IH x y), (IHps qs). split.
      * intros [[-> ->] H]. now inversion H.
      * intros H. inversion H. repeat split; reflexivity.
Qed.

Lemma json_eqb_refl (a : json) : json_eqb a a = true.
Proof. now apply json_eqb_eq. Qed.

Lemma lookup_set_prop_eq {V : Type} key (v : V) props :
  lookup_prop key (set_prop key v props) = Some v.
Proof.
  induction props as [|[k x] rest IH]; simpl.
  - now rewrite String.eqb_refl.
  - destruct (String.eqb k key) eqn:E; simpl; rewrite E; [reflexivity | exact IH].
Qed.

Lemma lookup_set_prop_ne {V : Type} key key' (v : V) props :
  key <> key' ->
  lookup_prop key' (set_prop key v props) = lookup_prop key' props.
Proof.
  intros Hne. induction props as [|[k x] rest IH]; simpl.
  - destruct (String.eqb key key') eqn:E; [|reflexivity].
    apply String.eqb_eq in E. contradiction.
  - destruct (String.eqb k key) eqn:E; simpl.
    + apply String.eqb_eq in E. subst k.
      destruct (String.eqb key key') eqn:E'; [|reflexivity].
      apply String.eqb_eq in E'. contradiction.
    + now rewrite IH.
Qed.

(** ** Plain-text merge *)

Section MergeTextFacts.
Import Dmp MergeText.

Lemma merge_loop_all_text diffs out :
  forallb op_ok diffs = true ->
  merge_loop diffs out = (out ++ all_text diffs)%string.
Proof.
  revert out. induction diffs as [|[op text] rest IH]; intros out Hok.
  - simpl. now rewrite string_app_nil_r.
  - simpl in Hok. apply andb_true_iff in Hok as [Hop Hrest].
    unfold op_ok, DIFF_DELETE, DIFF_EQUAL, DIFF_INSERT in Hop. simpl in Hop.
    simpl. rewrite <- string_app_assoc.
    destruct (op =? 0) eqn:E0; [now apply IH|].
    destruct (op =? 1) eqn:E1; [now apply IH|].
    destruct (op =? -1) eqn:E2; [now apply IH|].
    discriminate.
Qed.

Lemma text1_sublist_all_text diffs :
  chars (diff_text1 diffs) `sublist_of` chars (all_text diffs).
Proof.
  induction diffs as [|[op text] rest IH]; simpl; [constructor|].
  rewrite chars_app. destruct (op =? DIFF_INSERT).
  - now apply sublist_inserts_l.
  - rewrite chars_app. now apply sublist_app.
Qed.

Lemma text2_sublist_all_text diffs :
  chars (diff_text2 diffs) `sublist_of` chars (all_text diffs).
Proof.
  induction diffs as [|[op text] rest IH]; simpl; [constructor|].
  rewrite chars_app. destruct (op =? DIFF_DELETE).
  - now apply sublist_inserts_l.
  - rewrite chars_app. now apply sublist_app.
Qed.


Lemma all_text_without_inserts diffs :
  all_text (filter (fun d => fst d <> DIFF_INSERT) diffs) = diff_text1 diffs.
Proof.
  induction diffs as [|[op text] rest IH]; [reflexivity|].
  rewrite filter_cons. cbn [fst diff_text1].
  destruct (decide (op <> DIFF_INSERT)) as [Hne|Heq].
  - apply Z.eqb_neq in Hne. rewrite Hne.
    change (all_text ((op, text) :: filter (fun d => fst d <> DIFF_INSERT) rest))
      with (text ++ all_text (filter (fun d => fst d <> DIFF_INSERT) rest))%string.
    now rewrite IH.
  - apply dec_stable in Heq. apply Z.eqb_eq in Heq. now rewrite Heq.
Qed.

Lemma diff_text1_app pre post :
  diff_text1 (pre ++ post) = (diff_text1 pre ++ diff_text1 post)%string.
Proof.
  induction pre as [|[op txt] rest IH]; [reflexivity|].
  simpl. destruct (op =? DIFF_INSERT); [exact IH|].
  now rewrite IH, string_app_assoc.
Qed.

Lemma all_text_app pre post :
  all_text (pre ++ post) = (all_text pre ++ all_text post)%string.
Proof.
  induction pre as [|[op txt] rest IH]; [reflexivity|].
  simpl. now rewrite IH, string_app_assoc.
Qed.

Lemma append_length (a b : string) :
  String.length (a ++ b)%string = (String.length a + String.length b)%nat.
Proof. induction a as [|c a IH]; simpl; [reflexivity | now rewrite IH]. Qed.

Lemma all_text_length_split diffs :
  String.length (all_text diffs)
  = (String.length (diff_text1 diffs)
     + String.length
         (all_text (filter (fun d => fst d = DIFF_INSERT) diffs)))%nat.
Proof.
  induction diffs as [|[op text] rest IH]; [reflexivity|].
  rewrite filter_cons. cbn [fst diff_text1 all_text].
  rewrite append_length, IH.
  destruct (decide (op = DIFF_INSERT)) as [Heq|Hne].
  - apply Z.eqb_eq in Heq. rewrite Heq. cbn [all_text].
    rewrite append_length. apply Nat.add_shuffle3.
  - apply Z.eqb_neq in Hne. rewrite Hne. rewrite append_length.
    apply Nat.add_assoc.
Qed.

Lemma prefix_app (t a : string) : String.prefix t (t ++ a)%string = true.
Proof.
  induction t as [|c t IH]; [now destruct a|].
  simpl. destruct (Ascii.ascii_dec c c); [exact IH | contradiction].
Qed.

Lemma occurs_in_app (t b a : string) :
  Contiguous.occurs_in t (b ++ t ++ a)%string = true.
Proof.
  induction b as [|c b IH].
  - change ("" ++ t ++ a)%string with (t ++ a)%string.
    destruct (t ++ a)%string eqn:E; cbn [Contiguous.occurs_in];
      rewrite <- E, prefix_app; reflexivity.
  - change (String c b ++ t ++ a)%string with (String c (b ++ t ++ a)%string).
    cbn [Contiguous.occurs_in]. rewrite IH. apply orb_true_r.
Qed.

(** C1, as the code has it.  With the diff that [diff_main] and
    [diff_cleanupSemantic] return being a diff from [target] to [source],
    the merged string is the text of every span of the diff in order, and
    the characters of [target] all occur in it, in their original order,
    as a subsequence (not as one block).  Every equal and every delete
    span is a piece of [target] that the merged string has as one block,
    between the text of the spans before it and of the spans after it;
    only the insert spans add text: the merged string is longer than
    [target] by their total length. *)
Theorem merge_keeps_target (dmp : engine) (source target : string) :
  edit_script (diff_of dmp target source) target source ->
  chars target `sublist_of`
    chars (mergeSourceAdditionsIntoTarget dmp source target) /\
  mergeSourceAdditionsIntoTarget dmp source target
  = all_text (diff_of dmp target source) /\
  (forall pre op text post,
     diff_of dmp target source = (pre ++ (op, text) :: post)%list ->
     op <> DIFF_INSERT ->
     target = (diff_text1 pre ++ text ++ diff_text1 post)%string /\
     mergeSourceAdditionsIntoTarget dmp source target
     = (all_text pre ++ text ++ all_text post)%string) /\
  String.length (mergeSourceAdditionsIntoTarget dmp source target)
  = (String.length target
     + String.length
         (all_text
            (filter (fun d => fst d = DIFF_INSERT)
               (diff_of dmp target source))))%nat.
Proof.
  intros (Hok & H1 & _). unfold mergeSourceAdditionsIntoTarget.
  rewrite merge_loop_all_text by exact Hok.
  change ("" ++ all_text (diff_of dmp target source))%string
    with (all_text (diff_of dmp target source)).
  revert Hok H1. generalize (diff_of dmp target source). intros diffs Hok H1.
  subst target. split; [|split; [|split]].
  - apply text1_sublist_all_text.
  - reflexivity.
  - intros pre op text post Hsplit Hop. rewrite Hsplit.
    rewrite diff_text1_app, all_text_app. cbn [diff_text1 all_text].
    apply Z.eqb_neq in Hop. now rewrite Hop.
  - apply all_text_length_split.
Qed.

Lemma merge_keeps_target_witness :
  chars "Hello world." `sublist_of`
    chars (mergeSourceAdditionsIntoTarget Dmp.simple
             "Hello world, new sentence." "Hello world.") /\
  String.length
    (mergeSourceAdditionsIntoTarget Dmp.simple
       "Hello world, new sentence." "Hello world.")
  = (String.length "Hello world." + String.length ", new sentence")%nat.
Proof.
  destruct (merge_keeps_target Dmp.simple
              "Hello world, new sentence." "Hello world.")
    as (Hsub & _ & _ & Hlen).
  - vm_compute. repeat split; reflexivity.
  - split; [exact Hsub | exact Hlen].
Defined.

(** C1, as it is stated, fails: [target] need not stay one block.  After
    a sentence is added in the middle of the source, the merged string
    has the inserted text between two characters of [target]. *)
Lemma target_is_not_kept_as_one_block :
  ~ (forall (dmp : engine) (source target : string),
       edit_script (diff_of dmp target source) target source ->
       exists before after : string,
         mergeSourceAdditionsIntoTarget dmp source target
         = (before ++ target ++ after)%string).
Proof.
  intros H.
  destruct (H Dmp.simple "Hello world, new sentence." "Hello world.")
    as (before & after & Heq).
  - vm_compute. repeat split; reflexivity.
  - pose proof (occurs_in_app "Hello world." before after) as Hocc.
    rewrite <- Heq in Hocc. vm_compute in Hocc. discriminate Hocc.
Qed.

(** C9.  Under the same contract of the diff engine the merged string also
    contains the characters of [source] in their original order: it is a
    common supersequence of [source] and [target]. *)
Theorem merge_contains_source (dmp : engine) (source target : string) :
  edit_script (diff_of dmp target source) target source ->
  chars source `sublist_of`
    chars (mergeSourceAdditionsIntoTarget dmp source target) /\
  chars target `sublist_of`
    chars (mergeSourceAdditionsIntoTarget dmp source target).
Proof.
  intros (Hok & H1 & H2). unfold mergeSourceAdditionsIntoTarget.
  rewrite merge_loop_all_text by exact Hok. simpl. split.
  - rewrite <- H2 at 1. apply text2_sublist_all_text.
  - rewrite <- H1 at 1. apply text1_sublist_all_text.
Qed.

Lemma merge_contains_source_witness :
  chars "Hello brave world" `sublist_of`
    chars (mergeSourceAdditionsIntoTarget Dmp.simple
             "Hello brave world" "Hello new world") /\
  chars "Hello new world" `sublist_of`
    chars (mergeSourceAdditionsIntoTarget Dmp.simple
             "Hello brave world" "Hello new world").
Proof.
  apply (merge_contains_source Dmp.simple
           "Hello brave world" "Hello new world").
  vm_compute. repeat split; reflexivity.
Defined.

Example merge_appends_new_sentence :
  mergeSourceAdditionsIntoTarget Dmp.simple
    "Hello world, new sentence." "Hello world."
  = "Hello world, new sentence.".
Proof. reflexivity. Qed.

(** *** Merging a second time

    Whether a second merge changes the merged string is up to the diff the
    engine returns for it: the string is kept exactly when that diff has no
    insert span with text.  The contract of a diff does not settle this. *)

Lemma chars_length (s : string) : length (chars s) = String.length s.
Proof.
  unfold chars. induction s as [|c s IH]; [reflexivity|].
  simpl. now rewrite IH.
Qed.

Lemma len_text1_le_all_text diffs :
  (String.length (diff_text1 diffs) <= String.length (all_text diffs))%nat.
Proof.
  pose proof (sublist_length _ _ (text1_sublist_all_text diffs)) as H.
  now rewrite !chars_length in H.
Qed.

Lemma string_app_inv_head (a b c : string) :
  (a ++ b)%string = (a ++ c)%string -> b = c.
Proof.
  induction a as [|x a IH]; intros H; [exact H|].
  apply IH. now inversion H.
Qed.

Lemma string_length_app (a b : string) :
  String.length (a ++ b)%string = (String.length a + String.length b)%nat.
Proof.
  induction a as [|x a IH]; [reflexivity|].
  change (S (String.length (a ++ b)%string)
          = S (String.length a + String.length b)). now rewrite IH.
Qed.

Lemma all_text_is_text1_iff diffs :
  all_text diffs = diff_text1 diffs <->
  Forall (fun d : diff => fst d = DIFF_INSERT -> snd d = "") diffs.
Proof.
  induction diffs as [|[op txt] rest IH]; [split; [constructor | reflexivity]|].
  cbn [all_text diff_text1]. destruct (op =? DIFF_INSERT) eqn:E.
  - apply Z.eqb_eq in E. split.
    + intros H.
      assert (Hlen : String.length txt = 0%nat).
      { pose proof (len_text1_le_all_text rest) as Hle.
        apply (f_equal String.length) in H.
        rewrite string_length_app in H. lia. }
      destruct txt; [|discriminate Hlen].
      constructor; [reflexivity|]. apply IH. exact H.
    + intros H. inversion H as [|? ? Hd Hrest]; subst.
      cbn in Hd. rewrite (Hd eq_refl). apply IH. exact Hrest.
  - apply Z.eqb_neq in E. split.
    + intros H. apply string_app_inv_head in H.
      constructor; [intros Hop; cbn in Hop; contradiction|]. now apply IH.
    + intros H. inversion H as [|? ? Hd Hrest]; subst. f_equal. now apply IH.
Qed.

Lemma second_merge_fixed_iff (dmp : engine) (source merged : string) :
  edit_script (diff_of dmp merged source) merged source ->
  mergeSourceAdditionsIntoTarget dmp source merged = merged <->
  Forall (fun d : diff => fst d = DIFF_INSERT -> snd d = "")
    (diff_of dmp merged source).
Proof.
  intros (Hok & H1 & _). unfold mergeSourceAdditionsIntoTarget.
  rewrite merge_loop_all_text by exact Hok.
  change ("" ++ all_text (diff_of dmp merged source))%string
    with (all_text (diff_of dmp merged source)).
  rewrite <- H1 at 2. apply all_text_is_text1_iff.
Qed.

Example replace_all_is_an_edit_script :
  edit_script (diff_of Dmp.replace_all "a" "b") "a" "b" /\
  edit_script (diff_of Dmp.replace_all "ab" "b") "ab" "b".
Proof. vm_compute. repeat split; reflexivity. Qed.

Example replace_all_merges_twice :
  mergeSourceAdditionsIntoTarget Dmp.replace_all "b" "a" = "ab" /\
  mergeSourceAdditionsIntoTarget Dmp.replace_all "b" "ab" = "abb".
Proof. split; reflexivity. Qed.

Example simple_merges_once :
  mergeSourceAdditionsIntoTarget Dmp.simple "b" "a" = "ab" /\
  mergeSourceAdditionsIntoTarget Dmp.simple "b" "ab" = "ab".
Proof. split; reflexivity. Qed.

End MergeTextFacts.

(** ** Call gateway *)

Section RateLimiterFacts.
Import RateLimiter.

Lemma callCMA_loop_stops {A : Type} (opts : options) (fn : nat -> outcome A)
    (rnd : nat -> Z) (k : nat) :
  forall (fuel from : nat) (trace : list event),
  (k < fuel)%nat ->
  (forall i, (i < k)%nat ->
     Z.of_nat (from + i) < retries opts /\
     exists e, fn (from + i)%nat = Thrown e /\ isRate e = true) ->
  (match fn (from + k)%nat with
   | Returned _ => True
   | Thrown e => isRate e = false \/ retries opts <= Z.of_nat (from + k)
   end) ->
  callCMA_loop fuel opts fn rnd from trace
  = Some (fn (from + k)%nat, (trace ++ rounds opts rnd from k)%list).
Proof.
  induction k as [|k IH]; intros fuel from trace Hfuel Hrate Hstop.
  - destruct fuel as [|fuel]; [lia|].
    rewrite Nat.add_0_r in *. unfold rounds. simpl.
    rewrite Nat.add_0_r.
    destruct (fn from) as [v|e]; [reflexivity|].
    destruct Hstop as [Hn|Hge].
    + now rewrite Hn.
    + replace (Z.of_nat from >=? retries opts) with true
        by (symmetry; apply Z.geb_le; lia).
      now rewrite orb_true_r.
  - destruct fuel as [|fuel]; [lia|]. simpl.
    destruct (Hrate 0%nat ltac:(lia)) as (Hlt & e & He & Hr).
    rewrite Nat.add_0_r in He, Hlt. rewrite He, Hr. simpl.
    replace (Z.of_nat from >=? retries opts) with false
      by (symmetry; rewrite Z.geb_leb; apply Z.leb_gt; lia).
    rewrite (IH fuel (S from)).
    + replace (S from + k)%nat with (from + S k)%nat by lia.
      f_equal. f_equal. unfold rounds. simpl.
      rewrite <- !app_assoc. simpl.
      replace (S (from + k)) with (from + S k)%nat by lia. reflexivity.
    + lia.
    + intros i Hi. replace (S from + i)%nat with (from + S i)%nat by lia.
      apply Hrate. lia.
    + replace (S from + k)%nat with (from + S k)%nat by lia. exact Hstop.
Qed.

(** Some round within the bound ends the loop, whatever the operation. *)
Lemma callCMA_stop_exists {A : Type} (opts : options) (fn : nat -> outcome A)
    (n : nat) :
  forall from : nat,
  retries opts <= Z.of_nat (from + n) ->
  exists k : nat,
    (k <= n)%nat /\
    (forall i, (i < k)%nat ->
       Z.of_nat (from + i) < retries opts /\
       exists e, fn (from + i)%nat = Thrown e /\ isRate e = true) /\
    (match fn (from + k)%nat with
     | Returned _ => True
     | Thrown e => isRate e = false \/ retries opts <= Z.of_nat (from + k)
     end).
Proof.
  induction n as [|n IH]; intros from Hn.
  - exists 0%nat. split; [lia|]. split; [intros i Hi; lia|].
    destruct (fn (from + 0)%nat); [exact I | now right].
  - destruct (fn from) as [v|e] eqn:Hfn.
    + exists 0%nat. split; [lia|]. split; [intros i Hi; lia|].
      rewrite Nat.add_0_r, Hfn. exact I.
    + destruct (isRate e) eqn:Hr;
        [destruct (Z_lt_le_dec (Z.of_nat from) (retries opts)) as [Hlt|Hge]|].
      * destruct (IH (S from)) as (k & Hk & Hbefore & Hstop); [lia|].
        exists (S k). split; [lia|]. split.
        -- intros [|i] Hi.
           ++ rewrite Nat.add_0_r. split; [exact Hlt | now exists e].
           ++ replace (from + S i)%nat with (S from + i)%nat by lia.
              apply Hbefore. lia.
        -- now replace (from + S k)%nat with (S from + k)%nat by lia.
      * exists 0%nat. split; [lia|]. split; [intros i Hi; lia|].
        rewrite Nat.add_0_r, Hfn. now right.
      * exists 0%nat. split; [lia|]. split; [intros i Hi; lia|].
        rewrite Nat.add_0_r, Hfn. now left.
Qed.

(** C7.  [callCMA] runs the operation again only after a rate-limit
    failure (status 429 or sys.id "RateLimitExceeded").  Whatever the
    operation does, the loop ends at some invocation [k], at most
    [retries] (default 4) invocations after the first: the [k] invocations
    before it all failed with a rate-limit failure, and invocation [k]
    returned, failed otherwise, or used up the retries.  The outcome is the
    outcome of invocation [k] itself, so a failure is thrown as the
    operation threw it.  Before each invocation the gateway throttles, and
    after the failure of round [i] it sleeps [baseDelay * 2^i] plus the
    random jitter; nothing is slept after the last invocation. *)
Theorem callCMA_retries_on_rate_limit_only {A : Type} (opts : options)
    (fn : nat -> outcome A) (rnd : nat -> Z) (fuel : nat) :
  (Z.to_nat (retries opts) < fuel)%nat ->
  retries default_options = 4 /\
  exists k : nat,
    Z.of_nat k <= Z.max 0 (retries opts) /\
    (forall i, (i < k)%nat -> exists e, fn i = Thrown e /\ isRate e = true) /\
    (match fn k with
     | Returned _ => True
     | Thrown e => isRate e = false \/ retries opts <= Z.of_nat k
     end) /\
    callCMA fuel opts fn rnd = Some (fn k, rounds opts rnd 0 k).
Proof.
  intros Hfuel. split; [reflexivity|].
  destruct (callCMA_stop_exists opts fn (Z.to_nat (retries opts)) 0%nat)
    as (k & Hk & Hbefore & Hstop); [simpl; lia|].
  exists k. split; [lia|]. split; [|split].
  - intros i Hi. now destruct (Hbefore i Hi) as [_ He].
  - exact Hstop.
  - unfold callCMA.
    now rewrite (callCMA_loop_stops opts fn rnd k fuel 0%nat []) by (auto; lia).
Qed.

Lemma callCMA_retries_on_rate_limit_only_witness :
  retries default_options = 4 /\
  exists k : nat,
    Z.of_nat k <= Z.max 0 (retries default_options) /\
    (forall i, (i < k)%nat ->
       exists e,
         (fun _ : nat => @Thrown unit
            {| status := Some 429; sys_id := None; detail := "busy" |}) i
         = Thrown e /\ isRate e = true) /\
    (match @Thrown unit {| status := Some 429; sys_id := None; detail := "busy" |} with
     | Returned _ => True
     | Thrown e => isRate e = false \/ retries default_options <= Z.of_nat k
     end) /\
    callCMA 5 default_options
      (fun _ : nat => @Thrown unit
         {| status := Some 429; sys_id := None; detail := "busy" |})
      (fun _ => 7)
    = Some (Thrown {| status := Some 429; sys_id := None; detail := "busy" |},
            rounds default_options (fun _ => 7) 0 k).
Proof.
  apply (callCMA_retries_on_rate_limit_only default_options
           (fun _ : nat => @Thrown unit
              {| status := Some 429; sys_id := None; detail := "busy" |})
           (fun _ => 7) 5).
  simpl. lia.
Defined.

(** A run of the gateway with the default options against an operation
    that is rate limited throughout: five invocations, four sleeps. *)
Example callCMA_rate_limited_throughout :
  callCMA 9 default_options
    (fun _ : nat => @Thrown unit
       {| status := None; sys_id := Some "RateLimitExceeded"; detail := "" |})
    (fun n => Z.of_nat n)
  = Some (Thrown {| status := None; sys_id := Some "RateLimitExceeded";
                    detail := "" |},
          [EvThrottle; EvCall 0; EvSleep 300;
           EvThrottle; EvCall 1; EvSleep 601;
           EvThrottle; EvCall 2; EvSleep 1202;
           EvThrottle; EvCall 3; EvSleep 2403;
           EvThrottle; EvCall 4]).
Proof. reflexivity. Qed.

(** A failure that is not a rate-limit failure is thrown at once. *)
Example callCMA_other_failure :
  callCMA 9 default_options
    (fun _ : nat => @Thrown unit
       {| status := Some 404; sys_id := Some "NotFound"; detail := "" |})
    (fun n => 0)
  = Some (Thrown {| status := Some 404; sys_id := Some "NotFound";
                    detail := "" |},
          [EvThrottle; EvCall 0]).
Proof. reflexivity. Qed.

(** *** [throttle] *)

Lemma throttle_pass_full (cfg : limiter_config) (now jitter now' : Z)
    (calls : list Z) (oldest : Z) (rest : list Z) :
  drop_old now calls = oldest :: rest ->
  Z.of_nat (length (oldest :: rest)) >= maxPerSecond cfg ->
  throttle_pass cfg now jitter now' calls
  = (oldest :: rest,
     Sleep (Z.max (minInterval cfg - (now - oldest)) 0 + jitter)).
Proof.
  intros Hdrop Hfull. unfold throttle_pass. rewrite Hdrop.
  replace (Z.of_nat (length (oldest :: rest)) >=? maxPerSecond cfg) with true
    by (symmetry; apply Z.geb_le; lia).
  reflexivity.
Qed.

Lemma throttle_run_proceeds (cfg : limiter_config)
    (readings : list (Z * Z * Z)) :
  forall (calls waits calls' waits' : list Z),
  throttle_run cfg readings calls waits = Some (calls', waits') ->
  exists (k : nat) (n j n' : Z) (log more : list Z),
    readings !! k = Some (n, j, n') /\
    Z.of_nat (length (drop_old n log)) < maxPerSecond cfg /\
    calls' = (drop_old n log ++ [n'])%list /\
    waits' = (waits ++ more)%list /\
    length more = k.
Proof.
  induction readings as [|[[now jitter] now'] later IH];
    intros calls waits calls' waits' Hrun; [discriminate|].
  cbn [throttle_run] in Hrun. unfold throttle_pass in Hrun.
  destruct (Z.of_nat (length (drop_old now calls)) >=? maxPerSecond cfg)
    eqn:Hfull.
  - assert (Hnext : exists w,
              throttle_run cfg later (drop_old now calls) (waits ++ [w])%list
              = Some (calls', waits')).
    { destruct (drop_old now calls) as [|oldest rest]; eauto. }
    destruct Hnext as [w Hnext].
    destruct (IH _ _ _ _ Hnext) as (k & n & j & n' & log & more & H).
    destruct H as (Hk & Hlt & Hc & Hw & Hlen).
    exists (S k), n, j, n', log, (w :: more).
    split; [exact Hk|]. split; [exact Hlt|]. split; [exact Hc|].
    split; [now rewrite Hw, <- app_assoc | cbn [length]; now rewrite Hlen].
  - injection Hrun as <- <-.
    exists 0%nat, now, jitter, now', calls, [].
    split; [reflexivity|]. split.
    + rewrite Z.geb_leb in Hfull. apply Z.leb_gt in Hfull. exact Hfull.
    + split; [reflexivity|]. split; [now rewrite app_nil_r | reflexivity].
Qed.

(** C8, as the code has it.  When the log is full after the old timestamps
    were dropped, the wait before the next check is what is left of
    [minInterval = ceil(1000 / maxPerSecond)] since the oldest retained
    timestamp (or nothing, when that is over), plus the jitter
    [floor(random * jitterMs)]; the log is left as it is and nothing is
    pushed.  After the sleep [throttle] runs again, on that log and with
    the next readings of the clock, and so on: when it lets the call
    through, it does so at a later check that finds fewer than
    [maxPerSecond] retained timestamps, after one sleep per check before
    it. *)
Theorem throttle_wait_when_full (cfg : limiter_config) (now jitter now' : Z)
    (calls : list Z) (oldest : Z) (rest : list Z)
    (later : list (Z * Z * Z)) (waits : list Z) :
  0 < maxPerSecond cfg ->
  drop_old now calls = oldest :: rest ->
  Z.of_nat (length (oldest :: rest)) >= maxPerSecond cfg ->
  throttle_pass cfg now jitter now' calls
  = (oldest :: rest,
     Sleep (Z.max (minInterval cfg - (now - oldest)) 0 + jitter)) /\
  throttle_run cfg ((now, jitter, now') :: later) calls waits
  = throttle_run cfg later (oldest :: rest)
      (waits ++ [Z.max (minInterval cfg - (now - oldest)) 0 + jitter])%list /\
  (forall calls' waits' : list Z,
     throttle_run cfg ((now, jitter, now') :: later) calls waits
     = Some (calls', waits') ->
     exists (k : nat) (n j n' : Z) (log more : list Z),
       later !! k = Some (n, j, n') /\
       Z.of_nat (length (drop_old n log)) < maxPerSecond cfg /\
       calls' = (drop_old n log ++ [n'])%list /\
       waits'
       = (waits
          ++ (Z.max (minInterval cfg - (now - oldest)) 0 + jitter) :: more)%list
       /\
       length more = k) /\
  (minInterval cfg - 1) * maxPerSecond cfg < windowMs
  <= minInterval cfg * maxPerSecond cfg.
Proof.
  intros Hpos Hdrop Hfull.
  pose proof (throttle_pass_full cfg now jitter now' calls oldest rest
                Hdrop Hfull) as Hpass.
  assert (Hrun : throttle_run cfg ((now, jitter, now') :: later) calls waits
                 = throttle_run cfg later (oldest :: rest)
                     (waits
                      ++ [Z.max (minInterval cfg - (now - oldest)) 0
                          + jitter])%list).
  { cbn [throttle_run]. now rewrite Hpass. }
  split; [exact Hpass|]. split; [exact Hrun|]. split.
  - intros calls' waits' Hsome. rewrite Hrun in Hsome.
    destruct (throttle_run_proceeds _ _ _ _ _ _ Hsome)
      as (k & n & j & n' & log & more & Hk & Hlt & Hc & Hw & Hlen).
    exists k, n, j, n', log, more.
    split; [exact Hk|]. split; [exact Hlt|]. split; [exact Hc|].
    split; [now rewrite Hw, <- app_assoc | exact Hlen].
  - unfold minInterval, ceil_div, windowMs.
    pose proof (Z.div_mod (-1000) (maxPerSecond cfg) ltac:(lia)) as Hdm.
    pose proof (Z.mod_pos_bound (-1000) (maxPerSecond cfg) Hpos) as Hb.
    change (- (1000)) with (-1000).
    set (q := -1000 / maxPerSecond cfg) in *.
    set (r := -1000 mod maxPerSecond cfg) in *.
    replace ((- q - 1) * maxPerSecond cfg)
      with (- (maxPerSecond cfg * q) - maxPerSecond cfg) by ring.
    replace (- q * maxPerSecond cfg) with (- (maxPerSecond cfg * q)) by ring.
    lia.
Qed.

Lemma throttle_wait_when_full_witness :
  throttle_pass throttle_config 1010 3 1010
    [1000; 1001; 1002; 1003; 1004; 1005; 1006; 1007]
  = ([1000; 1001; 1002; 1003; 1004; 1005; 1006; 1007], Sleep 118) /\
  throttle_run throttle_config [(1010, 3, 1010); (2002, 0, 2003)]
    [1000; 1001; 1002; 1003; 1004; 1005; 1006; 1007] []
  = throttle_run throttle_config [(2002, 0, 2003)]
      [1000; 1001; 1002; 1003; 1004; 1005; 1006; 1007] [118].
Proof.
  destruct (throttle_wait_when_full throttle_config 1010 3 1010
              [1000; 1001; 1002; 1003; 1004; 1005; 1006; 1007]
              1000 [1001; 1002; 1003; 1004; 1005; 1006; 1007]
              [(2002, 0, 2003)] []) as (Hpass & Hrun & _).
  - reflexivity.
  - reflexivity.
  - simpl. lia.
  - split; [exact Hpass | exact Hrun].
Defined.

(** C8, as it is stated, fails: with eight calls logged in the last ten
    milliseconds the oldest timestamp stays in the window for another 990
    ms (and is dropped one millisecond later), the computed wait is 115 ms
    plus jitter, and after that sleep the log is still full. *)
Lemma throttle_wait_is_not_window_remaining :
  ~ (forall (cfg : limiter_config) (now jitter now' : Z) (calls : list Z),
       Z.of_nat (length (drop_old now calls)) >= maxPerSecond cfg ->
       snd (throttle_pass cfg now jitter now' calls)
       = Sleep (window_remaining now (drop_old now calls) + jitter) \/
       snd (throttle_pass cfg now jitter now' calls)
       = Sleep (window_remaining now (drop_old now calls) + 1 + jitter)).
Proof.
  intros H.
  specialize (H throttle_config 1010 0 1010
                [1000; 1001; 1002; 1003; 1004; 1005; 1006; 1007]).
  simpl in H. specialize (H ltac:(lia)). vm_compute in H.
  destruct H as [H|H]; discriminate H.
Qed.

Example throttle_lets_through_after_the_window :
  throttle_run throttle_config [(1010, 3, 1010); (2002, 0, 2003)]
    [1000; 1001; 1002; 1003; 1004; 1005; 1006; 1007] []
  = Some ([1002; 1003; 1004; 1005; 1006; 1007; 2003], [118]).
Proof. reflexivity. Qed.

Example throttle_still_full_after_wait :
  throttle_run throttle_config [(1010, 0, 1010); (1125, 0, 1125)]
    [1000; 1001; 1002; 1003; 1004; 1005; 1006; 1007] []
  = None /\
  throttle_pass throttle_config 1125 0 1125
    [1000; 1001; 1002; 1003; 1004; 1005; 1006; 1007]
  = ([1000; 1001; 1002; 1003; 1004; 1005; 1006; 1007], Sleep 0).
Proof. split; reflexivity. Qed.

End RateLimiterFacts.

(** ** Structured-document merge *)

Section RichTextFacts.
Import Dmp RichText.

Lemma block_loop_length (dmp : engine) (src tgt : list node) (steps : nat) :
  forall (i : nat) (merged : list node),
  (i + steps <= Nat.max (length src) (length tgt))%nat ->
  length (block_loop dmp steps i src tgt merged)
  = (length merged + steps
     + length (List.filter (pushes_two src tgt) (seq i steps)))%nat.
Proof.
  induction steps as [|steps IH]; intros i merged Hle; [simpl; lia|].
  cbn [block_loop seq List.filter]. unfold clone.
  pose proof (eq_refl (pushes_two src tgt i)) as Hp.
  unfold pushes_two at 2 in Hp.
  destruct (tgt !! i) as [t|] eqn:Ht; destruct (src !! i) as [s|] eqn:Hs.
  - destruct (negb (String.eqb (nodeType s) (nodeType t)));
      [rewrite Hp, IH by lia; rewrite length_app; simpl; lia|].
    destruct (isInlineBlockType (nodeType t));
      [rewrite Hp, IH by lia; rewrite length_app; simpl; lia|].
    destruct (isListType (nodeType t));
      [rewrite Hp, IH by lia; rewrite length_app; simpl; lia|].
    destruct (jsonEq s t); rewrite Hp, IH by lia; rewrite length_app;
      simpl; lia.
  - rewrite Hp, IH by lia. rewrite length_app. simpl. lia.
  - rewrite Hp, IH by lia. rewrite length_app. simpl. lia.
  - apply lookup_ge_None in Ht, Hs. lia.
Qed.

Lemma filter_nil_iff {A : Type} (f : A -> bool) (l : list A) :
  length (List.filter f l) = 0%nat <-> forall x, In x l -> f x = false.
Proof.
  induction l as [|a l IH]; simpl; [tauto|].
  destruct (f a) eqn:Ha; simpl.
  - split; [lia|]. intros H. specialize (H a (or_introl eq_refl)). congruence.
  - rewrite IH. split.
    + intros H x [->|Hx]; auto.
    + intros H x Hx. apply H. now right.
Qed.

(** C4, as the code has it.  The merged document has one block per index
    up to the longer side, and one more for every index at which both
    sides have a block and either the kinds differ, or the kind is the
    same, is neither inline-bearing nor a list, and the two blocks are not
    structurally identical.  So the count is at least the maximum, and it
    is the maximum exactly when there is no such index. *)
Theorem merged_block_count (dmp : engine) (sourceDoc targetDoc : node) :
  isRichTextDocument sourceDoc = true ->
  isRichTextDocument targetDoc = true ->
  let src := content_or_empty sourceDoc in
  let tgt := content_or_empty targetDoc in
  let n := Nat.max (block_count sourceDoc) (block_count targetDoc) in
  let merged := mergeRichTextDocuments dmp sourceDoc targetDoc in
  block_count merged = (n + extra_blocks src tgt n)%nat /\
  (n <= block_count merged)%nat /\
  (block_count merged = n <->
   forall i, (i < n)%nat -> pushes_two src tgt i = false).
Proof.
  intros Hs Ht src tgt n merged.
  assert (Hcount : block_count merged = (n + extra_blocks src tgt n)%nat).
  { subst merged. unfold mergeRichTextDocuments. rewrite Hs, Ht. simpl.
    unfold block_count at 1, coalesceAdjacentTextNodesInBlocks, clone.
    destruct targetDoc as [ty d c v m]. simpl.
    unfold content_or_empty. cbn [content].
    rewrite block_loop_length by (simpl; lia).
    unfold extra_blocks, n, block_count, src, tgt, content_or_empty.
    cbn [content length]. reflexivity. }
  clearbody merged n.
  split; [exact Hcount|]. split; [rewrite Hcount; lia|].
  rewrite Hcount. unfold extra_blocks. split.
  - intros H i Hi.
    assert (H0 : length (List.filter (pushes_two src tgt) (seq 0 n)) = 0%nat)
      by lia.
    apply (proj1 (filter_nil_iff _ _) H0). apply in_seq. lia.
  - intros H.
    assert (length (List.filter (pushes_two src tgt) (seq 0 n)) = 0%nat); [|lia].
    apply filter_nil_iff. intros i Hi. apply in_seq in Hi. apply H. lia.
Qed.

(** *** Flattening tiles the text *)

Lemma len_app (a b : string) : len (a ++ b)%string = len a + len b.
Proof.
  unfold len. induction a as [|c a IH]; [reflexivity|].
  change (Z.of_nat (S (String.length (a ++ b)%string))
          = Z.of_nat (S (String.length a)) + Z.of_nat (String.length b)).
  lia.
Qed.

Lemma len_nonneg (a : string) : 0 <= len a.
Proof. unfold len. lia. Qed.

Lemma len_pos (a : string) : String.eqb a "" = false -> 0 < len a.
Proof. destruct a; [discriminate | unfold len; simpl; lia]. Qed.

Lemma tiled_snoc from spans mid s :
  tiled from spans mid ->
  start s = mid -> end_ s = mid + len (text s) -> 0 < len (text s) ->
  tiled from (spans ++ [s])%list (end_ s).
Proof.
  revert from. induction spans as [|x rest IH]; intros from Ht Hs He Hpos; simpl in *.
  - subst. repeat split; auto.
  - destruct Ht as (H1 & H2 & H3 & H4). repeat split; auto.
Qed.

Lemma pushSpan_tiled t ms hl st :
  tiled_state st -> tiled_state (pushSpan t ms hl st).
Proof.
  unfold tiled_state, pushSpan. destruct st as [txt spans]. intros H.
  destruct (String.eqb t "") eqn:E; [exact H|]. simpl in *.
  rewrite len_app.
  apply (tiled_snoc 0 spans (len txt)
           {| start := len txt; end_ := len txt + len t;
              span_marks := cloneMarks ms;
              hyperlink := match hl with
                           | Some d => Some (cloneHyperlink d)
                           | None => None
                           end;
              text := t |}); simpl; auto using len_pos.
Qed.

(** Whatever [pushSpan] preserves, the walk preserves. *)
Lemma walk_node_preserves (P : string * list span -> Prop) :
  (forall t ms hl st, P st -> P (pushSpan t ms hl st)) ->
  forall n am ah st, P st -> P (walk_node n am ah st).
Proof.
  intros Hpush. fix IH 1. intros [t d c v ms] am ah st Hst.
  cbn [walk_node].
  destruct (String.eqb t "text"); [now apply Hpush|].
  assert (Hwalk : forall l am ah st, P st ->
            match c with Some l' => l = l' | None => False end ->
            P ((fix walk (nodes : list node) (am : list mark)
                  (ah : option (option json)) (st : string * list span)
                 : string * list span :=
                  match nodes with
                  | [] => st
                  | m :: rest => walk rest am ah (walk_node m am ah st)
                  end) l am ah st)).
  { destruct c as [l'|]; [|intros; contradiction].
    intros l am' ah' st' Hst' ->. revert st' Hst'.
    induction l' as [|m rest IHl]; intros st' Hst'; [exact Hst'|].
    apply IHl. now apply IH. }
  destruct (String.eqb t "hyperlink"); destruct c as [l|]; auto.
Qed.

Lemma walk_preserves (P : string * list span -> Prop) :
  (forall t ms hl st, P st -> P (pushSpan t ms hl st)) ->
  forall nodes am ah st, P st -> P (walk nodes am ah st).
Proof.
  intros Hpush nodes. induction nodes as [|n rest IH]; intros am ah st Hst;
    [exact Hst|].
  simpl. apply IH. now apply walk_node_preserves.
Qed.

Lemma flattenInlineBlock_tiled (block : node) :
  tiled 0 (snd (flattenInlineBlock block)) (len (fst (flattenInlineBlock block))).
Proof.
  unfold flattenInlineBlock.
  apply (walk_preserves tiled_state); [intros; now apply pushSpan_tiled|].
  reflexivity.
Qed.

(** *** The span an insertion inherits from *)

Lemma tiled_le from spans to : tiled from spans to -> from <= to.
Proof.
  revert from. induction spans as [|s rest IH]; simpl; intros from H; [lia|].
  destruct H as (H1 & H2 & H3 & H4). apply IH in H4. lia.
Qed.

Lemma tiled_find from spans to c :
  tiled from spans to -> from <= c < to ->
  exists s, List.find (covers c) spans = Some s /\ In s spans /\
            start s <= c < end_ s.
Proof.
  revert from. induction spans as [|s rest IH]; simpl; intros from H Hc; [lia|].
  destruct H as (H1 & H2 & H3 & H4).
  destruct (covers c s) eqn:Hcov.
  - exists s. unfold covers in Hcov. apply andb_true_iff in Hcov as [Ha Hb].
    apply Z.geb_le in Ha. apply Z.ltb_lt in Hb. auto.
  - assert (end_ s <= c).
    { unfold covers in Hcov. apply andb_false_iff in Hcov as [Ha|Hb].
      - rewrite Z.geb_leb in Ha. apply Z.leb_gt in Ha. lia.
      - apply Z.ltb_ge in Hb. lia. }
    destruct (IH (end_ s) H4) as (x & Hx & Hin & Hr); [lia|].
    exists x. auto.
Qed.

Lemma tiled_find_end from spans to :
  tiled from spans to -> List.find (covers to) spans = None.
Proof.
  revert from. induction spans as [|s rest IH]; simpl; intros from H;
    [reflexivity|].
  destruct H as (H1 & H2 & H3 & H4).
  pose proof (tiled_le _ _ _ H4) as Hle.
  replace (covers to s) with false; [now apply (IH (end_ s))|].
  symmetry. unfold covers. apply andb_false_iff. right. apply Z.ltb_ge. lia.
Qed.

Lemma tiled_last from spans to l :
  tiled from spans to -> last spans = Some l -> end_ l = to.
Proof.
  revert from. induction spans as [|s rest IH]; intros from H Hl; [discriminate|].
  destruct H as (H1 & H2 & H3 & H4). destruct rest as [|s' rest'].
  - simpl in *. inversion Hl. subst. lia.
  - rewrite last_cons_cons in Hl. now apply (IH (end_ s)).
Qed.

Lemma inherit_at_tiled spans total c :
  tiled 0 spans total -> 0 <= c <= total ->
  (c < total ->
   exists s, inherit_at spans c = Some s /\ In s spans /\
             start s <= c < end_ s) /\
  (c = total -> inherit_at spans c = last spans).
Proof.
  intros Ht Hc. split.
  - intros Hlt. destruct (tiled_find 0 spans total c Ht) as (s & Hf & Hin & Hr);
      [lia|].
    exists s. unfold inherit_at, spanAtPosition.
    replace (c <? 0) with false by (symmetry; apply Z.ltb_ge; lia).
    rewrite Hf. auto.
  - intros ->. unfold inherit_at, spanAtPosition.
    replace (total <? 0) with false by (symmetry; apply Z.ltb_ge; lia).
    rewrite (tiled_find_end 0 spans total Ht).
    destruct (last spans) as [l|] eqn:Hl.
    + rewrite (tiled_last 0 spans total l Ht Hl), Z.eqb_refl. reflexivity.
    + apply last_None in Hl. subst spans. simpl in Ht. subst total. reflexivity.
Qed.

(** *** The rebuild loop *)

Lemma rebuild_loop_acc diffs T :
  forall out cur,
  rebuild_loop diffs T out cur = (out ++ rebuild_loop diffs T [] cur)%list.
Proof.
  induction diffs as [|[op txt] rest IH]; intros out cur; simpl.
  - now rewrite app_nil_r.
  - destruct ((op =? 0) || (op =? -1)).
    + rewrite IH. rewrite (IH (sliceSpans _ _ _)). now rewrite app_assoc.
    + destruct (op =? 1); [|apply IH].
      rewrite IH. rewrite (IH [_]). now rewrite app_assoc.
Qed.

Lemma rebuild_loop_app pre post T :
  forall out cur,
  rebuild_loop (pre ++ post) T out cur
  = rebuild_loop post T (rebuild_loop pre T out cur) (cur + advance pre).
Proof.
  induction pre as [|[op txt] rest IH]; intros out cur; simpl.
  - now rewrite Z.add_0_r.
  - destruct ((op =? 0) || (op =? -1)).
    + rewrite IH. now rewrite Z.add_assoc.
    + destruct (op =? 1); apply IH.
Qed.

Lemma advance_text1 diffs :
  forallb op_ok diffs = true -> advance diffs = len (diff_text1 diffs).
Proof.
  induction diffs as [|[op txt] rest IH]; [reflexivity|].
  simpl. intros Hok. apply andb_true_iff in Hok as [Hop Hrest].
  unfold op_ok, DIFF_DELETE, DIFF_EQUAL, DIFF_INSERT in *. simpl in Hop.
  destruct (op =? 1) eqn:E1.
  - apply Z.eqb_eq in E1. subst op. simpl. now apply IH.
  - rewrite orb_false_r in Hop. rewrite orb_comm in Hop. rewrite Hop.
    rewrite len_app, IH by exact Hrest. reflexivity.
Qed.

(** *** Coalescing keeps the formatting of every character *)

Lemma sameMarks_refl a : sameMarks a a = true.
Proof. unfold sameMarks. now rewrite Nat.eqb_refl, String.eqb_refl. Qed.

Lemma sameMarks_trans a b c :
  sameMarks a b = true -> sameMarks b c = true -> sameMarks a c = true.
Proof.
  unfold sameMarks.
  destruct (Nat.eqb (length a) (length b)) eqn:E1; [|discriminate].
  destruct (Nat.eqb (length b) (length c)) eqn:E2; [|discriminate].
  simpl. intros H1 H2.
  apply Nat.eqb_eq in E1, E2. apply String.eqb_eq in H1, H2.
  replace (Nat.eqb (length a) (length c)) with true
    by (symmetry; apply Nat.eqb_eq; congruence).
  simpl. apply String.eqb_eq. congruence.
Qed.

Lemma sameHyperlink_refl a : sameHyperlink a a = true.
Proof. destruct a; simpl; [apply json_eqb_refl | reflexivity]. Qed.

Lemma sameHyperlink_trans a b c :
  sameHyperlink a b = true -> sameHyperlink b c = true ->
  sameHyperlink a c = true.
Proof.
  destruct a, b, c; simpl; try discriminate; auto.
  rewrite !json_eqb_eq. congruence.
Qed.

Lemma same_format_refl f : same_format f f = true.
Proof. unfold same_format. now rewrite sameMarks_refl, sameHyperlink_refl. Qed.

Lemma same_format_trans f g h :
  same_format f g = true -> same_format g h = true -> same_format f h = true.
Proof.
  unfold same_format. rewrite !andb_true_iff. intros [A B] [C D]. split.
  - now apply (sameMarks_trans _ (fst g)).
  - now apply (sameHyperlink_trans _ (snd g)).
Qed.

Lemma same_char_format_refl l : Forall2 same_char_format l l.
Proof.
  induction l as [|x l IH]; constructor; [|exact IH].
  split; [reflexivity | apply same_format_refl].
Qed.

Lemma same_char_format_trans l1 l2 l3 :
  Forall2 same_char_format l1 l2 -> Forall2 same_char_format l2 l3 ->
  Forall2 same_char_format l1 l3.
Proof.
  intros H. revert l3. induction H as [|x y l1 l2 [Hc Hf] Hrest IH];
    intros l3 H3; inversion H3 as [|y' z l2' l3' [Hc' Hf'] Hrest']; subst;
    constructor.
  - split; [congruence | now apply (same_format_trans _ (snd y))].
  - now apply IH.
Qed.

Lemma char_formats_app l1 l2 :
  char_formats (l1 ++ l2) = (char_formats l1 ++ char_formats l2)%list.
Proof. unfold char_formats. apply flat_map_app. Qed.

Lemma char_formats_append_text p s :
  same_format (format_of p) (format_of s) = true ->
  Forall2 same_char_format
    (char_formats [append_text p (text s)]) (char_formats [p; s]).
Proof.
  intros Hsame. unfold char_formats. simpl. rewrite !app_nil_r.
  rewrite chars_app, map_app. apply Forall2_app.
  - apply same_char_format_refl.
  - induction (chars (text s)) as [|c l IH]; constructor; [|exact IH].
    split; [reflexivity | exact Hsame].
Qed.

Lemma coalesce_loop_formats spans :
  forall done prev,
  Forall2 same_char_format
    (char_formats (coalesce_loop spans done prev))
    (char_formats (done ++ match prev with Some p => [p] | None => [] end
                        ++ spans)).
Proof.
  induction spans as [|s rest IH]; intros done prev.
  - simpl. rewrite app_nil_r. destruct prev; [|rewrite app_nil_r];
      apply same_char_format_refl.
  - destruct prev as [p|]; cbn [coalesce_loop].
    + destruct (sameMarks (span_marks p) (span_marks s)
                && sameHyperlink (hyperlink p) (hyperlink s)) eqn:Hsame.
      * eapply same_char_format_trans; [apply IH|].
        change ([p] ++ s :: rest)%list with ([p; s] ++ rest)%list.
        rewrite !char_formats_app. apply Forall2_app;
          [apply same_char_format_refl|].
        apply Forall2_app; [|apply same_char_format_refl].
        now apply char_formats_append_text.
      * eapply same_char_format_trans; [apply IH|].
        rewrite <- app_assoc. apply same_char_format_refl.
    + eapply same_char_format_trans; [apply IH|]. apply same_char_format_refl.
Qed.

Lemma coalesceSpans_formats spans :
  Forall2 same_char_format
    (char_formats (coalesceSpans spans)) (char_formats spans).
Proof. apply (coalesce_loop_formats spans [] None). Qed.

(** *** Formatting inheritance *)

Lemma cloneMarks_id ms : cloneMarks ms = ms.
Proof.
  unfold cloneMarks. induction ms as [|[ty] ms IH]; [reflexivity|].
  simpl. now rewrite IH.
Qed.

Lemma or_empty_idem d : or_empty (Some (or_empty d)) = or_empty d.
Proof.
  unfold or_empty. destruct d as [v|]; [|reflexivity].
  destruct (truthy v) eqn:E; [now rewrite E | reflexivity].
Qed.

Lemma inserted_span_format inherit txt :
  match inherit with
  | Some s =>
      span_marks (inserted_span inherit txt) = span_marks s /\
      sameHyperlink (hyperlink (inserted_span inherit txt)) (hyperlink s) = true
  | None =>
      span_marks (inserted_span inherit txt) = [] /\
      hyperlink (inserted_span inherit txt) = None
  end.
Proof.
  destruct inherit as [s|]; [|split; reflexivity].
  split; [apply cloneMarks_id|].
  unfold inserted_span. cbn [hyperlink].
  destruct (hyperlink s) as [d|]; [|reflexivity].
  unfold sameHyperlink, cloneHyperlink, clone.
  rewrite or_empty_idem. apply json_eqb_refl.
Qed.

Example merge_into_bold_span :
  mergeInlineBlock Dmp.simple
    Samples.italic_hello_brave_world Samples.bold_hello_world
  = Samples.paragraph [Samples.text_node "Hello brave world" [Samples.bold]].
Proof. reflexivity. Qed.

Lemma merged_block_count_witness :
  block_count
    (mergeRichTextDocuments Dmp.simple Samples.three_blocks Samples.two_blocks)
  = (Nat.max (block_count Samples.three_blocks)
       (block_count Samples.two_blocks)
     + extra_blocks (content_or_empty Samples.three_blocks)
         (content_or_empty Samples.two_blocks)
         (Nat.max (block_count Samples.three_blocks)
            (block_count Samples.two_blocks)))%nat /\
  (Nat.max (block_count Samples.three_blocks) (block_count Samples.two_blocks)
   <= block_count
        (mergeRichTextDocuments Dmp.simple Samples.three_blocks
           Samples.two_blocks))%nat /\
  (block_count
     (mergeRichTextDocuments Dmp.simple Samples.three_blocks Samples.two_blocks)
   = Nat.max (block_count Samples.three_blocks)
       (block_count Samples.two_blocks) <->
   forall i,
     (i < Nat.max (block_count Samples.three_blocks)
            (block_count Samples.two_blocks))%nat ->
     pushes_two (content_or_empty Samples.three_blocks)
       (content_or_empty Samples.two_blocks) i = false).
Proof.
  apply (merged_block_count Dmp.simple Samples.three_blocks Samples.two_blocks).
  - reflexivity.
  - reflexivity.
Defined.

Example merged_three_and_two :
  block_count
    (mergeRichTextDocuments Dmp.simple Samples.three_blocks Samples.two_blocks)
  = 4%nat.
Proof. reflexivity. Qed.

(** C4, as it is stated, fails: two documents of one embedded asset each,
    with different assets, have kinds that align at every shared index,
    and the merged document has two blocks. *)
Lemma aligned_kinds_can_add_a_block :
  ~ (forall (dmp : engine) (sourceDoc targetDoc : node),
       isRichTextDocument sourceDoc = true ->
       isRichTextDocument targetDoc = true ->
       kinds_align (content_or_empty sourceDoc) (content_or_empty targetDoc) ->
       block_count (mergeRichTextDocuments dmp sourceDoc targetDoc)
       = Nat.max (block_count sourceDoc) (block_count targetDoc)).
Proof.
  intros H.
  specialize (H Dmp.simple
                (Samples.document [Samples.embedded_asset "a1"])
                (Samples.document [Samples.embedded_asset "a2"])
                eq_refl eq_refl).
  assert (Hk : kinds_align
                 (content_or_empty (Samples.document [Samples.embedded_asset "a1"]))
                 (content_or_empty (Samples.document [Samples.embedded_asset "a2"]))).
  { intros [|i] s t Hs Ht; simpl in Hs, Ht; [|discriminate].
    now inversion Hs; inversion Ht. }
  specialize (H Hk). vm_compute in H. discriminate H.
Qed.

Example merged_embedded_assets :
  mergeRichTextDocuments Dmp.simple
    (Samples.document [Samples.embedded_asset "a1"])
    (Samples.document [Samples.embedded_asset "a2"])
  = Samples.document [Samples.embedded_asset "a2"; Samples.embedded_asset "a1"].
Proof. reflexivity. Qed.

End RichTextFacts.

(** ** Adoption traversal *)

Section AdoptTreeFacts.
Import Dmp RichText AdoptTree.

(** *** Fields and locales that are not adopted *)

Lemma write_target_only_target cfg fields fieldId localizedValues v acc :
  lookup_prop fieldId fields = Some localizedValues ->
  (forall fid, only_target_set cfg fields (newFields acc) fid) ->
  forall fid,
    only_target_set cfg fields
      (newFields (write_target cfg fieldId localizedValues v acc)) fid.
Proof.
  intros Hlv Hacc fid. unfold write_target. cbn [newFields].
  destruct (String.eqb_spec fieldId fid) as [->|Hne].
  - right. exists localizedValues, v. split; [exact Hlv|].
    apply lookup_set_prop_eq.
  - unfold only_target_set. rewrite lookup_set_prop_ne by exact Hne.
    apply Hacc.
Qed.

Lemma write_clone_only_target cfg fields fieldId localizedValues v acc :
  lookup_prop fieldId fields = Some localizedValues ->
  (forall fid, only_target_set cfg fields (newFields acc) fid) ->
  forall fid,
    only_target_set cfg fields
      (newFields (write_clone cfg fieldId localizedValues v acc)) fid.
Proof.
  intros Hlv Hacc. destruct v as [x|]; [|exact Hacc].
  now apply write_target_only_target.
Qed.

Lemma add_ref_newFields acc r : newFields (add_ref acc r) = newFields acc.
Proof. now destruct r. Qed.

Lemma add_refs_newFields ids acc :
  newFields (fold_left (fun a id => add_ref a (Some id)) ids acc)
  = newFields acc.
Proof.
  revert acc. induction ids as [|i ids IH]; intros acc; [reflexivity|].
  simpl. now rewrite IH.
Qed.

Lemma adopt_scalar_only_target dmp cfg fields fieldId localizedValues acc :
  lookup_prop fieldId fields = Some localizedValues ->
  (forall fid, only_target_set cfg fields (newFields acc) fid) ->
  forall fid,
    only_target_set cfg fields
      (newFields (adopt_scalar dmp cfg fieldId localizedValues acc)) fid.
Proof.
  intros Hlv Hacc. unfold adopt_scalar.
  repeat match goal with
         | |- forall fid, only_target_set _ _ (newFields ?a) fid =>
             first [ exact Hacc
                   | apply write_target_only_target; [exact Hlv|]
                   | apply write_clone_only_target; [exact Hlv|] ]
         | |- context [if ?b then _ else _] => destruct b
         | |- context [match ?x with _ => _ end] => destruct x
         end.
Qed.

Lemma process_field_only_target dmp cfg entryId fields acc def :
  (forall fid, only_target_set cfg fields (newFields acc) fid) ->
  forall fid,
    only_target_set cfg fields
      (newFields (process_field dmp cfg entryId fields acc def)) fid.
Proof.
  intros Hacc. unfold process_field.
  destruct (lookup_prop (fd_id def) fields) as [localizedValues|] eqn:Hlv;
    [|exact Hacc].
  repeat match goal with
         | |- forall fid, only_target_set _ _ (newFields (add_ref _ _)) fid =>
             intros fid; rewrite add_ref_newFields; revert fid
         | |- forall fid, only_target_set _ _
                            (newFields (fold_left _ _ _)) fid =>
             intros fid; rewrite add_refs_newFields; revert fid
         | |- forall fid, only_target_set _ _ (newFields ?a) fid =>
             first [ exact Hacc
                   | apply adopt_scalar_only_target; [exact Hlv|]
                   | apply write_target_only_target; [exact Hlv|]
                   | apply write_clone_only_target; [exact Hlv|] ]
         | |- context [if ?b then _ else _] => destruct b
         | |- context [match ?x with _ => _ end] => destruct x
         end.
Qed.

Lemma process_fields_only_target dmp cfg e ct :
  forall fid,
    only_target_set cfg (e_fields e)
      (newFields (process_fields dmp cfg e ct)) fid.
Proof.
  unfold process_fields.
  assert (H : forall fid,
             only_target_set cfg (e_fields e)
               (newFields {| newFields := e_fields e; changed := 0;
                             refIds := [] |}) fid)
    by (intros fid; now left).
  revert H. generalize {| newFields := e_fields e; changed := 0; refIds := [] |}.
  induction (ct_fields ct) as [|def defs IH]; intros acc Hacc; [exact Hacc|].
  simpl. apply IH. now apply process_field_only_target.
Qed.

(** C10.  The entry handed to [cma.entry.update] is the fetched entry with
    [newFields] for its fields.  Every field of [newFields] is either the
    fetched value map itself, or the fetched value map with the
    target-locale key set; so the value under every other locale is the
    fetched one, and no field is added or removed. *)
Theorem adoption_changes_target_locale_only (dmp : engine) (cfg : config)
    (e : entry) (ct : contentType) (fieldId : string) :
  let sent := with_fields e (newFields (process_fields dmp cfg e ct)) in
  e_id sent = e_id e /\ e_version sent = e_version e /\
  e_contentType sent = e_contentType e /\
  only_target_set cfg (e_fields e) (e_fields sent) fieldId /\
  (forall locale,
     locale <> targetLocale cfg ->
     match lookup_prop fieldId (e_fields e),
           lookup_prop fieldId (e_fields sent) with
     | Some fetched, Some written =>
         lookup_prop locale written = lookup_prop locale fetched
     | None, None => True
     | _, _ => False
     end).
Proof.
  cbn zeta. cbn [with_fields e_id e_version e_contentType e_fields].
  pose proof (process_fields_only_target dmp cfg e ct fieldId) as H.
  repeat split; [exact H|].
  intros locale Hne. destruct H as [H|(lv & v & Hf & Hn)].
  - rewrite H. now destruct (lookup_prop fieldId (e_fields e)).
  - rewrite Hf, Hn. apply lookup_set_prop_ne. congruence.
Qed.

(** *** Mixed kinds *)

(** The branch the source has for a mismatch: a rich-text source value
    against a target value that is present and is not rich text leaves the
    field alone. *)
Lemma rich_source_plain_target_skipped dmp cfg fieldId localizedValues acc :
  isRichText (lookup_prop (sourceLocale cfg) localizedValues) = true ->
  nullish (lookup_prop (targetLocale cfg) localizedValues) = false ->
  isRichText (lookup_prop (targetLocale cfg) localizedValues) = false ->
  adopt_scalar dmp cfg fieldId localizedValues acc = acc.
Proof.
  intros Hs Hn Ht. unfold adopt_scalar. rewrite Hn, Hs, Ht. simpl.
  destruct (lookup_prop (sourceLocale cfg) localizedValues) as [[j|d]|];
    try discriminate Hs.
  reflexivity.
Qed.

(** C3 at an input where the target value is the rich-text document and
    the source value is a string: the field is not skipped, the document
    under the target locale is replaced by the string and counted as a
    change. *)
Theorem plain_source_overwrites_rich_target :
  process_field Dmp.simple adopt_all_config "entry1"
    [("body", [("en-US", FJ (JStr "plain text"));
               ("de-DE", FDoc Samples.german_body)])]
    {| newFields := [("body", [("en-US", FJ (JStr "plain text"));
                               ("de-DE", FDoc Samples.german_body)])];
       changed := 0; refIds := [] |}
    body_field
  = {| newFields := [("body", [("en-US", FJ (JStr "plain text"));
                               ("de-DE", FJ (JStr "plain text"))])];
       changed := 1; refIds := [] |}.
Proof. reflexivity. Qed.

(** The same with a source value of [null]: the document is replaced by
    [null]. *)
Example null_source_overwrites_rich_target :
  process_field Dmp.simple adopt_all_config "entry1"
    [("body", [("en-US", FJ JNull); ("de-DE", FDoc Samples.german_body)])]
    {| newFields := [("body", [("en-US", FJ JNull);
                               ("de-DE", FDoc Samples.german_body)])];
       changed := 0; refIds := [] |}
    body_field
  = {| newFields := [("body", [("en-US", FJ JNull); ("de-DE", FJ JNull)])];
       changed := 1; refIds := [] |}.
Proof. reflexivity. Qed.

(** The other direction is skipped. *)
Example rich_source_plain_target_unchanged :
  process_field Dmp.simple adopt_all_config "entry1"
    [("body", [("en-US", FDoc Samples.english_body);
               ("de-DE", FJ (JStr "Hallo"))])]
    {| newFields := [("body", [("en-US", FDoc Samples.english_body);
                               ("de-DE", FJ (JStr "Hallo"))])];
       changed := 0; refIds := [] |}
    body_field
  = {| newFields := [("body", [("en-US", FDoc Samples.english_body);
                               ("de-DE", FJ (JStr "Hallo"))])];
       changed := 0; refIds := [] |}.
Proof. reflexivity. Qed.

(** *** Termination and the visited set *)

Lemma extends_refl w st : extends w st st [].
Proof.
  unfold extends. repeat split; try set_solver.
  - now rewrite app_nil_r.
  - constructor.
  - exists []. rewrite app_nil_r. repeat split; constructor.
Qed.

Lemma extends_trans w st1 st2 st3 n1 n2 :
  extends w st1 st2 n1 -> extends w st2 st3 n2 ->
  extends w st1 st3 (n1 ++ n2).
Proof.
  intros (Hv1 & Hd1 & Hf1 & Hn1 & Hx1 & w1 & Hw1 & Hs1 & Ha1)
         (Hv2 & Hd2 & Hf2 & Hn2 & Hx2 & w2 & Hw2 & Hs2 & Ha2).
  unfold extends. split; [set_solver|]. split; [congruence|].
  split; [rewrite Hf2, Hf1; now rewrite app_assoc|].
  split; [|split].
  - apply NoDup_app. split; [exact Hn1|]. split; [|exact Hn2].
    intros x Hx Hx'. apply Hx1 in Hx. apply Hx2 in Hx'. tauto.
  - intros x Hx. apply elem_of_app in Hx as [Hx|Hx].
    + apply Hx1 in Hx. set_solver.
    + apply Hx2 in Hx. set_solver.
  - exists (w1 ++ w2)%list. split; [rewrite Hw2, Hw1; now rewrite app_assoc|].
    split; [rewrite map_app; now apply sublist_app|].
    now apply Forall_app.
Qed.

Lemma extends_unvisited w st st' new :
  extends w st st' new -> (unvisited st' <= unvisited st)%nat.
Proof.
  intros (Hv & Hd & _). unfold unvisited. rewrite Hd.
  apply subseteq_size. set_solver.
Qed.

Lemma visit_extends w st entryId :
  entryId ∉ visited st -> extends w st (visit st entryId) [entryId].
Proof.
  intros Hnot. unfold extends, visit. cbn.
  repeat split; try set_solver.
  - apply NoDup_singleton.
  - exists []. rewrite app_nil_r. repeat split; constructor. constructor.
Qed.

Lemma visit_unvisited st entryId e :
  entryId ∉ visited st -> entries st !! entryId = Some e ->
  (unvisited (visit st entryId) < unvisited st)%nat.
Proof.
  intros Hnot He. unfold unvisited, visit. cbn.
  assert (Hin : entryId ∈ dom (entries st)) by (apply elem_of_dom; eauto).
  apply subset_size. set_solver.
Qed.

Lemma get_contentType_same w st ctId ct st' :
  get_contentType w st ctId = Some (ct, st') ->
  visited st' = visited st /\ entries st' = entries st /\
  fetched st' = fetched st /\ written st' = written st.
Proof.
  unfold get_contentType. destruct (ctCache st !! ctId) as [c|].
  - intros H. inversion H. subst. auto.
  - destruct (contentTypes w !! ctId) as [c|]; [|discriminate].
    intros H. inversion H. subst. auto.
Qed.

Lemma entry_update_same st entryId e sent r st' :
  entry_update st entryId e sent = (r, st') ->
  visited st' = visited st /\ dom (entries st') = dom (entries st) /\
  fetched st' = fetched st /\
  (written st' = written st \/
   written st' = (written st ++ [(entryId, e, sent)])%list).
Proof.
  unfold entry_update. destruct (entries st !! entryId) as [stored|] eqn:Hs.
  - destruct (e_version stored =? e_version sent); intros H; inversion H;
      subst; cbn; repeat split; auto.
    rewrite dom_insert_L.
    assert (entryId ∈ dom (entries st)) by (apply elem_of_dom; eauto).
    set_solver.
  - intros H. inversion H. subst. auto.
Qed.

Lemma own_step_extends w st st3 entryId e ct :
  entryId ∉ visited st ->
  visited st3 = {[entryId]} ∪ visited st ->
  dom (entries st3) = dom (entries st) ->
  fetched st3 = (fetched st ++ [entryId])%list ->
  (written st3 = written st \/
   written st3
   = (written st
        ++ [(entryId, e,
             with_fields e
               (newFields (process_fields (dmp w) (cfg w) e ct)))])%list) ->
  extends w st st3 [entryId].
Proof.
  intros Hnot Hv Hd Hf Hw. unfold extends.
  split; [set_solver|]. split; [exact Hd|]. split; [exact Hf|].
  split; [apply NoDup_singleton|]. split; [set_solver|].
  destruct Hw as [Hw|Hw].
  - exists []. rewrite app_nil_r. repeat split; auto.
    + apply sublist_nil_l.
  - eexists. split; [exact Hw|]. split; [reflexivity|].
    constructor; [|constructor]. now exists ct.
Qed.

Lemma unvisited_same st st' :
  visited st' = visited st -> dom (entries st') = dom (entries st) ->
  unvisited st' = unvisited st.
Proof. intros Hv Hd. unfold unvisited. now rewrite Hv, Hd. Qed.

Lemma adopt_children_total w fuel :
  (forall st id, (unvisited st < fuel)%nat ->
     exists r st' new,
       adoptEntryTree fuel w st id = Some (r, st') /\ extends w st st' new) ->
  forall ids st sum, (unvisited st < fuel)%nat ->
    exists r st' new,
      adopt_children (adoptEntryTree fuel w) ids st sum = Some (r, st') /\
      extends w st st' new.
Proof.
  intros IH ids. induction ids as [|c rest IHids]; intros st sum Hlt.
  - exists (Done sum), st, []. split; [reflexivity | apply extends_refl].
  - destruct (IH st c Hlt) as (r & st1 & n1 & Hrun & Hext).
    cbn [adopt_children]. rewrite Hrun. destruct r as [s|err].
    + pose proof (extends_unvisited _ _ _ _ Hext) as Hle.
      destruct (IHids st1 (add_summary sum s)) as (r2 & st2 & n2 & Hrun2 & Hext2);
        [lia|].
      exists r2, st2, (n1 ++ n2)%list. split; [exact Hrun2|].
      now apply (extends_trans w st st1 st2).
    + exists (Failed err), st1, n1. auto.
Qed.

Lemma adoptEntryTree_total w fuel :
  forall st entryId, (unvisited st < fuel)%nat ->
    exists r st' new,
      adoptEntryTree fuel w st entryId = Some (r, st') /\
      extends w st st' new.
Proof.
  induction fuel as [|fuel IH]; intros st entryId Hlt; [lia|].
  cbn [adoptEntryTree].
  destruct (String.eqb entryId "" || bool_decide (entryId ∈ visited st))
    eqn:Hskip.
  { exists (Done zero_summary), st, []. split; [reflexivity | apply extends_refl]. }
  apply orb_false_iff in Hskip as [_ Hvis].
  apply bool_decide_eq_false in Hvis.
  pose proof (visit_extends w st entryId Hvis) as Hext1.
  destruct (entries (visit st entryId) !! entryId) as [e|] eqn:He.
  2: { exists (Failed (EntryNotFound entryId)), (visit st entryId), [entryId].
       auto. }
  assert (Hlt1 : (unvisited (visit st entryId) < fuel)%nat).
  { pose proof (visit_unvisited st entryId e Hvis He). lia. }
  destruct (get_contentType w (visit st entryId) (e_contentType e))
    as [[ct st2]|] eqn:Hct.
  2: { exists (Failed (ContentTypeNotFound (e_contentType e))),
         (visit st entryId), [entryId]. auto. }
  destruct (get_contentType_same _ _ _ _ _ Hct) as (Hv2 & He2 & Hf2 & Hw2).
  set (acc := process_fields (dmp w) (cfg w) e ct).
  set (upd := if (0 <? changed acc)%nat
              then entry_update st2 entryId e (with_fields e (newFields acc))
              else (Done tt, st2)).
  assert (Hupd : exists r st3, upd = (r, st3) /\
            visited st3 = {[entryId]} ∪ visited st /\
            dom (entries st3) = dom (entries st) /\
            fetched st3 = (fetched st ++ [entryId])%list /\
            (written st3 = written st \/
             written st3
             = (written st
                  ++ [(entryId, e, with_fields e (newFields acc))])%list)).
  { subst upd. destruct (0 <? changed acc)%nat.
    - destruct (entry_update st2 entryId e (with_fields e (newFields acc)))
        as [r st3] eqn:Hu.
      destruct (entry_update_same _ _ _ _ _ _ Hu) as (Hv3 & Hd3 & Hf3 & Hw3).
      exists r, st3. split; [reflexivity|].
      rewrite Hv3, Hv2, Hd3, He2, Hf3, Hf2. repeat split.
      destruct Hw3 as [-> | ->]; rewrite Hw2; auto.
    - exists (Done tt), st2. split; [reflexivity|].
      rewrite Hv2, He2, Hf2, Hw2. auto. }
  destruct Hupd as (r & st3 & Hu & Hv3 & Hd3 & Hf3 & Hw3).
  rewrite Hu.
  pose proof (own_step_extends w st st3 entryId e ct Hvis Hv3 Hd3 Hf3 Hw3)
    as Hext3.
  destruct r as [[]|err].
  2: { exists (Failed err), st3, [entryId]. auto. }
  assert (Hlt3 : (unvisited st3 < fuel)%nat).
  { rewrite (unvisited_same (visit st entryId) st3);
      [exact Hlt1 | exact Hv3 | exact Hd3]. }
  destruct (adopt_children_total w fuel IH (refIds acc) st3
              (if (0 <? changed acc)%nat
               then {| updatedEntries := 1; changedFields := changed acc;
                       traversedEntries := 1 |}
               else {| updatedEntries := 0; changedFields := 0;
                       traversedEntries := 1 |}) Hlt3)
    as (r' & st' & n & Hrun & Hext').
  exists r', st', ([entryId] ++ n)%list. split; [exact Hrun|].
  now apply (extends_trans w st st3 st').
Qed.

Lemma adoptEntryTree_visited fuel w st entryId :
  entryId ∈ visited st ->
  adoptEntryTree (S fuel) w st entryId = Some (Done zero_summary, st).
Proof.
  intros Hin. cbn [adoptEntryTree].
  rewrite (bool_decide_eq_true_2 _ Hin). now rewrite orb_true_r.
Qed.

(** C6.  With more fuel than the store has entries, the traversal from a
    fresh visited set returns (a summary, or the failure of a remote
    call), whatever the links between the entries, cycles included.  No
    entry id is fetched twice and none is written twice, every fetched id
    is in the visited set, and a call for an id that is in the visited set
    returns the zero summary at once, leaving the state as it is. *)
Theorem traversal_terminates_once_per_record (w : world)
    (store : gmap string entry) (rootId : string) (fuel : nat) :
  (size (dom store) < fuel)%nat ->
  (exists r st',
     adoptEntryTree fuel w (initial store) rootId = Some (r, st') /\
     NoDup (fetched st') /\
     NoDup (map (fun p => fst (fst p)) (written st')) /\
     (forall id, id ∈ fetched st' -> id ∈ visited st')) /\
  (forall fuel' st id,
     id ∈ visited st ->
     adoptEntryTree (S fuel') w st id = Some (Done zero_summary, st)).
Proof.
  intros Hfuel. split; [|intros; now apply adoptEntryTree_visited].
  destruct (adoptEntryTree_total w fuel (initial store) rootId)
    as (r & st' & new & Hrun & Hv & Hd & Hf & Hn & Hx & wnew & Hw & Hs & Ha).
  { unfold unvisited, initial. cbn.
    replace (dom store ∖ ∅) with (dom store) by set_solver. exact Hfuel. }
  exists r, st'. split; [exact Hrun|]. cbn in Hf, Hw.
  rewrite Hf, Hw. repeat split.
  - exact Hn.
  - eapply sublist_NoDup; [exact Hn | exact Hs].
  - intros id Hid. now apply Hx.
Qed.

(** Every entry a traversal sends to [cma.entry.update] is a fetched
    entry with the [newFields] of the loop over its fields. *)
Lemma traversal_writes_are_adoptions (w : world) (store : gmap string entry)
    (rootId : string) (fuel : nat) (r : result summary) (st' : state) :
  (size (dom store) < fuel)%nat ->
  adoptEntryTree fuel w (initial store) rootId = Some (r, st') ->
  Forall (fun p => exists ct,
            snd p = with_fields (snd (fst p))
                      (newFields
                         (process_fields (dmp w) (cfg w) (snd (fst p)) ct)))
    (written st').
Proof.
  intros Hfuel Hrun.
  destruct (adoptEntryTree_total w fuel (initial store) rootId)
    as (r0 & st0 & new & Hrun0 & _ & _ & _ & _ & _ & wnew & Hw & _ & Ha).
  { unfold unvisited, initial. cbn.
    replace (dom store ∖ ∅) with (dom store) by set_solver. exact Hfuel. }
  rewrite Hrun in Hrun0. inversion Hrun0. subst. cbn in Hw. now rewrite Hw.
Qed.

End AdoptTreeFacts.

Section CycleFacts.
Import AdoptTree Cycle.

Example cyclic_traversal :
  option_map fst (adoptEntryTree 3 cyclic_world (initial cyclic_store) "A")
  = Some (Done {| updatedEntries := 2; changedFields := 2;
                  traversedEntries := 2 |}).
Proof. vm_compute. reflexivity. Qed.

Lemma traversal_terminates_once_per_record_witness :
  (exists r st',
     adoptEntryTree 3 cyclic_world (initial cyclic_store) "A" = Some (r, st') /\
     NoDup (fetched st') /\
     NoDup (map (fun p => fst (fst p)) (written st')) /\
     (forall id, id ∈ fetched st' -> id ∈ visited st')) /\
  (forall fuel' st id,
     id ∈ visited st ->
     adoptEntryTree (S fuel') cyclic_world st id = Some (Done zero_summary, st)).
Proof.
  apply (traversal_terminates_once_per_record cyclic_world cyclic_store "A" 3).
  vm_compute. lia.
Defined.

Example cyclic_traversal_fetches :
  option_map (fun p => fetched (snd p))
    (adoptEntryTree 3 cyclic_world (initial cyclic_store) "A")
  = Some ["A"; "B"].
Proof. vm_compute. reflexivity. Qed.

Example synced_traversal :
  option_map fst (adoptEntryTree 3 cyclic_world (initial synced_store) "A")
  = Some (Done {| updatedEntries := 0; changedFields := 0;
                  traversedEntries := 2 |}).
Proof. vm_compute. reflexivity. Qed.

End CycleFacts.

(** * Further properties of the code *)

(** ** Plain-text merge: empty inputs and length *)

Section MergeTextEdges.
Import Dmp MergeText.

Lemma all_text_is_text2_when_text1_empty diffs :
  forallb op_ok diffs = true -> diff_text1 diffs = "" ->
  all_text diffs = diff_text2 diffs.
Proof.
  induction diffs as [|[op txt] rest IH]; [reflexivity|].
  cbn [forallb all_text diff_text1 diff_text2]. intros Hok H1.
  apply andb_true_iff in Hok as [Hop Hrest].
  destruct (op =? DIFF_INSERT) eqn:Ei.
  - apply Z.eqb_eq in Ei. subst op. cbn. now rewrite IH.
  - destruct txt as [|c txt]; [|discriminate H1].
    change ("" ++ diff_text1 rest)%string with (diff_text1 rest) in H1.
    change ("" ++ all_text rest)%string with (all_text rest).
    rewrite IH by assumption. now destruct (op =? DIFF_DELETE).
Qed.

Lemma all_text_is_text1_when_text2_empty diffs :
  forallb op_ok diffs = true -> diff_text2 diffs = "" ->
  all_text diffs = diff_text1 diffs.
Proof.
  induction diffs as [|[op txt] rest IH]; [reflexivity|].
  cbn [forallb all_text diff_text1 diff_text2]. intros Hok H2.
  apply andb_true_iff in Hok as [Hop Hrest].
  destruct (op =? DIFF_DELETE) eqn:Ed.
  - apply Z.eqb_eq in Ed. subst op. cbn. now rewrite IH.
  - destruct txt as [|c txt]; [|discriminate H2].
    change ("" ++ diff_text2 rest)%string with (diff_text2 rest) in H2.
    change ("" ++ all_text rest)%string with (all_text rest).
    rewrite IH by assumption. now destruct (op =? DIFF_INSERT).
Qed.

Lemma all_text_length_le diffs :
  (String.length (all_text diffs)
   <= String.length (diff_text1 diffs) + String.length (diff_text2 diffs))%nat.
Proof.
  induction diffs as [|[op txt] rest IH]; [simpl; lia|].
  cbn [all_text diff_text1 diff_text2].
  destruct (op =? DIFF_INSERT) eqn:Ei; destruct (op =? DIFF_DELETE) eqn:Ed;
    rewrite ?string_length_app;
    set (a := String.length (all_text rest)) in *;
    set (b := String.length (diff_text1 rest)) in *;
    set (c := String.length (diff_text2 rest)) in *; try lia.
  apply Z.eqb_eq in Ei, Ed. unfold DIFF_INSERT, DIFF_DELETE in *. lia.
Qed.

(** Merging into an empty target adopts the source as it is, whatever
    diff of the empty string the engine returns. *)
Theorem merge_into_empty_target (dmp : engine) (source : string) :
  edit_script (diff_of dmp "" source) "" source ->
  mergeSourceAdditionsIntoTarget dmp source "" = source.
Proof.
  intros (Hok & H1 & H2). unfold mergeSourceAdditionsIntoTarget.
  rewrite merge_loop_all_text by exact Hok.
  change ("" ++ all_text (diff_of dmp "" source))%string
    with (all_text (diff_of dmp "" source)).
  now rewrite all_text_is_text2_when_text1_empty.
Qed.

Lemma merge_into_empty_target_witness :
  mergeSourceAdditionsIntoTarget Dmp.simple "Welcome" "" = "Welcome".
Proof.
  apply (merge_into_empty_target Dmp.simple "Welcome").
  vm_compute. repeat split; reflexivity.
Defined.

(** An empty source adds nothing: the target comes back unchanged. *)
Theorem merge_of_empty_source (dmp : engine) (target : string) :
  edit_script (diff_of dmp target "") target "" ->
  mergeSourceAdditionsIntoTarget dmp "" target = target.
Proof.
  intros (Hok & H1 & H2). unfold mergeSourceAdditionsIntoTarget.
  rewrite merge_loop_all_text by exact Hok.
  change ("" ++ all_text (diff_of dmp target ""))%string
    with (all_text (diff_of dmp target "")).
  now rewrite all_text_is_text1_when_text2_empty.
Qed.

Lemma merge_of_empty_source_witness :
  mergeSourceAdditionsIntoTarget Dmp.simple "" "Hallo Welt" = "Hallo Welt".
Proof.
  apply (merge_of_empty_source Dmp.simple "Hallo Welt").
  vm_compute. repeat split; reflexivity.
Defined.

(** The merged string is at least as long as either input and at most as
    long as both together. *)
Theorem merge_length_bounds (dmp : engine) (source target : string) :
  edit_script (diff_of dmp target source) target source ->
  (Nat.max (String.length source) (String.length target)
   <= String.length (mergeSourceAdditionsIntoTarget dmp source target)
   <= String.length source + String.length target)%nat.
Proof.
  intros (Hok & H1 & H2). unfold mergeSourceAdditionsIntoTarget.
  rewrite merge_loop_all_text by exact Hok.
  change ("" ++ all_text (diff_of dmp target source))%string
    with (all_text (diff_of dmp target source)).
  pose proof (all_text_length_le (diff_of dmp target source)) as Hle.
  pose proof (sublist_length _ _
                (text1_sublist_all_text (diff_of dmp target source))) as Hl1.
  pose proof (sublist_length _ _
                (text2_sublist_all_text (diff_of dmp target source))) as Hl2.
  rewrite !chars_length in Hl1, Hl2. rewrite H1, H2 in *. lia.
Qed.

Lemma merge_length_bounds_witness :
  (Nat.max (String.length "Hello brave world") (String.length "Hello new world")
   <= String.length
        (mergeSourceAdditionsIntoTarget Dmp.simple
           "Hello brave world" "Hello new world")
   <= String.length "Hello brave world" + String.length "Hello new world")%nat.
Proof.
  apply (merge_length_bounds Dmp.simple "Hello brave world" "Hello new world").
  vm_compute. repeat split; reflexivity.
Defined.

End MergeTextEdges.

(** ** Call gateway: the rate ceiling and the backoff *)

Section GatewayRunFacts.
Import RateLimiter GatewayRuns.

Lemma drop_old_sorted now calls :
  StronglySorted Z.le calls -> drop_old now calls = recent now calls.
Proof.
  induction 1 as [|t rest Hs IH Hall]; [reflexivity|].
  unfold recent in *. cbn [drop_old List.filter].
  destruct (Z.gtb_spec (now - t) windowMs) as [Hgt|Hle]; [exact IH|].
  cbn [negb]. f_equal.
  symmetry. apply forallb_filter_id. apply forallb_forall.
  intros x Hx. rewrite Forall_forall in Hall.
  apply list_elem_of_In in Hx. specialize (Hall x Hx).
  destruct (Z.gtb_spec (now - x) windowMs); [lia | reflexivity].
Qed.

(** With a log in the order of the clock, one pass of [throttle] keeps
    exactly the timestamps that are at most one second old.  It lets the
    call through, logging it, exactly when fewer than [maxPerSecond] of
    them are left; so right after a call is let through, the calls of the
    last second, that one included, are at most [maxPerSecond]. *)
Theorem throttle_keeps_rate_ceiling (cfg : limiter_config)
    (now jitter now' : Z) (calls : list Z) :
  StronglySorted Z.le calls ->
  (Z.of_nat (length (recent now calls)) < maxPerSecond cfg /\
   throttle_pass cfg now jitter now' calls
   = ((recent now calls ++ [now'])%list, Proceed) /\
   Z.of_nat (length (recent now calls ++ [now'])%list) <= maxPerSecond cfg) \/
  (maxPerSecond cfg <= Z.of_nat (length (recent now calls)) /\
   exists wait,
     throttle_pass cfg now jitter now' calls = (recent now calls, Sleep wait)).
Proof.
  intros Hs. unfold throttle_pass. rewrite (drop_old_sorted now calls Hs).
  destruct (Z.of_nat (length (recent now calls)) >=? maxPerSecond cfg) eqn:E.
  - right. apply Z.geb_le in E. split; [exact E|].
    destruct (recent now calls); eauto.
  - left. rewrite Z.geb_leb in E. apply Z.leb_gt in E.
    split; [exact E|]. split; [reflexivity|].
    rewrite length_app. simpl. lia.
Qed.

Lemma throttle_keeps_rate_ceiling_witness :
  (Z.of_nat (length (recent 2000 [900; 1500; 1990])) < maxPerSecond throttle_config /\
   throttle_pass throttle_config 2000 3 2001 [900; 1500; 1990]
   = ((recent 2000 [900; 1500; 1990] ++ [2001])%list, Proceed) /\
   Z.of_nat (length (recent 2000 [900; 1500; 1990] ++ [2001])%list)
   <= maxPerSecond throttle_config) \/
  (maxPerSecond throttle_config <= Z.of_nat (length (recent 2000 [900; 1500; 1990])) /\
   exists wait,
     throttle_pass throttle_config 2000 3 2001 [900; 1500; 1990]
     = (recent 2000 [900; 1500; 1990], Sleep wait)).
Proof.
  apply (throttle_keeps_rate_ceiling throttle_config 2000 3 2001
           [900; 1500; 1990]).
  repeat constructor; lia.
Defined.

Lemma rounds_succ (opts : options) (rnd : nat -> Z) (from k : nat) :
  rounds opts rnd from (S k)
  = EvThrottle :: EvCall from
      :: EvSleep (baseDelay opts * 2 ^ Z.of_nat from + rnd from)
      :: rounds opts rnd (S from) k.
Proof.
  unfold rounds. cbn [seq flat_map app].
  now replace (from + S k)%nat with (S from + k)%nat by lia.
Qed.

Lemma rounds_total_sleep (opts : options) (rnd : nat -> Z) (k : nat) :
  forall from : nat,
  (forall i, 0 <= rnd i <= 99) ->
  0 <= baseDelay opts ->
  0 <= total_sleep (rounds opts rnd from k)
  <= baseDelay opts * (2 ^ Z.of_nat (from + k) - 2 ^ Z.of_nat from)
     + 99 * Z.of_nat k.
Proof.
  induction k as [|k IH]; intros from Hrnd Hbase.
  - unfold rounds. simpl. rewrite Nat.add_0_r. lia.
  - rewrite rounds_succ. cbn [total_sleep].
    specialize (IH (S from) Hrnd Hbase).
    replace (from + S k)%nat with (S from + k)%nat by lia.
    specialize (Hrnd from).
    assert (H2 : 2 ^ Z.of_nat (S from) = 2 * 2 ^ Z.of_nat from).
    { rewrite Nat2Z.inj_succ, Z.pow_succ_r by lia. reflexivity. }
    assert (Hp : 0 < 2 ^ Z.of_nat from) by (apply Z.pow_pos_nonneg; lia).
    set (s := total_sleep (rounds opts rnd (S from) k)) in *.
    set (p := 2 ^ Z.of_nat from) in *.
    set (q := 2 ^ Z.of_nat (S from + k)) in *.
    set (B := baseDelay opts) in *.
    rewrite H2 in IH. rewrite Nat2Z.inj_succ.
    assert (0 <= B * p) by nia.
    replace (B * (q - p)) with (B * (q - 2 * p) + B * p) by ring.
    lia.
Qed.

(** Whatever the operation does, [callCMA] invokes it at most
    [retries + 1] times and sleeps, over all its backoff waits together,
    at most [baseDelay * (2^retries - 1)] plus 99 ms of jitter per retry:
    under 4.9 seconds with the default options. *)
Theorem callCMA_backoff_is_bounded {A : Type} (opts : options)
    (fn : nat -> outcome A) (rnd : nat -> Z) (fuel : nat) :
  (Z.to_nat (retries opts) < fuel)%nat ->
  0 <= retries opts -> 0 <= baseDelay opts ->
  (forall i, 0 <= rnd i <= 99) ->
  exists r trace,
    callCMA fuel opts fn rnd = Some (r, trace) /\
    Z.of_nat (invocations trace) <= retries opts + 1 /\
    0 <= total_sleep trace
    <= baseDelay opts * (2 ^ retries opts - 1) + 99 * retries opts.
Proof.
  intros Hfuel Hret Hbase Hrnd.
  destruct (callCMA_stop_exists opts fn (Z.to_nat (retries opts)) 0%nat)
    as (k & Hk & Hbefore & Hstop); [simpl; lia|].
  exists (fn k), (rounds opts rnd 0 k). split; [|split].
  - unfold callCMA.
    now rewrite (callCMA_loop_stops opts fn rnd k fuel 0%nat []) by (auto; lia).
  - assert (Hinv : forall from n, invocations (rounds opts rnd from n) = S n).
    { intros from n. revert from. induction n as [|n IHn]; intros from;
        [reflexivity|].
      rewrite rounds_succ. cbn [invocations]. now rewrite IHn. }
    rewrite Hinv. lia.
  - pose proof (rounds_total_sleep opts rnd k 0%nat Hrnd Hbase) as Hs.
    simpl (0 + k)%nat in Hs. change (2 ^ Z.of_nat 0) with 1 in Hs.
    assert (Hm : 2 ^ Z.of_nat k <= 2 ^ retries opts)
      by (apply Z.pow_le_mono_r; lia).
    set (p := 2 ^ Z.of_nat k) in *. set (q := 2 ^ retries opts) in *.
    assert (baseDelay opts * (p - 1) <= baseDelay opts * (q - 1))
      by (apply Z.mul_le_mono_nonneg_l; lia).
    lia.
Qed.

Lemma callCMA_backoff_is_bounded_witness :
  exists r trace,
    callCMA 5 default_options
      (fun _ : nat => @Thrown unit
         {| status := Some 429; sys_id := None; detail := "busy" |})
      (fun _ => 99)
    = Some (r, trace) /\
    Z.of_nat (invocations trace) <= retries default_options + 1 /\
    0 <= total_sleep trace
    <= baseDelay default_options * (2 ^ retries default_options - 1)
       + 99 * retries default_options.
Proof.
  apply (callCMA_backoff_is_bounded default_options
           (fun _ : nat => @Thrown unit
              {| status := Some 429; sys_id := None; detail := "busy" |})
           (fun _ => 99) 5).
  - simpl. lia.
  - simpl. lia.
  - simpl. lia.
  - intros i. lia.
Defined.

Example callCMA_worst_case_sleep :
  option_map (fun p => total_sleep (snd p))
    (callCMA 5 default_options
       (fun _ : nat => @Thrown unit
          {| status := Some 429; sys_id := None; detail := "busy" |})
       (fun _ => 99))
  = Some (300 * 15 + 99 * 4).
Proof. reflexivity. Qed.

End GatewayRunFacts.

(** ** Marks and spans *)

Section SpanFacts.
Import Dmp RichText Spans.

Lemma normalize_loop_spec ms :
  forall seen,
  NoDup (map mark_type (normalize_loop ms seen)) /\
  (forall ty, ty ∈ map mark_type (normalize_loop ms seen) <->
              ty ∈ map mark_type ms /\ ty <> "" /\ ty ∉ seen).
Proof.
  induction ms as [|m rest IH]; intros seen.
  - split; [constructor|]. intros ty. simpl. split; [|intros [H _]];
      intros; exfalso; eapply not_elem_of_nil; eauto.
  - cbn [normalize_loop map].
    destruct (String.eqb_spec (mark_type m) "") as [He|He].
    { destruct (IH seen) as [Hn Hi]. split; [exact Hn|].
      intros ty. rewrite Hi, elem_of_cons. split; [tauto|].
      intros ([->|H] & Hne & Hs); [contradiction | auto]. }
    destruct (existsb (String.eqb (mark_type m)) seen) eqn:Hex.
    { destruct (IH seen) as [Hn Hi]. split; [exact Hn|].
      intros ty. rewrite Hi, elem_of_cons. split; [tauto|].
      intros ([->|H] & Hne & Hs); [|auto].
      exfalso. apply Hs. apply existsb_exists in Hex as (x & Hx & Hxe).
      apply String.eqb_eq in Hxe. subst x. now apply list_elem_of_In. }
    assert (Hnot : mark_type m ∉ seen).
    { intros Hin. apply list_elem_of_In in Hin.
      assert (existsb (String.eqb (mark_type m)) seen = true); [|congruence].
      apply existsb_exists. exists (mark_type m). split; [exact Hin|].
      apply String.eqb_refl. }
    destruct (IH (mark_type m :: seen)) as [Hn Hi]. cbn [map mark_type].
    split.
    + apply NoDup_cons. split; [|exact Hn].
      rewrite Hi. intros (_ & _ & H). apply H. apply list_elem_of_here.
    + intros ty. rewrite elem_of_cons, Hi, elem_of_cons, elem_of_cons.
      split.
      * intros [->|(H1 & H2 & H3)]; [auto|]. split; [auto|]. split; [auto|].
        intros H. apply H3. now right.
      * intros ([->|H1] & H2 & H3); [now left|].
        destruct (String.eqb_spec ty (mark_type m)) as [->|Hd]; [now left|].
        right. split; [auto|]. split; [auto|]. intros [H|H]; auto.
Qed.

Lemma normalize_loop_fixed ms :
  forall seen,
  NoDup (map mark_type ms) ->
  (forall ty, ty ∈ map mark_type ms -> ty <> "" /\ ty ∉ seen) ->
  normalize_loop ms seen = ms.
Proof.
  induction ms as [|[ty] rest IH]; intros seen Hn Hall; [reflexivity|].
  cbn [normalize_loop mark_type]. cbn [map mark_type] in Hn, Hall.
  apply NoDup_cons in Hn as [Hnot Hn].
  destruct (Hall ty (list_elem_of_here _ _)) as [Hne Hs].
  destruct (String.eqb_spec ty "") as [He|_]; [contradiction|].
  destruct (existsb (String.eqb ty) seen) eqn:Hex.
  { exfalso. apply Hs. apply existsb_exists in Hex as (x & Hx & Hxe).
    apply String.eqb_eq in Hxe. subst x. now apply list_elem_of_In. }
  f_equal. apply IH; [exact Hn|].
  intros ty' Hin. destruct (Hall ty' (list_elem_of_further _ _ _ Hin)) as [H1 H2].
  split; [exact H1|]. intros [->|H]%elem_of_cons; auto.
Qed.

(** [normalizeMarks] keeps one mark per type: the result has no type twice
    and no empty type, has exactly the non-empty types of the input, and
    normalizing again changes nothing. *)
Theorem normalizeMarks_dedupes (ms : list mark) :
  NoDup (map mark_type (normalizeMarks ms)) /\
  (forall ty, ty ∈ map mark_type (normalizeMarks ms) <->
              ty ∈ map mark_type ms /\ ty <> "") /\
  normalizeMarks (normalizeMarks ms) = normalizeMarks ms.
Proof.
  unfold normalizeMarks. destruct (normalize_loop_spec ms []) as [Hn Hi].
  split; [exact Hn|]. split.
  - intros ty. rewrite Hi. split; [tauto|]. intros [H1 H2].
    repeat split; auto. apply not_elem_of_nil.
  - apply normalize_loop_fixed; [exact Hn|].
    intros ty Hin. apply Hi in Hin as (_ & H & _). split; [exact H|].
    apply not_elem_of_nil.
Qed.

(** *** Coalescing *)

Lemma ctext_app l1 l2 : ctext (l1 ++ l2) = (ctext l1 ++ ctext l2)%string.
Proof.
  induction l1 as [|s l1 IH]; [reflexivity|].
  cbn [app ctext]. now rewrite IH, string_app_assoc.
Qed.

Lemma coalesce_loop_ctext spans :
  forall done prev,
  ctext (coalesce_loop spans done prev)
  = ctext (done ++ match prev with Some p => [p] | None => [] end ++ spans).
Proof.
  induction spans as [|s rest IH]; intros done prev.
  - cbn [coalesce_loop]. rewrite app_nil_r. destruct prev; [reflexivity|].
    now rewrite app_nil_r.
  - cbn [coalesce_loop]. destruct prev as [p|].
    + destruct (sameMarks (span_marks p) (span_marks s)
                && sameHyperlink (hyperlink p) (hyperlink s)).
      * rewrite IH, !ctext_app. f_equal. cbn [app ctext text append_text].
        now rewrite !string_app_assoc.
      * rewrite IH. now rewrite <- app_assoc.
    + now rewrite IH.
Qed.

Lemma adjacent_distinct_snoc l p s :
  adjacent_distinct (l ++ [p]) ->
  same_format (format_of p) (format_of s) = false ->
  adjacent_distinct ((l ++ [p]) ++ [s]).
Proof.
  induction l as [|a l IH]; intros Ha Hd.
  - simpl. auto.
  - destruct l as [|b l'].
    + simpl in *. tauto.
    + cbn [app adjacent_distinct] in *. destruct Ha as [H1 H2].
      split; [exact H1|]. now apply IH.
Qed.

Lemma adjacent_distinct_last l p p' :
  format_of p' = format_of p ->
  adjacent_distinct (l ++ [p]) -> adjacent_distinct (l ++ [p']).
Proof.
  intros Hf. induction l as [|a l IH]; intros Ha; [exact I|].
  destruct l as [|b l'].
  - simpl in *. now rewrite Hf.
  - cbn [app adjacent_distinct] in *. destruct Ha as [H1 H2].
    split; [exact H1|]. now apply IH.
Qed.

Lemma coalesce_loop_distinct spans :
  forall done prev,
  adjacent_distinct (done ++ match prev with Some p => [p] | None => [] end) ->
  (prev = None -> done = []) ->
  adjacent_distinct (coalesce_loop spans done prev).
Proof.
  induction spans as [|s rest IH]; intros done prev Ha Hn.
  - cbn [coalesce_loop]. destruct prev; [exact Ha|].
    now rewrite app_nil_r in Ha.
  - cbn [coalesce_loop]. destruct prev as [p|].
    + destruct (sameMarks (span_marks p) (span_marks s)
                && sameHyperlink (hyperlink p) (hyperlink s)) eqn:Hs.
      * apply IH; [|discriminate].
        now apply (adjacent_distinct_last done p).
      * apply IH; [|discriminate].
        now apply adjacent_distinct_snoc.
    + rewrite (Hn eq_refl). apply IH; [exact I | discriminate].
Qed.

Lemma coalesce_loop_fixed spans :
  forall done prev,
  adjacent_distinct (match prev with Some p => [p] | None => [] end ++ spans) ->
  coalesce_loop spans done prev
  = (done ++ match prev with Some p => [p] | None => [] end ++ spans)%list.
Proof.
  induction spans as [|s rest IH]; intros done prev Ha.
  - cbn [coalesce_loop]. rewrite app_nil_r. destruct prev; [reflexivity|].
    now rewrite app_nil_r.
  - cbn [coalesce_loop]. destruct prev as [p|].
    + cbn [app adjacent_distinct] in Ha. destruct Ha as [Hd Hr].
      unfold same_format, format_of in Hd. cbn [fst snd] in Hd. rewrite Hd.
      rewrite IH by exact Hr. now rewrite <- app_assoc.
    + rewrite IH by exact Ha. reflexivity.
Qed.

(** [coalesceSpans] keeps the text, leaves no span with the formatting of
    the span before it, and changes nothing when applied again. *)
Theorem coalesceSpans_merges_runs (spans : list span) :
  ctext (coalesceSpans spans) = ctext spans /\
  adjacent_distinct (coalesceSpans spans) /\
  coalesceSpans (coalesceSpans spans) = coalesceSpans spans.
Proof.
  unfold coalesceSpans. split; [|split].
  - now rewrite coalesce_loop_ctext.
  - now apply coalesce_loop_distinct.
  - rewrite (coalesce_loop_fixed (coalesce_loop spans [] None) [] None);
      [reflexivity|].
    now apply coalesce_loop_distinct.
Qed.

End SpanFacts.

(** ** Inline merge: text and formatting *)

Section InlineMergeFacts.
Import Dmp MergeText RichText Spans.

Lemma chars_inj (a b : string) : chars a = chars b -> a = b.
Proof.
  unfold chars. intros H.
  rewrite <- (string_of_list_ascii_of_string a),
          <- (string_of_list_ascii_of_string b). now rewrite H.
Qed.

Lemma chars_substring (s : string) :
  forall n m, chars (String.substring n m s) = take m (drop n (chars s)).
Proof.
  unfold chars.
  induction s as [|c s IH]; intros [|n] [|m]; try reflexivity.
  - simpl. now rewrite IH.
  - simpl. now rewrite IH.
  - simpl. now rewrite IH.
Qed.

Lemma chars_slice (s : string) (x y : Z) :
  0 <= x <= y -> y <= len s ->
  chars (slice s x y)
  = take (Z.to_nat (y - x)) (drop (Z.to_nat x) (chars s)).
Proof.
  intros Hx Hy. unfold slice, js_index.
  replace (x <? 0) with false by (symmetry; apply Z.ltb_ge; lia).
  replace (y <? 0) with false by (symmetry; apply Z.ltb_ge; lia).
  rewrite !Z.min_l by lia.
  destruct (Z.ltb_spec x y) as [Hlt|Hge].
  - apply chars_substring.
  - replace (y - x) with 0 by lia. reflexivity.
Qed.

Lemma char_formats_length_one (s : span) :
  length (char_formats [s]) = String.length (text s).
Proof.
  unfold char_formats. simpl. rewrite app_nil_r, length_map.
  apply chars_length.
Qed.

Lemma chars_ctext spans : chars (ctext spans) = map fst (char_formats spans).
Proof.
  induction spans as [|s rest IH]; [reflexivity|].
  cbn [ctext]. rewrite chars_app, IH.
  change (s :: rest) with ([s] ++ rest)%list.
  rewrite char_formats_app, map_app. f_equal.
  unfold char_formats. simpl. rewrite app_nil_r, map_map. simpl.
  now rewrite map_id.
Qed.

Lemma char_formats_cons (s : span) (rest : list span) :
  char_formats (s :: rest)
  = (map (fun c => (c, format_of s)) (chars (text s)) ++ char_formats rest)%list.
Proof. reflexivity. Qed.

Lemma sliced_span_format (s : span) :
  hyperlink_normalized s ->
  (cloneMarks (span_marks s),
   match hyperlink s with
   | Some d => Some (cloneHyperlink (Some d))
   | None => None
   end) = format_of s.
Proof.
  unfold hyperlink_normalized, format_of, cloneHyperlink, clone.
  rewrite cloneMarks_id. destruct (hyperlink s) as [d|]; [|reflexivity].
  now intros ->.
Qed.

Lemma sliceSpans_char_formats (spans : list span) (a b : Z) :
  forall from to,
  tiled from spans to -> Forall hyperlink_normalized spans ->
  a <= b ->
  char_formats (sliceSpans spans a b)
  = take (Z.to_nat (b - Z.max a from))
      (drop (Z.to_nat (Z.max a from - from)) (char_formats spans)).
Proof.
  induction spans as [|s rest IH]; intros from to Ht Hn Hab.
  - cbn [sliceSpans]. change (char_formats []) with (@nil (ascii * format)).
    destruct (a >=? b); now rewrite drop_nil, take_nil.
  - destruct Ht as (Hs & He & Hpos & Ht).
    apply Forall_cons in Hn as [Hns Hn].
    specialize (IH (end_ s) to Ht Hn Hab).
    rewrite char_formats_cons, drop_app, take_app, length_drop, length_map,
      chars_length.
    assert (HL : Z.of_nat (String.length (text s)) = len (text s))
      by reflexivity.
    cbn [sliceSpans].
    destruct (Z.geb_spec a b) as [Hge|Hlt].
    { replace (Z.to_nat (b - Z.max a from)) with 0%nat by lia.
      now rewrite !take_0. }
    destruct ((end_ s <=? a) || (start s >=? b)) eqn:Hskip.
    + rewrite IH. apply orb_true_iff in Hskip as [H|H].
      * apply Z.leb_le in H.
        rewrite (drop_ge (map (fun c => (c, format_of s)) (chars (text s))))
          by (rewrite length_map, chars_length; lia).
        rewrite take_nil, app_nil_l. f_equal; [lia|]. f_equal. lia.
      * rewrite Z.geb_leb in H. apply Z.leb_le in H.
        replace (Z.to_nat (b - Z.max a from)) with 0%nat by lia.
        replace (Z.to_nat (b - Z.max a (end_ s))) with 0%nat by lia.
        now rewrite !take_0.
    + apply orb_false_iff in Hskip as [H1 H2].
      apply Z.leb_gt in H1. rewrite Z.geb_leb in H2. apply Z.leb_gt in H2.
      rewrite char_formats_cons. cbn [text span_marks hyperlink format_of].
      rewrite IH. f_equal.
      * rewrite (map_ext _ (fun c : ascii => (c, format_of s)))
          by (intros c; f_equal; apply (sliced_span_format s Hns)).
        rewrite chars_slice by lia.
        rewrite <- !firstn_map, <- !skipn_map.
        replace (Z.to_nat (Z.max a from - from))
          with (Z.to_nat (Z.max a (start s) - start s)) by lia.
        set (D := drop (Z.to_nat (Z.max a (start s) - start s))
                    (map (fun c : ascii => (c, format_of s)) (chars (text s)))).
        assert (HD : length D
                     = Z.to_nat (end_ s - Z.max a (start s))).
        { subst D. rewrite length_drop, length_map, chars_length. lia. }
        destruct (Z.le_gt_cases b (end_ s)) as [Hbe|Hbe].
        -- f_equal. f_equal. lia.
        -- rewrite !take_ge by lia. reflexivity.
      * replace (Z.to_nat (Z.max a (end_ s) - end_ s)) with 0%nat by lia.
        replace (Z.to_nat (Z.max a from - from) - String.length (text s))%nat
          with 0%nat by lia.
        f_equal. lia.
Qed.

(** *** The text of a walk *)

Lemma pushSpan_fst t ms hl st :
  fst (pushSpan t ms hl st) = (fst st ++ t)%string.
Proof.
  unfold pushSpan. destruct st as [txt spans].
  destruct (String.eqb_spec t "") as [->|Hne]; [|reflexivity].
  simpl. now rewrite string_app_nil_r.
Qed.

Lemma walk_node_fst :
  forall n am ah st,
  fst (walk_node n am ah st)
  = (fst st ++ fst (walk_node n [] None ("", [])))%string.
Proof.
  fix IH 1. intros [t d c v ms] am ah st. cbn [walk_node].
  destruct (String.eqb t "text").
  { now rewrite !pushSpan_fst. }
  assert (Hwalk : forall l am ah am' ah' st,
            match c with Some l' => l = l' | None => False end ->
            fst ((fix walk (nodes : list node) (am : list mark)
                    (ah : option (option json)) (st : string * list span)
                   : string * list span :=
                    match nodes with
                    | [] => st
                    | m :: rest => walk rest am ah (walk_node m am ah st)
                    end) l am ah st)
            = (fst st
               ++ fst ((fix walk (nodes : list node) (am : list mark)
                          (ah : option (option json))
                          (st : string * list span)
                         : string * list span :=
                          match nodes with
                          | [] => st
                          | m :: rest => walk rest am ah (walk_node m am ah st)
                          end) l am' ah' ("", [])))%string).
  { destruct c as [l'|]; [|intros; contradiction].
    intros l am0 ah0 am1 ah1 st0 ->. revert am0 ah0 st0.
    induction l' as [|m rest IHl]; intros am0 ah0 st0.
    - simpl. now rewrite string_app_nil_r.
    - rewrite (IHl am0 ah0), (IHl am1 ah1 (walk_node m am1 ah1 ("", []))).
      rewrite (IH m am0 ah0 st0), (IH m am1 ah1 ("", [])).
      cbn [fst]. change ("" ++ ?x)%string with x.
      now rewrite !string_app_assoc. }
  destruct (String.eqb t "hyperlink"); destruct c as [l|];
    try (simpl; now rewrite string_app_nil_r);
    now apply Hwalk.
Qed.

Lemma walk_fst nodes :
  forall am ah st,
  fst (walk nodes am ah st)
  = (fst st ++ fst (walk nodes [] None ("", [])))%string.
Proof.
  induction nodes as [|n rest IH]; intros am ah st.
  - simpl. now rewrite string_app_nil_r.
  - cbn [walk]. rewrite IH, (IH [] None (walk_node n [] None ("", []))).
    rewrite (walk_node_fst n am ah st). now rewrite string_app_assoc.
Qed.

Lemma walk_app l1 l2 am ah st :
  walk (l1 ++ l2) am ah st = walk l2 am ah (walk l1 am ah st).
Proof.
  revert st. induction l1 as [|n rest IH]; intros st; [reflexivity|].
  cbn [app walk]. apply IH.
Qed.

(** *** Building a block from spans and flattening it again *)

Lemma flushText_text (b : builder) :
  fst (walk (b_content (flushText b)) [] None ("", []))
  = (fst (walk (b_content b) [] None ("", [])) ++ currentText b)%string /\
  currentText (flushText b) = "".
Proof.
  unfold flushText. destruct (String.eqb_spec (currentText b) "") as [He|Hne].
  - split; [rewrite He; now rewrite string_app_nil_r | exact He].
  - cbn [b_content currentText]. split; [|reflexivity].
    rewrite walk_app, walk_fst. f_equal.
    destruct (currentHyperlink b) as [d|]; cbn; unfold pushSpan;
      destruct (String.eqb_spec (currentText b) ""); try contradiction;
      reflexivity.
Qed.

Lemma build_step_text (b : builder) (s : span) :
  (fst (walk (b_content (build_step b s)) [] None ("", []))
   ++ currentText (build_step b s))%string
  = ((fst (walk (b_content b) [] None ("", [])) ++ currentText b)
     ++ text s)%string.
Proof.
  unfold build_step.
  destruct (negb (option_eqb key_eqb
                    (Some (keyFor (span_marks s) (hyperlink s)))
                    (currentMarksKey b))).
  - cbn [b_content currentText].
    destruct (flushText_text b) as [H1 H2]. rewrite H1, H2.
    now rewrite !string_app_assoc.
  - cbn [b_content currentText]. now rewrite string_app_assoc.
Qed.

Lemma build_fold_text (spans : list span) :
  forall b,
  (fst (walk (b_content (fold_left build_step spans b)) [] None ("", []))
   ++ currentText (fold_left build_step spans b))%string
  = ((fst (walk (b_content b) [] None ("", [])) ++ currentText b)
     ++ ctext spans)%string.
Proof.
  induction spans as [|s rest IH]; intros b.
  - simpl. now rewrite string_app_nil_r.
  - cbn [fold_left ctext]. rewrite IH, build_step_text.
    now rewrite !string_app_assoc.
Qed.

Lemma build_then_flatten_text (ty : string) (d : json) (spans : list span) :
  fst (flattenInlineBlock (buildInlineBlockFromSpans ty d spans))
  = ctext spans.
Proof.
  unfold flattenInlineBlock, buildInlineBlockFromSpans. cbn [content].
  destruct (flushText_text
              (fold_left build_step spans
                 {| b_content := []; currentHyperlink := None;
                    currentMarksKey := None; currentMarks := [];
                    currentText := "" |})) as [H1 _].
  rewrite H1, build_fold_text. reflexivity.
Qed.

(** *** What flattening gives *)

Lemma flattenInlineBlock_ctext (block : node) :
  ctext (snd (flattenInlineBlock block)) = fst (flattenInlineBlock block).
Proof.
  unfold flattenInlineBlock.
  apply (walk_preserves (fun st => ctext (snd st) = fst st)); [|reflexivity].
  intros t ms hl [txt spans] H. unfold pushSpan. cbn [fst snd] in *.
  destruct (String.eqb t ""); [exact H|]. cbn [fst snd].
  rewrite ctext_app, H. cbn [ctext text]. now rewrite string_app_nil_r.
Qed.

Lemma flattenInlineBlock_normalized (block : node) :
  Forall hyperlink_normalized (snd (flattenInlineBlock block)).
Proof.
  unfold flattenInlineBlock.
  apply (walk_preserves (fun st => Forall hyperlink_normalized (snd st)));
    [|constructor].
  intros t ms hl [txt spans] H. unfold pushSpan. cbn [fst snd] in *.
  destruct (String.eqb t ""); [exact H|]. cbn [fst snd].
  apply Forall_app. split; [exact H|]. constructor; [|constructor].
  unfold hyperlink_normalized. cbn [hyperlink].
  destruct hl as [d|]; [|exact I].
  unfold cloneHyperlink, clone. apply or_empty_idem.
Qed.

(** *** Rebuilding the spans *)

Lemma rebuild_loop_keeps_target (T : list span) (total : Z) :
  tiled 0 T total -> Forall hyperlink_normalized T ->
  forall diffs cur,
  0 <= cur ->
  forallb op_ok diffs = true ->
  map fst (drop (Z.to_nat cur) (char_formats T)) = chars (diff_text1 diffs) ->
  map fst (char_formats (rebuild_loop diffs T [] cur)) = chars (all_text diffs)
  /\
  drop (Z.to_nat cur) (char_formats T)
    `sublist_of` char_formats (rebuild_loop diffs T [] cur).
Proof.
  intros Ht Hn diffs.
  induction diffs as [|[op txt] rest IH]; intros cur Hcur Hok Htxt.
  - cbn in *. split; [reflexivity|].
    destruct (drop (Z.to_nat cur) (char_formats T)); [constructor|discriminate].
  - cbn [forallb] in Hok. apply andb_true_iff in Hok as [Hop Hrest].
    unfold op_ok, DIFF_DELETE, DIFF_EQUAL, DIFF_INSERT in Hop. cbn [fst] in Hop.
    cbn [rebuild_loop all_text diff_text1] in *. unfold DIFF_INSERT in Htxt.
    destruct (op =? 1) eqn:E1.
    + apply Z.eqb_eq in E1. subst op. cbn [Z.eqb orb app].
      rewrite rebuild_loop_acc.
      destruct (IH cur Hcur Hrest Htxt) as [IH1 IH2].
      rewrite char_formats_app, map_app, IH1, chars_app. split.
      * f_equal. unfold char_formats. simpl. rewrite app_nil_r, map_map.
        simpl. now rewrite map_id.
      * now apply sublist_inserts_l.
    + rewrite orb_false_r, orb_comm in Hop. rewrite Hop. cbn [app].
      rewrite rebuild_loop_acc.
      set (D := drop (Z.to_nat cur) (char_formats T)) in *.
      assert (Hslice : char_formats (sliceSpans T cur (cur + len txt))
                       = take (String.length txt) D).
      { rewrite (sliceSpans_char_formats T cur (cur + len txt) 0 total Ht Hn)
          by (pose proof (len_nonneg txt); lia).
        subst D. rewrite Z.max_l by lia. f_equal; [|f_equal; lia].
        unfold len. lia. }
      rewrite chars_app in Htxt.
      assert (Htake : map fst (take (String.length txt) D) = chars txt).
      { rewrite <- firstn_map, Htxt.
        rewrite take_app_length'; [reflexivity | now rewrite chars_length]. }
      assert (Hdrop : map fst (drop (Z.to_nat (cur + len txt)) (char_formats T))
                      = chars (diff_text1 rest)).
      { replace (Z.to_nat (cur + len txt))
          with (Z.to_nat cur + String.length txt)%nat by (unfold len; lia).
        rewrite <- drop_drop. fold D. rewrite <- skipn_map, Htxt.
        rewrite drop_app_length'; [reflexivity | now rewrite chars_length]. }
      destruct (IH (cur + len txt)) as [IH1 IH2];
        [pose proof (len_nonneg txt); lia | exact Hrest | exact Hdrop |].
      rewrite char_formats_app, map_app, IH1, chars_app, Hslice, Htake.
      split; [reflexivity|].
      rewrite <- (take_drop (String.length txt) D) at 1.
      apply sublist_app; [reflexivity|].
      replace (Z.to_nat (cur + len txt))
        with (Z.to_nat cur + String.length txt)%nat in IH2
        by (unfold len; lia).
      rewrite <- drop_drop in IH2. exact IH2.
Qed.

(** The spans [flattenInlineBlock] returns tile the text it returns: the
    first starts at 0, each starts where the one before ends and is as
    long as its own, non-empty, text, the last ends at the length of the
    text, and the texts of the spans in order spell the text. *)
Theorem flattenInlineBlock_spans_spell_text (block : node) :
  tiled 0 (snd (flattenInlineBlock block))
    (len (fst (flattenInlineBlock block))) /\
  ctext (snd (flattenInlineBlock block)) = fst (flattenInlineBlock block).
Proof.
  split; [apply flattenInlineBlock_tiled | apply flattenInlineBlock_ctext].
Qed.

(** Building a block from spans and flattening it gives back the text of
    the spans, whatever their formatting. *)
Theorem build_then_flatten_gives_text (ty : string) (d : json)
    (spans : list span) :
  fst (flattenInlineBlock (buildInlineBlockFromSpans ty d spans))
  = ctext spans /\
  nodeType (buildInlineBlockFromSpans ty d spans) = ty.
Proof. split; [apply build_then_flatten_text | reflexivity]. Qed.

(** The text of an inline-merged block is the plain-text merge of the
    texts of the two blocks: the structured merge and the string merge
    agree on text. *)
Theorem mergeInlineBlock_text_is_text_merge (dmp : engine)
    (srcBlock tgtBlock : node) :
  edit_script
    (diff_of dmp (fst (flattenInlineBlock tgtBlock))
       (fst (flattenInlineBlock srcBlock)))
    (fst (flattenInlineBlock tgtBlock)) (fst (flattenInlineBlock srcBlock)) ->
  fst (flattenInlineBlock (mergeInlineBlock dmp srcBlock tgtBlock))
  = mergeSourceAdditionsIntoTarget dmp
      (fst (flattenInlineBlock srcBlock)) (fst (flattenInlineBlock tgtBlock)).
Proof.
  intros (Hok & H1 & H2).
  unfold mergeInlineBlock, mergeSourceAdditionsIntoTarget.
  rewrite build_then_flatten_text. unfold rebuildSpansFromDiffs, coalesceSpans.
  rewrite coalesce_loop_ctext. cbn [app].
  rewrite merge_loop_all_text by exact Hok.
  change ("" ++ ?x)%string with x.
  apply chars_inj. rewrite chars_ctext.
  apply (rebuild_loop_keeps_target _ _ (flattenInlineBlock_tiled tgtBlock)
           (flattenInlineBlock_normalized tgtBlock)); [lia | exact Hok|].
  change (Z.to_nat 0) with 0%nat. rewrite drop_0.
  rewrite <- chars_ctext, flattenInlineBlock_ctext.
  now rewrite H1.
Qed.

Lemma mergeInlineBlock_text_is_text_merge_witness :
  fst (flattenInlineBlock
         (mergeInlineBlock Dmp.simple
            Samples.italic_hello_brave_world Samples.bold_hello_world))
  = mergeSourceAdditionsIntoTarget Dmp.simple
      (fst (flattenInlineBlock Samples.italic_hello_brave_world))
      (fst (flattenInlineBlock Samples.bold_hello_world)).
Proof.
  apply (mergeInlineBlock_text_is_text_merge Dmp.simple
           Samples.italic_hello_brave_world Samples.bold_hello_world).
  vm_compute. repeat split; reflexivity.
Defined.

(** The inline merge keeps every character of the target block with the
    formatting it has there, in order: the characters of the rebuilt spans,
    each with its formatting (up to the order of the marks), have the
    formatted characters of the target as a subsequence. *)
Theorem inline_merge_keeps_target_formatting (dmp : engine)
    (srcBlock tgtBlock : node) :
  edit_script
    (diff_of dmp (fst (flattenInlineBlock tgtBlock))
       (fst (flattenInlineBlock srcBlock)))
    (fst (flattenInlineBlock tgtBlock)) (fst (flattenInlineBlock srcBlock)) ->
  exists merged : list (ascii * format),
    Forall2 same_char_format
      (char_formats
         (rebuildSpansFromDiffs
            (diff_of dmp (fst (flattenInlineBlock tgtBlock))
               (fst (flattenInlineBlock srcBlock)))
            (snd (flattenInlineBlock tgtBlock))))
      merged /\
    char_formats (snd (flattenInlineBlock tgtBlock)) `sublist_of` merged.
Proof.
  intros (Hok & H1 & H2).
  exists (char_formats
            (rebuild_loop
               (diff_of dmp (fst (flattenInlineBlock tgtBlock))
                  (fst (flattenInlineBlock srcBlock)))
               (snd (flattenInlineBlock tgtBlock)) [] 0)).
  split; [apply coalesceSpans_formats|].
  destruct (rebuild_loop_keeps_target _ _ (flattenInlineBlock_tiled tgtBlock)
              (flattenInlineBlock_normalized tgtBlock)
              (diff_of dmp (fst (flattenInlineBlock tgtBlock))
                 (fst (flattenInlineBlock srcBlock))) 0) as [_ Hsub];
    [lia | exact Hok | | exact Hsub].
  change (Z.to_nat 0) with 0%nat. rewrite drop_0.
  rewrite <- chars_ctext, flattenInlineBlock_ctext.
  now rewrite H1.
Qed.

Lemma inline_merge_keeps_target_formatting_witness :
  exists merged : list (ascii * format),
    Forall2 same_char_format
      (char_formats
         (rebuildSpansFromDiffs
            (diff_of Dmp.simple
               (fst (flattenInlineBlock Samples.bold_hello_world))
               (fst (flattenInlineBlock Samples.italic_hello_brave_world)))
            (snd (flattenInlineBlock Samples.bold_hello_world))))
      merged /\
    char_formats (snd (flattenInlineBlock Samples.bold_hello_world))
      `sublist_of` merged.
Proof.
  apply (inline_merge_keeps_target_formatting Dmp.simple
           Samples.italic_hello_brave_world Samples.bold_hello_world).
  vm_compute. repeat split; reflexivity.
Defined.

End InlineMergeFacts.

(** ** Document merge: blocks *)

Section DocumentMergeFacts.
Import Dmp RichText.

Lemma block_loop_acc (dmp : engine) (src tgt : list node) (steps : nat) :
  forall i merged,
  block_loop dmp steps i src tgt merged
  = (merged ++ block_loop dmp steps i src tgt [])%list.
Proof.
  induction steps as [|steps IH]; intros i merged.
  - simpl. now rewrite app_nil_r.
  - cbn [block_loop].
    repeat match goal with
           | |- context [match ?x with _ => _ end] => destruct x
           end;
      rewrite ?app_nil_l;
      try (rewrite IH; symmetry; rewrite IH; now rewrite app_assoc);
      apply IH.
Qed.

Lemma mergeInlineBlock_nodeType dmp s t :
  nodeType (mergeInlineBlock dmp s t) = nodeType t.
Proof. reflexivity. Qed.

Lemma set_content_nodeType n c : nodeType (set_content n c) = nodeType n.
Proof. now destruct n. Qed.

Lemma set_content_data n c : data (set_content n c) = data n.
Proof. now destruct n. Qed.

Lemma mergeListBlock_nodeType dmp s t :
  nodeType (mergeListBlock dmp s t) = nodeType t.
Proof. unfold mergeListBlock, clone. apply set_content_nodeType. Qed.

Lemma block_loop_keeps_target_kinds dmp src tgt steps :
  forall i,
  (length tgt <= i + steps)%nat ->
  map nodeType (drop i tgt)
    `sublist_of` map nodeType (block_loop dmp steps i src tgt []).
Proof.
  induction steps as [|steps IH]; intros i Hlen.
  - rewrite drop_ge by lia. constructor.
  - cbn [block_loop]. unfold clone.
    destruct (tgt !! i) as [t|] eqn:Ht.
    + rewrite (drop_S _ _ _ Ht). cbn [map].
      specialize (IH (S i) ltac:(lia)).
      destruct (src !! i) as [s|];
        repeat match goal with
               | |- context [if ?b then _ else _] => destruct b
               end;
        rewrite block_loop_acc; cbn [app map];
        rewrite ?mergeInlineBlock_nodeType, ?mergeListBlock_nodeType;
        first [ apply sublist_skip; exact IH
              | apply sublist_skip; apply sublist_cons; exact IH ].
    + apply lookup_ge_None in Ht. rewrite drop_ge by lia. apply sublist_nil_l.
Qed.

Lemma block_loop_keeps_source_kinds dmp src tgt steps :
  forall i,
  (length src <= i + steps)%nat ->
  map nodeType (drop i src)
    `sublist_of` map nodeType (block_loop dmp steps i src tgt []).
Proof.
  induction steps as [|steps IH]; intros i Hlen.
  - rewrite drop_ge by lia. constructor.
  - cbn [block_loop]. unfold clone.
    destruct (src !! i) as [s|] eqn:Hs.
    + rewrite (drop_S _ _ _ Hs). cbn [map].
      specialize (IH (S i) ltac:(lia)).
      destruct (tgt !! i) as [t|]; [|rewrite block_loop_acc; cbn [app map];
                                      apply sublist_skip; exact IH].
      destruct (String.eqb_spec (nodeType s) (nodeType t)) as [He|Hne];
        cbn [negb];
        repeat match goal with
               | |- context [if ?b then _ else _] => destruct b
               end;
        rewrite block_loop_acc; cbn [app map];
        rewrite ?mergeInlineBlock_nodeType, ?mergeListBlock_nodeType,
          <- ?He;
        first [ apply sublist_skip; exact IH
              | apply sublist_cons; apply sublist_skip; exact IH ].
    + apply lookup_ge_None in Hs. rewrite drop_ge by lia. apply sublist_nil_l.
Qed.

Lemma block_loop_keeps_opaque_blocks dmp src tgt steps :
  forall i,
  (length tgt <= i + steps)%nat ->
  List.filter
    (fun b => negb (isInlineBlockType (nodeType b) || isListType (nodeType b)))
    (drop i tgt)
    `sublist_of` block_loop dmp steps i src tgt [].
Proof.
  induction steps as [|steps IH]; intros i Hlen.
  - rewrite drop_ge by lia. constructor.
  - cbn [block_loop]. unfold clone.
    destruct (tgt !! i) as [t|] eqn:Ht.
    + rewrite (drop_S _ _ _ Ht). cbn [List.filter].
      specialize (IH (S i) ltac:(lia)).
      destruct (src !! i) as [s|].
      * destruct (negb (String.eqb (nodeType s) (nodeType t))).
        { rewrite block_loop_acc. cbn [app].
          destruct (negb _); [apply sublist_skip | apply sublist_cons];
            apply sublist_cons; exact IH. }
        destruct (isInlineBlockType (nodeType t)).
        { cbn [orb negb]. rewrite block_loop_acc. cbn [app].
          apply sublist_cons. exact IH. }
        destruct (isListType (nodeType t)).
        { cbn [orb negb]. rewrite block_loop_acc. cbn [app].
          apply sublist_cons. exact IH. }
        cbn [orb negb].
        destruct (jsonEq s t); rewrite block_loop_acc; cbn [app].
        -- apply sublist_skip. exact IH.
        -- apply sublist_skip. apply sublist_cons. exact IH.
      * rewrite block_loop_acc. cbn [app].
        destruct (negb _); [apply sublist_skip | apply sublist_cons]; exact IH.
    + apply lookup_ge_None in Ht. rewrite drop_ge by lia. apply sublist_nil_l.
Qed.

(** Merging two documents is insert-only on blocks.  The result is a
    document with the target's [data]; the node kinds of the target's
    blocks, and those of the source's blocks, occur in the merged blocks in
    their order; and every target block that is neither inline-bearing nor
    a list is in the merged blocks as it is. *)
Theorem document_merge_keeps_blocks (dmp : engine) (sourceDoc targetDoc : node) :
  isRichTextDocument sourceDoc = true ->
  isRichTextDocument targetDoc = true ->
  let merged := mergeRichTextDocuments dmp sourceDoc targetDoc in
  isRichTextDocument merged = true /\
  data merged = data targetDoc /\
  map nodeType (content_or_empty targetDoc)
    `sublist_of` map nodeType (content_or_empty merged) /\
  map nodeType (content_or_empty sourceDoc)
    `sublist_of` map nodeType (content_or_empty merged) /\
  List.filter
    (fun b => negb (isInlineBlockType (nodeType b) || isListType (nodeType b)))
    (content_or_empty targetDoc)
    `sublist_of` content_or_empty merged.
Proof.
  intros Hs Ht merged. subst merged. unfold mergeRichTextDocuments.
  rewrite Hs, Ht. cbn [negb orb].
  unfold coalesceAdjacentTextNodesInBlocks, clone.
  destruct targetDoc as [ty d c v m].
  unfold isRichTextDocument in Ht |- *. cbn [nodeType content set_content] in *.
  apply andb_true_iff in Ht as [Hty _]. rewrite Hty.
  unfold content_or_empty at 3 5 7. cbn [content data].
  set (src := content_or_empty sourceDoc).
  set (tgt := content_or_empty (Node ty d c v m)).
  repeat split.
  - apply (block_loop_keeps_target_kinds dmp src tgt _ 0%nat). lia.
  - apply (block_loop_keeps_source_kinds dmp src tgt _ 0%nat). lia.
  - apply (block_loop_keeps_opaque_blocks dmp src tgt _ 0%nat). lia.
Qed.

Lemma document_merge_keeps_blocks_witness :
  map nodeType (content_or_empty Samples.two_blocks)
    `sublist_of`
    map nodeType
      (content_or_empty
         (mergeRichTextDocuments Dmp.simple Samples.three_blocks
            Samples.two_blocks)).
Proof.
  apply (document_merge_keeps_blocks Dmp.simple Samples.three_blocks
           Samples.two_blocks); reflexivity.
Defined.

Lemma block_loop_empty_source dmp tgt steps :
  forall i,
  block_loop dmp steps i [] tgt [] = take steps (drop i tgt).
Proof.
  induction steps as [|steps IH]; intros i; [reflexivity|].
  cbn [block_loop]. rewrite lookup_nil. unfold clone.
  destruct (tgt !! i) as [t|] eqn:Ht.
  - rewrite block_loop_acc, IH, (drop_S _ _ _ Ht). reflexivity.
  - rewrite IH. apply lookup_ge_None in Ht.
    now rewrite !drop_ge, !take_nil by lia.
Qed.

Lemma block_loop_empty_target dmp src steps :
  forall i,
  block_loop dmp steps i src [] [] = take steps (drop i src).
Proof.
  induction steps as [|steps IH]; intros i; [reflexivity|].
  cbn [block_loop]. rewrite lookup_nil. unfold clone.
  destruct (src !! i) as [s|] eqn:Hs.
  - rewrite block_loop_acc, IH, (drop_S _ _ _ Hs). reflexivity.
  - rewrite IH. apply lookup_ge_None in Hs.
    now rewrite !drop_ge, !take_nil by lia.
Qed.

(** The edge cases of the document merge.  If either side is not a
    document with a [content] array, the target comes back as it is.  A
    source document without blocks leaves the target document as it is; a
    target document without blocks takes over the blocks of the source. *)
Theorem document_merge_edge_cases (dmp : engine) (sourceDoc targetDoc : node) :
  (isRichTextDocument sourceDoc = false \/
   isRichTextDocument targetDoc = false ->
   mergeRichTextDocuments dmp sourceDoc targetDoc = targetDoc) /\
  (isRichTextDocument sourceDoc = true ->
   isRichTextDocument targetDoc = true ->
   content sourceDoc = Some [] ->
   mergeRichTextDocuments dmp sourceDoc targetDoc = targetDoc) /\
  (isRichTextDocument sourceDoc = true ->
   isRichTextDocument targetDoc = true ->
   content targetDoc = Some [] ->
   mergeRichTextDocuments dmp sourceDoc targetDoc
   = set_content targetDoc (content_or_empty sourceDoc)).
Proof.
  unfold mergeRichTextDocuments, coalesceAdjacentTextNodesInBlocks, clone.
  split; [|split].
  - intros [H|H]; rewrite H; [reflexivity|]. now rewrite orb_true_r.
  - intros Hs Ht Hc. rewrite Hs, Ht. cbn [negb orb].
    unfold content_or_empty at 1 3. rewrite Hc.
    rewrite block_loop_empty_source. cbn [length Nat.max].
    rewrite drop_0, take_ge by lia.
    destruct targetDoc as [ty d c v m]. unfold isRichTextDocument in Ht.
    cbn [content nodeType] in *. destruct c as [l|]; [reflexivity|].
    now rewrite andb_false_r in Ht.
  - intros Hs Ht Hc. rewrite Hs, Ht. cbn [negb orb].
    unfold content_or_empty at 2 4. rewrite Hc.
    rewrite block_loop_empty_target. cbn [length]. rewrite Nat.max_0_r.
    now rewrite drop_0, take_ge by lia.
Qed.

Lemma document_merge_edge_cases_witness :
  mergeRichTextDocuments Dmp.simple (Samples.document []) Samples.two_blocks
  = Samples.two_blocks /\
  mergeRichTextDocuments Dmp.simple Samples.two_blocks (Samples.document [])
  = Samples.two_blocks /\
  mergeRichTextDocuments Dmp.simple Samples.two_blocks
    (Samples.paragraph [])
  = Samples.paragraph [].
Proof.
  destruct (document_merge_edge_cases Dmp.simple (Samples.document [])
              Samples.two_blocks) as (_ & H1 & _).
  destruct (document_merge_edge_cases Dmp.simple Samples.two_blocks
              (Samples.document [])) as (_ & _ & H2).
  destruct (document_merge_edge_cases Dmp.simple Samples.two_blocks
              (Samples.paragraph [])) as (H3 & _).
  split; [apply H1; reflexivity|]. split; [apply H2; reflexivity|].
  apply H3. right. reflexivity.
Defined.

Lemma item_loop_acc (dmp : engine) (src tgt : list node) (steps : nat) :
  forall i merged,
  item_loop dmp steps i src tgt merged
  = (merged ++ item_loop dmp steps i src tgt [])%list.
Proof.
  induction steps as [|steps IH]; intros i merged.
  - simpl. now rewrite app_nil_r.
  - cbn [item_loop].
    repeat match goal with
           | |- context [match ?x with _ => _ end] => destruct x
           end;
      rewrite ?app_nil_l;
      try (rewrite IH; symmetry; rewrite IH; now rewrite app_assoc);
      apply IH.
Qed.

Lemma item_loop_length (dmp : engine) (src tgt : list node) (steps : nat) :
  forall i,
  (i + steps <= Nat.max (length src) (length tgt))%nat ->
  length (item_loop dmp steps i src tgt [])
  = (steps + length (List.filter (Spans.kind_mismatch src tgt) (seq i steps)))%nat.
Proof.
  induction steps as [|steps IH]; intros i Hle; [reflexivity|].
  cbn [item_loop seq List.filter]. unfold clone.
  pose proof (eq_refl (Spans.kind_mismatch src tgt i)) as Hp.
  unfold Spans.kind_mismatch at 2 in Hp.
  destruct (tgt !! i) as [t|] eqn:Ht; destruct (src !! i) as [s|] eqn:Hs.
  - destruct (negb (String.eqb (nodeType s) (nodeType t)));
      rewrite Hp, item_loop_acc, length_app, IH by lia; simpl; lia.
  - rewrite Hp, item_loop_acc, length_app, IH by lia. simpl. lia.
  - rewrite Hp, item_loop_acc, length_app, IH by lia. simpl. lia.
  - apply lookup_ge_None in Ht, Hs. lia.
Qed.

Lemma item_loop_keeps_target_kinds dmp src tgt steps :
  forall i,
  (length tgt <= i + steps)%nat ->
  map nodeType (drop i tgt)
    `sublist_of` map nodeType (item_loop dmp steps i src tgt []).
Proof.
  induction steps as [|steps IH]; intros i Hlen.
  - rewrite drop_ge by lia. constructor.
  - cbn [item_loop]. unfold clone.
    destruct (tgt !! i) as [t|] eqn:Ht.
    + rewrite (drop_S _ _ _ Ht). cbn [map].
      specialize (IH (S i) ltac:(lia)).
      destruct (src !! i) as [s|];
        repeat match goal with
               | |- context [if ?b then _ else _] => destruct b
               end;
        rewrite item_loop_acc; cbn [app map];
        rewrite ?set_content_nodeType;
        first [ apply sublist_skip; exact IH
              | apply sublist_skip; apply sublist_cons; exact IH ].
    + apply lookup_ge_None in Ht. rewrite drop_ge by lia. apply sublist_nil_l.
Qed.

(** [mergeListBlock] returns the target list with merged items: the kind
    and the [data] of the list are the target's, there is one item per
    index up to the longer side and one more for every index at which the
    two items differ in kind, and the kinds of the target's items occur in
    the merged items in their order. *)
Theorem mergeListBlock_keeps_items (dmp : engine) (srcList tgtList : node) :
  let merged := mergeListBlock dmp srcList tgtList in
  let src := content_or_empty srcList in
  let tgt := content_or_empty tgtList in
  let n := Nat.max (length src) (length tgt) in
  nodeType merged = nodeType tgtList /\
  data merged = data tgtList /\
  length (content_or_empty merged)
  = (n + length (List.filter (Spans.kind_mismatch src tgt) (seq 0 n)))%nat /\
  map nodeType tgt `sublist_of` map nodeType (content_or_empty merged).
Proof.
  cbn zeta. unfold mergeListBlock, clone.
  destruct tgtList as [ty d c v m].
  cbn [set_content nodeType data content_or_empty content].
  repeat split.
  - rewrite item_loop_length by lia. reflexivity.
  - apply (item_loop_keeps_target_kinds dmp _ _ _ 0%nat).
    cbn [Nat.add]. apply Nat.le_max_r.
Qed.

End DocumentMergeFacts.

(** ** Adoption: what the loop over the fields does *)

Section FieldLoopFacts.
Import Dmp RichText AdoptTree Selection.

Lemma add_ref_changed acc r : changed (add_ref acc r) = changed acc.
Proof. now destruct r. Qed.

Lemma add_refs_changed ids acc :
  changed (fold_left (fun a id => add_ref a (Some id)) ids acc) = changed acc.
Proof.
  revert acc. induction ids as [|i ids IH]; intros acc; [reflexivity|].
  simpl. now rewrite IH.
Qed.

(** A field that is not localized, or that is not selected while
    [adoptAll] is off, is never written and never counted; its links are
    still collected for the traversal. *)
Theorem unselected_field_is_left_alone (dmp : engine) (cfg : config)
    (entryId : string) (fields : field_map) (acc : field_acc)
    (def : field_def) :
  fd_localized def = false \/ allowed cfg entryId (fd_id def) = false ->
  newFields (process_field dmp cfg entryId fields acc def) = newFields acc /\
  changed (process_field dmp cfg entryId fields acc def) = changed acc.
Proof.
  intros H. unfold process_field.
  destruct (lookup_prop (fd_id def) fields) as [lv|]; [|auto].
  destruct H as [Hloc|Hall].
  - rewrite Hloc.
    destruct (is_entry_link def);
      [rewrite add_ref_newFields, add_ref_changed; auto|].
    destruct (is_entry_link_array def);
      [rewrite add_refs_newFields, add_refs_changed; auto | auto].
  - unfold allowed in Hall. rewrite Hall.
    apply orb_false_iff in Hall as [Ha He]. rewrite Ha, He.
    rewrite !andb_false_r. cbn [andb negb].
    destruct (is_entry_link def).
    { destruct (fd_localized def);
        rewrite add_ref_newFields, add_ref_changed;
        repeat match goal with
               | |- context [match ?x with _ => _ end] => destruct x
               end; auto. }
    destruct (is_entry_link_array def).
    { destruct (fd_localized def);
        rewrite add_refs_newFields, add_refs_changed;
        repeat match goal with
               | |- context [match ?x with _ => _ end] => destruct x
               end; auto. }
    destruct (fd_localized def); auto.
Qed.

Lemma unselected_field_is_left_alone_witness :
  newFields
    (process_field Dmp.simple
       {| sourceLocale := "en-US"; targetLocale := "de-DE";
          defaultLocale := "en-US"; selected := [("entry1", ["title"])];
          adoptAll := false |}
       "entry1"
       [("body", [("en-US", FJ (JStr "new text"))])]
       {| newFields := [("body", [("en-US", FJ (JStr "new text"))])];
          changed := 0; refIds := [] |}
       body_field)
  = [("body", [("en-US", FJ (JStr "new text"))])].
Proof.
  apply (unselected_field_is_left_alone Dmp.simple
           {| sourceLocale := "en-US"; targetLocale := "de-DE";
              defaultLocale := "en-US"; selected := [("entry1", ["title"])];
              adoptAll := false |}
           "entry1"
           [("body", [("en-US", FJ (JStr "new text"))])]
           {| newFields := [("body", [("en-US", FJ (JStr "new text"))])];
              changed := 0; refIds := [] |}
           body_field).
  right. reflexivity.
Defined.

(** *** Counting changes *)

Lemma nullish_not_truthy v : nullish v = true -> truthy_val v = false.
Proof. destruct v as [[[]|]|]; simpl; congruence. Qed.

Lemma nullish_not_array v : nullish v = true -> isArray v = false.
Proof. destruct v as [[[]|]|]; simpl; congruence. Qed.

Lemma kept_refl acc : kept_or_counted acc acc.
Proof. left. auto. Qed.

Lemma counted_write_target cfg fid lv v acc :
  kept_or_counted acc (write_target cfg fid lv v acc).
Proof. right. reflexivity. Qed.

Lemma kept_write_clone cfg fid lv v acc :
  kept_or_counted acc (write_clone cfg fid lv v acc).
Proof. destruct v; [apply counted_write_target | apply kept_refl]. Qed.

Lemma kept_add_ref acc acc' r :
  kept_or_counted acc acc' -> kept_or_counted acc (add_ref acc' r).
Proof.
  unfold kept_or_counted. rewrite add_ref_newFields, add_ref_changed. auto.
Qed.

Lemma kept_add_refs acc acc' ids :
  kept_or_counted acc acc' ->
  kept_or_counted acc (fold_left (fun a id => add_ref a (Some id)) ids acc').
Proof.
  unfold kept_or_counted. rewrite add_refs_newFields, add_refs_changed. auto.
Qed.

Lemma adopt_scalar_kept dmp cfg fid lv acc :
  kept_or_counted acc (adopt_scalar dmp cfg fid lv acc).
Proof.
  unfold adopt_scalar.
  repeat match goal with
         | |- kept_or_counted ?a ?a => apply kept_refl
         | |- kept_or_counted _ (write_target _ _ _ _ _) =>
             apply counted_write_target
         | |- kept_or_counted _ (write_clone _ _ _ _ _) =>
             apply kept_write_clone
         | |- context [if ?b then _ else _] => destruct b
         | |- context [match ?x with _ => _ end] => destruct x
         end.
Qed.

Lemma process_field_kept dmp cfg entryId fields acc def :
  kept_or_counted acc (process_field dmp cfg entryId fields acc def).
Proof.
  unfold process_field.
  destruct (lookup_prop (fd_id def) fields) as [lv|]; [|apply kept_refl].
  destruct (is_entry_link def).
  { destruct (fd_localized def); [|apply kept_add_ref, kept_refl].
    apply kept_add_ref.
    destruct (nullish (lookup_prop (targetLocale cfg) lv)) eqn:Hn.
    - rewrite (nullish_not_truthy _ Hn), !andb_false_r. cbn [andb].
      assert (Hsame : forall a : field_acc,
                match lookup_prop (sourceLocale cfg) lv,
                      lookup_prop (targetLocale cfg) lv with
                | Some s, Some t => a
                | _, _ => a
                end = a)
        by (intros a; destruct (lookup_prop (sourceLocale cfg) lv);
            destruct (lookup_prop (targetLocale cfg) lv); reflexivity).
      rewrite Hsame.
      destruct (_ && _); [apply kept_write_clone | apply kept_refl].
    - cbn [andb].
      repeat match goal with
             | |- kept_or_counted ?a ?a => apply kept_refl
             | |- kept_or_counted _ (write_target _ _ _ _ _) =>
                 apply counted_write_target
             | |- context [if ?b then _ else _] => destruct b
             | |- context [match ?x with _ => _ end] => destruct x
             end. }
  destruct (is_entry_link_array def).
  { destruct (fd_localized def); [|apply kept_add_refs, kept_refl].
    apply kept_add_refs.
    destruct (nullish (lookup_prop (targetLocale cfg) lv)) eqn:Hn.
    - rewrite (nullish_not_array _ Hn), !andb_false_r. cbn [andb].
      assert (Hsame : forall a : field_acc,
                match lookup_prop (sourceLocale cfg) lv,
                      lookup_prop (targetLocale cfg) lv with
                | Some s, Some t => a
                | _, _ => a
                end = a)
        by (intros a; destruct (lookup_prop (sourceLocale cfg) lv);
            destruct (lookup_prop (targetLocale cfg) lv); reflexivity).
      rewrite Hsame.
      destruct (_ && _); [apply kept_write_clone | apply kept_refl].
    - cbn [andb].
      repeat match goal with
             | |- kept_or_counted ?a ?a => apply kept_refl
             | |- kept_or_counted _ (write_target _ _ _ _ _) =>
                 apply counted_write_target
             | |- context [if ?b then _ else _] => destruct b
             | |- context [match ?x with _ => _ end] => destruct x
             end. }
  destruct (fd_localized def); [|apply kept_refl].
  destruct (_ && _); [apply kept_refl | apply adopt_scalar_kept].
Qed.

Lemma fold_process_field_counts dmp cfg entryId fields defs :
  forall acc,
  let acc' := fold_left (process_field dmp cfg entryId fields) defs acc in
  (changed acc <= changed acc' <= changed acc + length defs)%nat /\
  (changed acc' = changed acc -> newFields acc' = newFields acc).
Proof.
  induction defs as [|def defs IH]; intros acc; cbn zeta.
  - simpl. split; [lia | auto].
  - cbn [fold_left length].
    specialize (IH (process_field dmp cfg entryId fields acc def)).
    cbn zeta in IH. destruct IH as [IH1 IH2].
    destruct (process_field_kept dmp cfg entryId fields acc def)
      as [[Hf Hc]|Hc].
    + rewrite Hc in *. split; [lia|]. intros H. rewrite IH2 by exact H.
      exact Hf.
    + rewrite Hc in *. split; [lia|]. intros H. lia.
Qed.

(** The loop over the fields counts at most one change per field
    definition, and when it counts none the fields are the fetched ones:
    nothing is written without being counted. *)
Theorem changes_are_counted (dmp : engine) (cfg : config) (e : entry)
    (ct : contentType) :
  (changed (process_fields dmp cfg e ct) <= length (ct_fields ct))%nat /\
  (changed (process_fields dmp cfg e ct) = 0%nat ->
   newFields (process_fields dmp cfg e ct) = e_fields e).
Proof.
  unfold process_fields.
  pose proof (fold_process_field_counts dmp cfg (e_id e) (e_fields e)
                (ct_fields ct)
                {| newFields := e_fields e; changed := 0; refIds := [] |})
    as H.
  cbn zeta in H. cbn [changed newFields] in H. destruct H as [H1 H2].
  split; [lia | exact H2].
Qed.

(** *** Full adopt *)

(** When the target locale of a selected, localized field that is not an
    entry link has no value (absent or [null]) and the source locale has
    one, one round of the loop copies the source value under the target
    locale, counts one change, and leaves the other locales of the field
    as they are. *)
Theorem full_adopt_copies_source (dmp : engine) (cfg : config)
    (entryId : string) (fields : field_map) (acc : field_acc)
    (def : field_def) (localizedValues : locale_map) (v : fval) :
  is_entry_link def = false ->
  is_entry_link_array def = false ->
  fd_localized def = true ->
  allowed cfg entryId (fd_id def) = true ->
  lookup_prop (fd_id def) fields = Some localizedValues ->
  nullish (lookup_prop (targetLocale cfg) localizedValues) = true ->
  lookup_prop (sourceLocale cfg) localizedValues = Some v ->
  changed (process_field dmp cfg entryId fields acc def) = S (changed acc) /\
  exists written,
    lookup_prop (fd_id def)
      (newFields (process_field dmp cfg entryId fields acc def))
    = Some written /\
    lookup_prop (targetLocale cfg) written = Some v /\
    forall locale, locale <> targetLocale cfg ->
      lookup_prop locale written = lookup_prop locale localizedValues.
Proof.
  intros Hl Ha Hloc Hall Hlv Hn Hs. unfold process_field.
  rewrite Hlv, Hl, Ha, Hloc. unfold allowed in Hall.
  assert (Hskip : negb (adoptAll cfg)
                  && negb (existsb (String.eqb (fd_id def))
                             match lookup_prop entryId (selected cfg) with
                             | Some s => s
                             | None => []
                             end) = false).
  { rewrite <- negb_orb, Hall. reflexivity. }
  rewrite Hskip. unfold adopt_scalar. rewrite Hn, Hs.
  unfold write_clone, write_target, clone. cbn [changed newFields].
  split; [reflexivity|].
  exists (set_prop (targetLocale cfg) v localizedValues).
  split; [apply lookup_set_prop_eq|]. split; [apply lookup_set_prop_eq|].
  intros locale Hne. apply lookup_set_prop_ne. congruence.
Qed.

Lemma full_adopt_copies_source_witness :
  changed
    (process_field Dmp.simple adopt_all_config "entry1"
       [("body", [("en-US", FJ (JStr "Welcome"))])]
       {| newFields := [("body", [("en-US", FJ (JStr "Welcome"))])];
          changed := 0; refIds := [] |}
       body_field)
  = 1%nat /\
  exists written,
    lookup_prop (fd_id body_field)
      (newFields
         (process_field Dmp.simple adopt_all_config "entry1"
            [("body", [("en-US", FJ (JStr "Welcome"))])]
            {| newFields := [("body", [("en-US", FJ (JStr "Welcome"))])];
               changed := 0; refIds := [] |}
            body_field))
    = Some written /\
    lookup_prop (targetLocale adopt_all_config) written
    = Some (FJ (JStr "Welcome")) /\
    forall locale, locale <> targetLocale adopt_all_config ->
      lookup_prop locale written
      = lookup_prop locale [("en-US", FJ (JStr "Welcome"))].
Proof.
  apply (full_adopt_copies_source Dmp.simple adopt_all_config "entry1"
           [("body", [("en-US", FJ (JStr "Welcome"))])]
           {| newFields := [("body", [("en-US", FJ (JStr "Welcome"))])];
              changed := 0; refIds := [] |}
           body_field [("en-US", FJ (JStr "Welcome"))]
           (FJ (JStr "Welcome")));
    reflexivity.
Defined.

(** *** The ids to recurse into *)

Lemma set_add_distinct id s :
  id <> "" -> distinct_ids s -> distinct_ids (set_add id s).
Proof.
  intros Hne [Hn Hf]. unfold set_add.
  destruct (existsb (String.eqb id) s) eqn:E; [split; assumption|].
  split.
  - apply NoDup_app. split; [exact Hn|]. split; [|apply NoDup_singleton].
    intros x Hx Hx'. apply list_elem_of_singleton in Hx'. subst x.
    assert (existsb (String.eqb id) s = true); [|congruence].
    apply existsb_exists. exists id. split; [now apply list_elem_of_In|].
    apply String.eqb_refl.
  - apply Forall_app. split; [exact Hf|]. constructor; [exact Hne|constructor].
Qed.

Lemma link_id_json_nonempty l i : link_id_json l = Some i -> i <> "".
Proof.
  unfold link_id_json.
  destruct (get (get (Some l) "sys") "id") as [[| | |s| |]|]; try discriminate.
  destruct (String.eqb_spec s ""); [discriminate|]. now intros [= <-].
Qed.

Lemma link_id_nonempty v i : link_id v = Some i -> i <> "".
Proof.
  destruct v as [[j|d]|]; simpl; try discriminate. apply link_id_json_nonempty.
Qed.

Lemma link_ids_nonempty v : Forall (fun i => i <> "") (link_ids v).
Proof.
  destruct v as [[[| | | |items|]|d]|]; simpl; try constructor.
  induction items as [|l items IH]; simpl; [constructor|].
  destruct (link_id_json l) as [i|] eqn:E; [|exact IH].
  constructor; [now apply (link_id_json_nonempty l) | exact IH].
Qed.

Lemma add_ref_distinct acc r :
  (forall i, r = Some i -> i <> "") ->
  distinct_ids (refIds acc) -> distinct_ids (refIds (add_ref acc r)).
Proof.
  intros Hr H. destruct r as [i|]; [|exact H].
  cbn [add_ref refIds]. apply set_add_distinct; auto.
Qed.

Lemma add_refs_distinct ids :
  forall acc,
  Forall (fun i => i <> "") ids ->
  distinct_ids (refIds acc) ->
  distinct_ids (refIds (fold_left (fun a id => add_ref a (Some id)) ids acc)).
Proof.
  induction ids as [|i ids IH]; intros acc Hf H; [exact H|].
  apply Forall_cons in Hf as [Hi Hf]. cbn [fold_left]. apply IH; [exact Hf|].
  apply add_ref_distinct; [|exact H]. now intros j [= <-].
Qed.

Lemma write_clone_refIds cfg fid lv v acc :
  refIds (write_clone cfg fid lv v acc) = refIds acc.
Proof. now destruct v. Qed.

Lemma adopt_scalar_refIds dmp cfg fid lv acc :
  refIds (adopt_scalar dmp cfg fid lv acc) = refIds acc.
Proof.
  unfold adopt_scalar.
  repeat match goal with
         | |- context [if ?b then _ else _] => destruct b
         | |- context [match ?x with _ => _ end] => destruct x
         end; rewrite ?write_clone_refIds; reflexivity.
Qed.

Lemma process_field_distinct dmp cfg entryId fields acc def :
  distinct_ids (refIds acc) ->
  distinct_ids (refIds (process_field dmp cfg entryId fields acc def)).
Proof.
  intros H. unfold process_field.
  destruct (lookup_prop (fd_id def) fields) as [lv|]; [|exact H].
  destruct (is_entry_link def).
  { destruct (fd_localized def).
    - apply add_ref_distinct.
      + intros i Hi.
        destruct (link_id (lookup_prop (sourceLocale cfg) lv)) as [j|] eqn:E.
        * inversion Hi. subst. now apply (link_id_nonempty _ _ E).
        * now apply (link_id_nonempty _ _ Hi).
      + repeat match goal with
               | |- context [if ?b then _ else _] => destruct b
               | |- context [match ?x with _ => _ end] => destruct x
               end; rewrite ?write_clone_refIds; exact H.
    - apply add_ref_distinct; [|exact H].
      intros i Hi. now apply (link_id_nonempty _ _ Hi). }
  destruct (is_entry_link_array def).
  { destruct (fd_localized def).
    - apply add_refs_distinct.
      + apply Forall_app. split; apply link_ids_nonempty.
      + repeat match goal with
               | |- context [if ?b then _ else _] => destruct b
               | |- context [match ?x with _ => _ end] => destruct x
               end; rewrite ?write_clone_refIds; exact H.
    - apply add_refs_distinct; [apply link_ids_nonempty | exact H]. }
  destruct (fd_localized def); [|exact H].
  destruct (_ && _); [exact H|]. now rewrite adopt_scalar_refIds.
Qed.

(** The ids the traversal recurses into after an entry are distinct and
    none is empty. *)
Theorem refIds_are_distinct (dmp : engine) (cfg : config) (e : entry)
    (ct : contentType) :
  NoDup (refIds (process_fields dmp cfg e ct)) /\
  Forall (fun i => i <> "") (refIds (process_fields dmp cfg e ct)).
Proof.
  change (distinct_ids (refIds (process_fields dmp cfg e ct))).
  unfold process_fields.
  assert (H : distinct_ids
                (refIds {| newFields := e_fields e; changed := 0;
                           refIds := [] |}))
    by (split; constructor).
  revert H. generalize {| newFields := e_fields e; changed := 0; refIds := [] |}.
  induction (ct_fields ct) as [|def defs IH]; intros acc H; [exact H|].
  cbn [fold_left]. apply IH. now apply process_field_distinct.
Qed.

End FieldLoopFacts.

(** ** Adoption: what a traversal reports and changes *)

Section TraversalAccounting.
Import Dmp RichText AdoptTree Selection.

Lemma accounted_refl st before :
  accounted st st before (Done before) [] [].
Proof.
  unfold accounted. rewrite !app_nil_r. repeat split; auto; simpl; lia.
Qed.

Lemma accounted_trans st1 st2 st3 s0 s1 r n1 n2 w1 w2 :
  accounted st1 st2 s0 (Done s1) n1 w1 ->
  accounted st2 st3 s1 r n2 w2 ->
  accounted st1 st3 s0 r (n1 ++ n2) (w1 ++ w2).
Proof.
  intros (Hf1 & Hw1 & He1 & Ht1 & Hu1 & Hc1) (Hf2 & Hw2 & He2 & Hr).
  unfold accounted. rewrite Hf2, Hf1, Hw2, Hw1, !app_assoc.
  split; [reflexivity|]. split; [reflexivity|]. split.
  - intros x. rewrite map_app, elem_of_app.
    destruct (He2 x) as [H|H]; [|auto]. rewrite H.
    destruct (He1 x) as [H'|H']; auto.
  - destruct r as [s|err]; [|exact I]. destruct Hr as (Ht2 & Hu2 & Hc2).
    rewrite !length_app. repeat split; lia.
Qed.

Lemma adopt_children_accounted w fuel :
  (forall st id r st',
     adoptEntryTree fuel w st id = Some (r, st') ->
     exists new wnew, accounted st st' zero_summary r new wnew) ->
  forall ids st sum r st',
    adopt_children (adoptEntryTree fuel w) ids st sum = Some (r, st') ->
    exists new wnew, accounted st st' sum r new wnew.
Proof.
  intros IH ids. induction ids as [|c rest IHids]; intros st sum r st' Hrun.
  - cbn in Hrun. inversion Hrun. subst. exists [], []. apply accounted_refl.
  - cbn [adopt_children] in Hrun.
    destruct (adoptEntryTree fuel w st c) as [[rc st1]|] eqn:Hc;
      [|discriminate].
    destruct (IH _ _ _ _ Hc) as (n1 & w1 & Hf1 & Hw1 & He1 & Hr1).
    destruct rc as [s|err].
    + destruct (IHids _ _ _ _ Hrun) as (n2 & w2 & Hacc2).
      exists (n1 ++ n2)%list, (w1 ++ w2)%list.
      apply (accounted_trans st st1 st' sum (add_summary sum s)); [|exact Hacc2].
      destruct Hr1 as (Ht & Hu & Hcf).
      unfold accounted, add_summary. cbn [traversedEntries updatedEntries
                                            changedFields zero_summary] in *.
      repeat split; auto; lia.
    + inversion Hrun. subst. exists n1, w1. unfold accounted. auto.
Qed.

Lemma adoptEntryTree_accounted w fuel :
  forall st id r st',
    adoptEntryTree fuel w st id = Some (r, st') ->
    exists new wnew, accounted st st' zero_summary r new wnew.
Proof.
  induction fuel as [|fuel IH]; intros st id r st' Hrun; [discriminate|].
  cbn [adoptEntryTree] in Hrun.
  destruct (String.eqb id "" || bool_decide (id ∈ visited st)).
  { inversion Hrun. subst. exists [], []. apply accounted_refl. }
  destruct (entries (visit st id) !! id) as [e|] eqn:He.
  2: { inversion Hrun. subst. exists [id], []. unfold accounted, visit. cbn.
       rewrite app_nil_r. auto. }
  destruct (get_contentType w (visit st id) (e_contentType e))
    as [[ct st2]|] eqn:Hct.
  2: { inversion Hrun. subst. exists [id], []. unfold accounted, visit. cbn.
       rewrite app_nil_r. auto. }
  destruct (get_contentType_same _ _ _ _ _ Hct) as (Hv2 & He2 & Hf2 & Hw2).
  set (acc := process_fields (dmp w) (cfg w) e ct) in *.
  destruct (0 <? changed acc)%nat eqn:Hch.
  - destruct (entry_update st2 id e (with_fields e (newFields acc)))
      as [ru st3] eqn:Hu.
    assert (Hst3 : accounted st st3 zero_summary
                     (match ru with
                      | Done _ => Done {| updatedEntries := 1;
                                          changedFields := changed acc;
                                          traversedEntries := 1 |}
                      | Failed err => Failed err
                      end)
                     [id]
                     (match ru with
                      | Done _ => [(id, e, with_fields e (newFields acc))]
                      | Failed _ => []
                      end)).
    { unfold entry_update in Hu.
      destruct (entries st2 !! id) as [stored|].
      - destruct (e_version stored =? e_version (with_fields e (newFields acc)));
          inversion Hu; subst; unfold accounted; cbn;
          rewrite Hf2, Hw2, He2; cbn; rewrite ?app_nil_r.
        + apply Nat.ltb_lt in Hch. repeat split; auto; try lia.
          intros x. destruct (decide (x = id)) as [->|Hne].
          * right. apply list_elem_of_here.
          * left. now rewrite lookup_insert_ne by congruence.
        + repeat split; auto.
      - inversion Hu. subst. unfold accounted. cbn.
        rewrite Hf2, Hw2, He2. cbn. rewrite ?app_nil_r. repeat split; auto. }
    destruct ru as [[]|err].
    + destruct (adopt_children_accounted w fuel IH _ _ _ _ _ Hrun)
        as (n & wn & Hacc).
      exists ([id] ++ n)%list, ([(id, e, with_fields e (newFields acc))] ++ wn)%list.
      eapply accounted_trans; [exact Hst3 | exact Hacc].
    + inversion Hrun. subst. eexists _, _. exact Hst3.
  - assert (Hst2 : accounted st st2 zero_summary
                     (Done {| updatedEntries := 0; changedFields := 0;
                              traversedEntries := 1 |}) [id] []).
    { unfold accounted. rewrite Hf2, Hw2, He2. cbn. rewrite app_nil_r.
      repeat split; auto. }
    destruct (adopt_children_accounted w fuel IH _ _ _ _ _ Hrun)
      as (n & wn & Hacc).
    exists ([id] ++ n)%list, ([] ++ wn)%list.
    eapply accounted_trans; [exact Hst2 | exact Hacc].
Qed.

(** With more fuel than the store has entries a traversal from a fresh
    visited set returns, and a summary it returns counts its remote calls:
    [traversedEntries] is the number of entries it fetched,
    [updatedEntries] the number of updates it sent, and no more entries
    are reported updated than fields changed. *)
Theorem summary_counts_remote_calls (w : world) (store : gmap string entry)
    (rootId : string) (fuel : nat) :
  (size (dom store) < fuel)%nat ->
  exists r st',
    adoptEntryTree fuel w (initial store) rootId = Some (r, st') /\
    match r with
    | Done s =>
        traversedEntries s = length (fetched st') /\
        updatedEntries s = length (written st') /\
        (updatedEntries s <= changedFields s)%nat
    | Failed _ => True
    end.
Proof.
  intros Hfuel.
  destruct (adoptEntryTree_total w fuel (initial store) rootId)
    as (r & st' & new0 & Hrun & _).
  { unfold unvisited, initial. cbn.
    replace (dom store ∖ ∅) with (dom store) by set_solver. exact Hfuel. }
  exists r, st'. split; [exact Hrun|].
  destruct (adoptEntryTree_accounted w fuel _ _ _ _ Hrun)
    as (new & wnew & Hf & Hw & _ & Hr).
  destruct r as [s|err]; [|exact I]. destruct Hr as (Ht & Hu & Hc).
  cbn in Hf, Hw, Ht, Hu, Hc. rewrite Hf, Hw, Ht, Hu. repeat split.
  rewrite <- Hu. apply Hc. lia.
Qed.

Lemma summary_counts_remote_calls_witness :
  exists r st',
    adoptEntryTree 3 Cycle.cyclic_world (initial Cycle.cyclic_store) "A"
    = Some (r, st') /\
    match r with
    | Done s =>
        traversedEntries s = length (fetched st') /\
        updatedEntries s = length (written st') /\
        (updatedEntries s <= changedFields s)%nat
    | Failed _ => True
    end.
Proof.
  apply (summary_counts_remote_calls Cycle.cyclic_world Cycle.cyclic_store
           "A" 3).
  vm_compute. lia.
Defined.

(** A traversal, whether it returns a summary or fails on the way, leaves
    every stored entry as it was, except the entries it sent an update
    for. *)
Theorem traversal_changes_updated_entries_only (w : world)
    (store : gmap string entry) (rootId : string) (fuel : nat) :
  (size (dom store) < fuel)%nat ->
  exists r st',
    adoptEntryTree fuel w (initial store) rootId = Some (r, st') /\
    forall id,
      entries st' !! id = store !! id \/
      id ∈ map (fun p => fst (fst p)) (written st').
Proof.
  intros Hfuel.
  destruct (adoptEntryTree_total w fuel (initial store) rootId)
    as (r & st' & new0 & Hrun & _).
  { unfold unvisited, initial. cbn.
    replace (dom store ∖ ∅) with (dom store) by set_solver. exact Hfuel. }
  exists r, st'. split; [exact Hrun|]. intros id.
  destruct (adoptEntryTree_accounted w fuel _ _ _ _ Hrun)
    as (new & wnew & _ & Hw & He & _).
  cbn in Hw. rewrite Hw. apply He.
Qed.

Lemma traversal_changes_updated_entries_only_witness :
  exists r st',
    adoptEntryTree 3 Cycle.cyclic_world (initial Cycle.synced_store) "A"
    = Some (r, st') /\
    forall id,
      entries st' !! id = Cycle.synced_store !! id \/
      id ∈ map (fun p => fst (fst p)) (written st').
Proof.
  apply (traversal_changes_updated_entries_only Cycle.cyclic_world
           Cycle.synced_store "A" 3).
  vm_compute. lia.
Defined.

End TraversalAccounting.


(** ** HTML rendering *)

Section HtmlFacts.
Import Dmp Html.

Lemma string_cons_app c a b : (String c a ++ b)%string = String c (a ++ b)%string.
Proof. reflexivity. Qed.

Lemma count_char_app c a b :
  count_char c (a ++ b)%string = (count_char c a + count_char c b)%nat.
Proof.
  induction a as [|x a IH]; [reflexivity|].
  rewrite string_cons_app. cbn [count_char]. destruct (Ascii.eqb x c); lia.
Qed.

Lemma replace_char_app c rep a b :
  replace_char c rep (a ++ b)%string
  = (replace_char c rep a ++ replace_char c rep b)%string.
Proof.
  induction a as [|x a IH]; [reflexivity|].
  rewrite string_cons_app. cbn [replace_char]. destruct (Ascii.eqb x c).
  - now rewrite IH, string_app_assoc.
  - now rewrite IH.
Qed.

Lemma replace_char_removes c rep s :
  count_char c rep = 0%nat -> count_char c (replace_char c rep s) = 0%nat.
Proof.
  intros Hrep. induction s as [|x s IH]; [reflexivity|].
  cbn [replace_char]. destruct (Ascii.eqb x c) eqn:E.
  - rewrite count_char_app. lia.
  - cbn [count_char]. now rewrite E.
Qed.

Lemma replace_char_keeps_absent d c rep s :
  count_char d rep = 0%nat -> count_char d s = 0%nat ->
  count_char d (replace_char c rep s) = 0%nat.
Proof.
  intros Hrep. induction s as [|x s IH]; [reflexivity|].
  cbn [replace_char count_char]. destruct (Ascii.eqb x d) eqn:Ed; [discriminate|].
  intros Hs. destruct (Ascii.eqb x c).
  - rewrite count_char_app. rewrite IH by exact Hs. lia.
  - cbn [count_char]. rewrite Ed. now apply IH.
Qed.

Lemma escapeHtml_brackets a :
  count_char "<" (escapeHtml a) = 0%nat /\
  count_char ">" (escapeHtml a) = 0%nat.
Proof.
  unfold escapeHtml. split.
  - apply replace_char_keeps_absent; [reflexivity|].
    now apply replace_char_removes.
  - now apply replace_char_removes.
Qed.

(** [escapeHtml] leaves no ["<"] and no [">"] in its result, and escaping
    a concatenation is concatenating the escaped parts. *)
Theorem escapeHtml_leaves_no_angle_brackets (a b : string) :
  count_char "<" (escapeHtml a) = 0%nat /\
  count_char ">" (escapeHtml a) = 0%nat /\
  escapeHtml (a ++ b)%string = (escapeHtml a ++ escapeHtml b)%string.
Proof.
  destruct (escapeHtml_brackets a) as [H1 H2].
  split; [exact H1|]. split; [exact H2|].
  unfold escapeHtml. now rewrite !replace_char_app.
Qed.

Lemma render_span_brackets d :
  count_char "<" (render_span d) = 2%nat /\
  count_char ">" (render_span d) = 2%nat.
Proof.
  destruct d as [op text]. unfold render_span.
  destruct (escapeHtml_brackets text) as [H1 H2].
  destruct (op =? DIFF_INSERT); [|destruct (op =? DIFF_DELETE)];
    rewrite !count_char_app, H1, H2; split; reflexivity.
Qed.

(** In the HTML of a diff every ["<"] and every [">"] belongs to a tag the
    renderer wrote, one opening and one closing tag per span of the diff:
    the text of the fields adds no markup. *)
Theorem renderDiffHtml_has_only_its_own_tags (dmp : engine)
    (source target : string) :
  count_char "<" (renderDiffHtml dmp source target)
  = (2 * length (diff_of dmp source target))%nat /\
  count_char ">" (renderDiffHtml dmp source target)
  = (2 * length (diff_of dmp source target))%nat.
Proof.
  unfold renderDiffHtml.
  induction (diff_of dmp source target) as [|d rest [IH1 IH2]];
    [split; reflexivity|].
  destruct (render_span_brackets d) as [H1 H2].
  cbn [map String.concat length].
  destruct (map render_span rest) as [|y ys] eqn:E.
  - destruct rest; [|discriminate]. cbn [length]. rewrite H1, H2. auto.
  - change ("" ++ String.concat "" (y :: ys))%string
      with (String.concat "" (y :: ys)).
    rewrite !count_char_app, H1, H2, IH1, IH2. split; lia.
Qed.

End HtmlFacts.

(** ** Locale pairs *)

Section LocaleFacts.
Import Locales.

Lemma startsWith_app s p : startsWith s p = true -> exists r, s = (p ++ r)%string.
Proof.
  revert s. induction p as [|c p IH]; intros s H.
  - exists s. reflexivity.
  - destruct s as [|d s]; [discriminate|]. cbn [startsWith] in H.
    apply andb_true_iff in H as [Hc Hp]. apply Ascii.eqb_eq in Hc. subst d.
    destruct (IH s Hp) as [r ->]. exists r. reflexivity.
Qed.

Lemma before_dash_of_variant s r :
  before_dash ((before_dash s ++ "-") ++ r)%string = before_dash s.
Proof.
  induction s as [|c s IH]; [reflexivity|].
  cbn [before_dash]. destruct (Ascii.eqb c "-") eqn:E; [reflexivity|].
  change ((String c (before_dash s) ++ "-") ++ r)%string
    with (String c ((before_dash s ++ "-") ++ r)%string).
  cbn [before_dash]. now rewrite E, IH.
Qed.

(** A pair of locale codes is allowed exactly when the source code is not
    empty, its base language (the part before the first ["-"]) is one of
    the nine allowed ones, and the target code is the source code itself
    or starts with that base and a ["-"].  So a regional target is allowed
    for a bare source, and a bare target is refused for a regional
    source. *)
Theorem isPairAllowed_spec (sourceCode targetCode : string) :
  isPairAllowed sourceCode targetCode = true <->
  sourceCode <> "" /\
  In (before_dash sourceCode) ALLOWED_BASES /\
  (targetCode = sourceCode \/
   startsWith targetCode (before_dash sourceCode ++ "-")%string = true).
Proof.
  unfold isPairAllowed. split.
  - destruct (String.eqb_spec sourceCode "") as [|Hs]; [discriminate|].
    destruct (String.eqb_spec targetCode "") as [|Ht]; [discriminate|].
    cbn [orb].
    destruct (existsb (String.eqb (before_dash sourceCode)) ALLOWED_BASES)
      eqn:Hex; [|discriminate].
    cbn [negb].
    destruct (String.eqb (before_dash sourceCode) (before_dash targetCode));
      [|discriminate].
    cbn [negb]. intros H. split; [exact Hs|]. split.
    + apply existsb_exists in Hex as (x & Hx & He).
      apply String.eqb_eq in He. now subst x.
    + apply orb_true_iff in H as [H|H]; [left; now apply String.eqb_eq|].
      now right.
  - intros (Hs & Hin & Hor).
    destruct (String.eqb_spec sourceCode "") as [|_]; [contradiction|].
    assert (Hex : existsb (String.eqb (before_dash sourceCode)) ALLOWED_BASES
                  = true).
    { apply existsb_exists. exists (before_dash sourceCode).
      split; [exact Hin | apply String.eqb_refl]. }
    destruct Hor as [->|Hp].
    + destruct (String.eqb_spec sourceCode "") as [|_]; [contradiction|].
      cbn [orb]. rewrite Hex, !String.eqb_refl. reflexivity.
    + destruct (startsWith_app _ _ Hp) as [r Hr].
      assert (Hb : before_dash targetCode = before_dash sourceCode)
        by (rewrite Hr; apply before_dash_of_variant).
      destruct (String.eqb_spec targetCode "") as [He|_].
      { rewrite He in Hp. destruct (before_dash sourceCode); discriminate Hp. }
      cbn [orb]. rewrite Hex, Hb, String.eqb_refl, Hp. cbn [negb].
      apply orb_true_r.
Qed.

Lemma isPairAllowed_spec_witness : isPairAllowed "en" "en-GB" = true.
Proof.
  apply (isPairAllowed_spec "en" "en-GB").
  split; [discriminate|]. split; [left; reflexivity | right; reflexivity].
Defined.

Example regional_target_for_bare_source :
  isPairAllowed "en" "en-GB" = true /\ isPairAllowed "en-US" "en" = false /\
  isPairAllowed "en-US" "en-GB" = true /\ isPairAllowed "pt" "pt-BR" = false.
Proof. repeat split; reflexivity. Qed.

End LocaleFacts.

(** ** Plain text of a rich-text value *)

Section PlainTextFacts.
Import RichText PlainText.

Lemma walk_node_unfold t d c v ms am ah st :
  walk_node (Node t d c v ms) am ah st
  = if String.eqb t "text" then
      pushSpan (match v with Some s => s | None => "" end)
        (marks_or (Node t d c v ms) am) ah st
    else if String.eqb t "hyperlink" then
      match c with
      | Some l => walk l (marks_or (Node t d c v ms) am) (Some d) st
      | None => st
      end
    else
      match c with
      | Some l => walk l (marks_or (Node t d c v ms) am) ah st
      | None => st
      end.
Proof. reflexivity. Qed.

Lemma concat_space_cons x xs :
  chars x `sublist_of` chars (String.concat " " (x :: xs)) /\
  chars (String.concat " " xs)
    `sublist_of` chars (String.concat " " (x :: xs)).
Proof.
  cbn [String.concat]. destruct xs as [|y ys].
  - split; [reflexivity | apply sublist_nil_l].
  - rewrite !chars_app. split.
    + apply sublist_inserts_r. reflexivity.
    + apply sublist_inserts_l. apply sublist_inserts_l. reflexivity.
Qed.

Lemma concat_space_sublist a b x xs :
  chars a `sublist_of` chars x ->
  chars b `sublist_of` chars (String.concat " " xs) ->
  chars (a ++ b)%string `sublist_of` chars (String.concat " " (x :: xs)).
Proof.
  intros Ha Hb. rewrite chars_app. cbn [String.concat].
  destruct xs as [|y ys].
  - cbn [String.concat] in Hb. apply sublist_nil_r in Hb. rewrite Hb.
    now rewrite app_nil_r.
  - rewrite !chars_app. apply sublist_app; [exact Ha|].
    now apply sublist_inserts_l.
Qed.

Lemma walk_node_text_in_plain_text :
  forall n am ah,
  text_nodes_are_leaves n = true ->
  chars (fst (walk_node n am ah ("", [])))
    `sublist_of` chars (extractPlainTextFromRichText n).
Proof.
  fix IH 1. intros [t d c v ms] am ah Hwf.
  rewrite walk_node_unfold. cbn [extractPlainTextFromRichText].
  cbn [text_nodes_are_leaves] in Hwf.
  destruct c as [l|].
  - apply andb_true_iff in Hwf as [Ht Hall].
    apply negb_true_iff in Ht. rewrite Ht.
    assert (Hl : forall am ah,
              chars (fst (walk l am ah ("", [])))
                `sublist_of`
                chars (String.concat " "
                         ((fix each (l : list node) : list string :=
                             match l with
                             | [] => []
                             | m :: rest =>
                                 extractPlainTextFromRichText m :: each rest
                             end) l))).
    { clear am ah. induction l as [|m rest IHl]; intros am ah.
      - apply sublist_nil_l.
      - apply andb_true_iff in Hall as [Hm Hrest].
        cbn [walk]. rewrite walk_fst, (walk_node_fst m am ah ("", [])).
        cbn [fst]. change ("" ++ ?x)%string with x.
        apply concat_space_sublist.
        + apply IH. exact Hm.
        + apply (IHl Hrest [] None). }
    destruct (String.eqb t "hyperlink"); apply Hl.
  - destruct (String.eqb t "text").
    + rewrite pushSpan_fst. reflexivity.
    + destruct (String.eqb t "hyperlink"); apply sublist_nil_l.
Qed.

(** When text nodes are leaves, the plain text shown for a block has
    every character of the block's flattened text, the text the merge
    works on, in the same order. *)
Theorem flattened_text_is_in_plain_text (block : node) :
  text_nodes_are_leaves block = true ->
  chars (fst (flattenInlineBlock block))
    `sublist_of` chars (extractPlainTextFromRichText block).
Proof.
  destruct block as [t d c v ms]. unfold flattenInlineBlock.
  cbn [content extractPlainTextFromRichText text_nodes_are_leaves].
  destruct c as [l|]; [|intros _; apply sublist_nil_l].
  intros Hwf. apply andb_true_iff in Hwf as [_ Hall].
  induction l as [|m rest IHl]; [apply sublist_nil_l|].
  apply andb_true_iff in Hall as [Hm Hrest].
  cbn [walk]. rewrite walk_fst. apply concat_space_sublist.
  - now apply walk_node_text_in_plain_text.
  - now apply IHl.
Qed.

Lemma flattened_text_is_in_plain_text_witness :
  chars (fst (flattenInlineBlock Samples.bold_hello_world))
    `sublist_of` chars (extractPlainTextFromRichText Samples.bold_hello_world).
Proof.
  apply (flattened_text_is_in_plain_text Samples.bold_hello_world).
  reflexivity.
Defined.

End PlainTextFacts.

(** ** The formatting of the merged block *)

Section InlineResultFacts.
Import Dmp MergeText RichText Spans InlineResult.

Lemma option_json_eqb_eq (a b : option json) :
  option_eqb json_eqb a b = true -> a = b.
Proof.
  destruct a, b; cbn; try discriminate; try reflexivity.
  intros H. apply json_eqb_eq in H. now subst.
Qed.

Lemma key_eqb_eq (a b : string * option json) : key_eqb a b = true -> a = b.
Proof.
  destruct a as [m h], b as [m' h']. unfold key_eqb. cbn [fst snd].
  intros H. apply andb_true_iff in H as [Hm Hh].
  apply String.eqb_eq in Hm. apply option_json_eqb_eq in Hh. now subst.
Qed.

Lemma rendered_from_mono (l l' : list format) x y :
  (forall g, In g l -> In g l') -> rendered_from l x y -> rendered_from l' x y.
Proof.
  intros Hincl (Hc & g & Hg & Hk & Hw). split; [exact Hc|].
  exists g. auto.
Qed.

Lemma pushSpan_snd t ms hl st :
  char_formats (snd (pushSpan t ms hl st))
  = (char_formats (snd st)
     ++ map (fun c => (c, (cloneMarks ms,
                           match hl with
                           | Some d => Some (cloneHyperlink d)
                           | None => None
                           end))) (chars t))%list.
Proof.
  unfold pushSpan. destruct st as [txt spans].
  destruct (String.eqb_spec t "") as [->|Hne].
  - cbn. now rewrite app_nil_r.
  - cbn [snd]. rewrite char_formats_app. f_equal.
    unfold char_formats. cbn. now rewrite app_nil_r.
Qed.

Lemma flushText_formats (b : builder) (g : format) :
  currentMarks b = normalizeMarks (fst g) ->
  currentHyperlink b = snd (key_of g) ->
  char_formats (snd (walk (b_content (flushText b)) [] None ("", [])))
  = (char_formats (snd (walk (b_content b) [] None ("", [])))
     ++ map (fun c => (c, written g)) (chars (currentText b)))%list.
Proof.
  intros Hm Hh. unfold flushText.
  destruct (String.eqb_spec (currentText b) "") as [He|Hne].
  - rewrite He. cbn. now rewrite app_nil_r.
  - cbn [b_content]. rewrite walk_app.
    set (st := walk (b_content b) [] None ("", [])).
    unfold written. rewrite <- Hm, <- Hh.
    destruct (currentHyperlink b) as [d|] eqn:Hd.
    + cbn [walk]. rewrite walk_node_unfold. cbn [String.eqb Ascii.eqb Bool.eqb].
      cbn [walk]. rewrite walk_node_unfold. cbn [String.eqb Ascii.eqb Bool.eqb].
      rewrite pushSpan_snd. unfold marks_or. cbn [marks].
      rewrite cloneMarks_id. f_equal.
      unfold cloneHyperlink, clone. rewrite or_empty_idem.
      assert (Hd' : or_empty (Some d) = d).
      { unfold key_of, keyFor in Hh. cbn [snd] in Hh.
        destruct (snd g) as [x|]; [|discriminate].
        injection Hh as ->. apply (or_empty_idem (Some x)). }
      now rewrite Hd'.
    + cbn [walk]. rewrite walk_node_unfold. cbn [String.eqb Ascii.eqb Bool.eqb].
      rewrite pushSpan_snd. unfold marks_or. cbn [marks].
      now rewrite cloneMarks_id.
Qed.

Lemma build_inv_flush (done : list span) (b : builder) :
  build_inv done b ->
  Forall2 (rendered_from (map format_of done)) (char_formats done)
    (char_formats (snd (walk (b_content (flushText b)) [] None ("", [])))).
Proof.
  intros (flushed & pending & Hsplit & Hfl & Htxt & Hkey).
  rewrite Hsplit.
  destruct (currentMarksKey b) as [k|].
  - destruct Hkey as (g & Hg & -> & Hm & Hh & Hall).
    rewrite (flushText_formats b g Hm Hh).
    apply Forall2_app; [exact Hfl|].
    rewrite <- Htxt. clear Htxt Hsplit.
    induction pending as [|[c f] rest IH]; [constructor|].
    apply Forall_cons in Hall as [Hk Hrest].
    cbn [map fst]. constructor; [|now apply IH].
    split; [reflexivity|]. exists g. cbn [snd] in *. auto.
  - subst pending. rewrite app_nil_r.
    assert (He : currentText b = "").
    { cbn in Htxt. destruct (currentText b); [reflexivity | discriminate]. }
    unfold flushText. rewrite He. cbn [String.eqb]. exact Hfl.
Qed.

Lemma build_step_inv (done : list span) (b : builder) (s : span) :
  build_inv done b -> build_inv (done ++ [s]) (build_step b s).
Proof.
  intros Hinv.
  assert (Hincl : forall g, In g (map format_of done) ->
                            In g (map format_of (done ++ [s]))).
  { intros g Hg. rewrite map_app. apply in_or_app. now left. }
  assert (Hs : In (format_of s) (map format_of (done ++ [s]))).
  { rewrite map_app. apply in_or_app. right. now left. }
  unfold build_step.
  destruct (option_eqb key_eqb (Some (keyFor (span_marks s) (hyperlink s)))
              (currentMarksKey b)) eqn:Hsame; cbn [negb].
  - (* the run goes on *)
    destruct Hinv as (flushed & pending & Hsplit & Hfl & Htxt & Hkey).
    destruct (currentMarksKey b) as [k|] eqn:Hk; [|discriminate].
    cbn [option_eqb] in Hsame. apply key_eqb_eq in Hsame.
    destruct Hkey as (g & Hg & -> & Hm & Hh & Hall).
    exists flushed,
      (pending ++ map (fun c => (c, format_of s)) (chars (text s)))%list.
    cbn [b_content currentText currentMarksKey currentMarks currentHyperlink].
    split; [|split; [|split]].
    + rewrite char_formats_app, Hsplit, <- app_assoc. f_equal.
      unfold char_formats. cbn. now rewrite app_nil_r.
    + eapply Forall2_impl; [exact Hfl|].
      intros x y. now apply rendered_from_mono.
    + rewrite map_app, Htxt, chars_app. f_equal.
      rewrite map_map. cbn. now rewrite map_id.
    + exists g. split; [auto|]. split; [reflexivity|]. split; [exact Hm|].
      split; [exact Hh|]. apply Forall_app. split; [exact Hall|].
      apply Forall_forall. intros x Hx. apply list_elem_of_In in Hx.
      apply in_map_iff in Hx as (c & <- & _). cbn [snd].
      exact Hsame.
  - (* a new run *)
    pose proof (build_inv_flush done b Hinv) as Hflush.
    destruct (flushText_text b) as [_ Hempty].
    exists (char_formats done),
      (map (fun c => (c, format_of s)) (chars (text s))).
    cbn [b_content currentText currentMarksKey currentMarks currentHyperlink].
    rewrite Hempty. split; [|split; [|split]].
    + rewrite char_formats_app. f_equal.
      unfold char_formats. cbn. now rewrite app_nil_r.
    + eapply Forall2_impl; [exact Hflush|].
      intros x y. now apply rendered_from_mono.
    + rewrite map_map. cbn. now rewrite map_id.
    + exists (format_of s). split; [exact Hs|]. split; [reflexivity|].
      split; [reflexivity|]. split.
      * unfold key_of, keyFor, format_of, clone. cbn [fst snd].
        reflexivity.
      * apply Forall_forall. intros x Hx. apply list_elem_of_In in Hx.
        apply in_map_iff in Hx as (c & <- & _). reflexivity.
Qed.

Lemma build_fold_inv (spans : list span) :
  forall done b,
  build_inv done b ->
  build_inv (done ++ spans) (fold_left build_step spans b).
Proof.
  induction spans as [|s rest IH]; intros done b Hinv.
  - now rewrite app_nil_r.
  - cbn [fold_left].
    change (s :: rest) with ([s] ++ rest)%list. rewrite app_assoc.
    apply IH. now apply build_step_inv.
Qed.

Lemma build_then_flatten_formats (ty : string) (d : json) (spans : list span) :
  Forall2 (rendered_from (map format_of spans)) (char_formats spans)
    (char_formats
       (snd (flattenInlineBlock (buildInlineBlockFromSpans ty d spans)))).
Proof.
  unfold flattenInlineBlock, buildInlineBlockFromSpans. cbn [content].
  apply (build_inv_flush spans).
  apply (build_fold_inv spans []).
  exists [], []. cbn. repeat split; constructor.
Qed.


(** *** Keys and mark types *)

Lemma pipe_free_no_pipe (y : string) :
  forall x r, pipe_free x = true -> x <> (y ++ String "|" r)%string.
Proof.
  induction y as [|c y IH]; intros x r Hx Heq.
  - change ("" ++ String "|" r)%string with (String "|" r) in Heq.
    subst x. discriminate Hx.
  - change (String c y ++ String "|" r)%string
      with (String c (y ++ String "|" r)%string) in Heq.
    subst x. cbn [pipe_free] in Hx. apply andb_true_iff in Hx as [_ Hx].
    now apply (IH _ r Hx).
Qed.

Lemma pipe_split_inj (x : string) :
  forall y r r',
  pipe_free x = true -> pipe_free y = true ->
  (x ++ String "|" r)%string = (y ++ String "|" r')%string ->
  x = y /\ r = r'.
Proof.
  induction x as [|c x IH]; intros [|c' y] r r' Hx Hy Heq.
  - injection Heq as ->. now split.
  - change ("" ++ String "|" r)%string with (String "|" r) in Heq.
    change (String c' y ++ String "|" r')%string
      with (String c' (y ++ String "|" r')%string) in Heq.
    injection Heq as <- _. discriminate Hy.
  - change ("" ++ String "|" r')%string with (String "|" r') in Heq.
    change (String c x ++ String "|" r)%string
      with (String c (x ++ String "|" r)%string) in Heq.
    injection Heq as -> _. discriminate Hx.
  - change (String c x ++ String "|" r)%string
      with (String c (x ++ String "|" r)%string) in Heq.
    change (String c' y ++ String "|" r')%string
      with (String c' (y ++ String "|" r')%string) in Heq.
    injection Heq as -> Heq.
    cbn [pipe_free] in Hx, Hy.
    apply andb_true_iff in Hx as [_ Hx]. apply andb_true_iff in Hy as [_ Hy].
    destruct (IH y r r' Hx Hy Heq) as [-> ->]. now split.
Qed.

Lemma concat_cons2 (x y : string) (l : list string) :
  String.concat "|" (x :: y :: l)
  = (x ++ String "|" (String.concat "|" (y :: l)))%string.
Proof. reflexivity. Qed.

Lemma concat_pipe_members (la : list string) :
  forall lb,
  Forall (fun s => pipe_free s = true) la ->
  Forall (fun s => pipe_free s = true) lb ->
  String.concat "|" la = String.concat "|" lb ->
  forall ty, ty <> "" -> In ty la -> In ty lb.
Proof.
  induction la as [|x [|x2 ra] IH]; intros lb Ha Hb Heq ty Hty Hin.
  - destruct Hin.
  - destruct Hin as [<-|[]]. cbn [String.concat] in Heq.
    destruct lb as [|y [|y2 rb]].
    + cbn in Heq. congruence.
    + cbn in Heq. subst. now left.
    + rewrite concat_cons2 in Heq. apply Forall_cons in Ha as [Hx _].
      exfalso. exact (pipe_free_no_pipe _ _ _ Hx Heq).
  - rewrite concat_cons2 in Heq.
    apply Forall_cons in Ha as [Hx Ha].
    destruct lb as [|y [|y2 rb]].
    + cbn in Heq. destruct x; discriminate Heq.
    + cbn [String.concat] in Heq. apply Forall_cons in Hb as [Hy _].
      exfalso. symmetry in Heq. exact (pipe_free_no_pipe _ _ _ Hy Heq).
    + rewrite concat_cons2 in Heq. apply Forall_cons in Hb as [Hy Hb].
      destruct (pipe_split_inj _ _ _ _ Hx Hy Heq) as [-> Hrest].
      destruct Hin as [<-|Hin]; [now left|]. right.
      exact (IH _ Ha Hb Hrest ty Hty Hin).
Qed.

Lemma In_sort_insert (x y : string) (l : list string) :
  In x (sort_insert y l) <-> x = y \/ In x l.
Proof.
  induction l as [|z l IH]; cbn [sort_insert].
  - cbn. intuition.
  - destruct (String.leb y z); cbn [In]; [intuition|].
    rewrite IH. intuition.
Qed.

Lemma In_sort (x : string) (l : list string) : In x (sort l) <-> In x l.
Proof.
  induction l as [|y l IH]; [reflexivity|].
  cbn [sort fold_right]. fold (sort l). rewrite In_sort_insert, IH.
  cbn [In]. intuition.
Qed.

Lemma marks_key_members (a b : list mark) :
  forallb (fun m => pipe_free (mark_type m)) a = true ->
  forallb (fun m => pipe_free (mark_type m)) b = true ->
  marks_key a = marks_key b ->
  forall ty, ty <> "" ->
  In ty (map mark_type a) -> In ty (map mark_type b).
Proof.
  intros Ha Hb Hkey ty Hty Hin. unfold marks_key in Hkey.
  assert (Hplain : forall ms,
            forallb (fun m => pipe_free (mark_type m)) ms = true ->
            Forall (fun s => pipe_free s = true) (sort (map mark_type ms))).
  { intros ms Hms. apply Forall_forall. intros s Hs.
    apply list_elem_of_In, In_sort, in_map_iff in Hs as (m & <- & Hm).
    exact (proj1 (forallb_forall _ _) Hms m Hm). }
  apply In_sort.
  apply (concat_pipe_members _ _ (Hplain a Ha) (Hplain b Hb) Hkey ty Hty).
  now apply In_sort.
Qed.

Lemma written_shows (g f : format) :
  forallb (fun m => pipe_free (mark_type m)) (fst g) = true ->
  forallb (fun m => pipe_free (mark_type m)) (fst f) = true ->
  key_of g = key_of f ->
  shows f (written g).
Proof.
  intros Hg Hf Hkey. unfold shows, written. cbn [fst snd].
  destruct (normalize_loop_spec (fst g) []) as [Hnd Hin].
  assert (Hm : marks_key (fst g) = marks_key (fst f)).
  { unfold key_of, keyFor in Hkey. now injection Hkey. }
  split; [exact Hnd|]. split.
  - intros ty. unfold normalizeMarks.
    rewrite <- !list_elem_of_In, Hin, !list_elem_of_In. split.
    + intros (H1 & H2 & _). split; [|exact H2].
      exact (marks_key_members _ _ Hg Hf Hm ty H2 H1).
    + intros (H1 & H2). split; [|split; [exact H2|]].
      * exact (marks_key_members _ _ Hf Hg (eq_sym Hm) ty H2 H1).
      * intros Hnil. exact Hnil.
  - rewrite Hkey. unfold key_of, keyFor. cbn [snd].
    destruct (snd f) as [x|]; [|reflexivity].
    cbn [sameHyperlink]. rewrite (or_empty_idem (Some x)).
    apply json_eqb_refl.
Qed.

Lemma same_format_key (f f' : format) :
  same_format f f' = true -> key_of f = key_of f'.
Proof.
  unfold same_format, key_of, keyFor. intros H.
  apply andb_true_iff in H as [Hm Hh]. f_equal.
  - unfold sameMarks in Hm.
    destruct (negb (Nat.eqb (length (fst f)) (length (fst f'))));
      [discriminate|]. now apply String.eqb_eq.
  - unfold sameHyperlink in Hh.
    destruct (snd f) as [x|], (snd f') as [y|]; try discriminate;
      [|reflexivity].
    apply json_eqb_eq in Hh. now rewrite Hh.
Qed.


(** *** Where the marks of the rebuilt spans come from *)

Lemma sliceSpans_plain (T : list span) (a b : Z) :
  Forall (fun s => plain_span s = true) T ->
  Forall (fun s => plain_span s = true) (sliceSpans T a b).
Proof.
  intros HT. induction T as [|s rest IH]; cbn [sliceSpans].
  - destruct (a >=? b); constructor.
  - apply Forall_cons in HT as [Hs Hrest].
    destruct (a >=? b) eqn:Hab; [constructor|].
    specialize (IH Hrest).
    destruct ((end_ s <=? a) || (start s >=? b)); [exact IH|].
    constructor; [|exact IH].
    unfold plain_span. cbn [span_marks]. now rewrite cloneMarks_id.
Qed.

Lemma spanAtPosition_In (T : list span) (pos : Z) (s : span) :
  spanAtPosition T pos = Some s -> In s T.
Proof.
  unfold spanAtPosition. destruct (pos <? 0); [discriminate|].
  destruct (List.find (covers pos) T) as [x|] eqn:Hfind.
  - intros [= <-]. now apply find_some in Hfind as [? _].
  - destruct (last T) as [l|] eqn:Hlast; [|discriminate].
    destruct (pos =? end_ l); [|discriminate]. intros [= <-].
    apply last_Some in Hlast as [l' ->]. apply in_or_app. right. now left.
Qed.

Lemma inherit_at_In (T : list span) (cursor : Z) (s : span) :
  inherit_at T cursor = Some s -> In s T.
Proof.
  unfold inherit_at.
  destruct (spanAtPosition T cursor) as [x|] eqn:H1.
  - intros [= <-]. now apply spanAtPosition_In in H1.
  - apply spanAtPosition_In.
Qed.

Lemma inherited_format_plain (T : list span) (cursor : Z) :
  Forall (fun s => plain_span s = true) T ->
  forallb (fun m => pipe_free (mark_type m))
    (fst (inherited_format (inherit_at T cursor))) = true.
Proof.
  intros HT. destruct (inherit_at T cursor) as [s|] eqn:Hi; [|reflexivity].
  apply inherit_at_In in Hi. cbn [inherited_format format_of fst].
  exact (proj1 (Forall_forall _ _) HT s (proj2 (list_elem_of_In _ _) Hi)).
Qed.

Lemma inserted_span_plain (T : list span) (cursor : Z) (txt : string) :
  Forall (fun s => plain_span s = true) T ->
  plain_span (inserted_span (inherit_at T cursor) txt) = true.
Proof.
  intros HT. pose proof (inherited_format_plain T cursor HT) as H.
  unfold plain_span, inserted_span. cbn [span_marks].
  destruct (inherit_at T cursor) as [s|]; [|reflexivity].
  now rewrite cloneMarks_id.
Qed.

Lemma rebuild_loop_plain (T : list span) (diffs : list diff) :
  Forall (fun s => plain_span s = true) T ->
  forall out cur,
  Forall (fun s => plain_span s = true) out ->
  Forall (fun s => plain_span s = true) (rebuild_loop diffs T out cur).
Proof.
  intros HT. induction diffs as [|[op txt] rest IH]; intros out cur Hout;
    [exact Hout|].
  cbn [rebuild_loop].
  destruct ((op =? 0) || (op =? -1)).
  - apply IH. apply Forall_app. split; [exact Hout|].
    now apply sliceSpans_plain.
  - destruct (op =? 1); [|now apply IH].
    apply IH. apply Forall_app. split; [exact Hout|].
    constructor; [|constructor]. now apply inserted_span_plain.
Qed.

Lemma coalesce_loop_plain (spans : list span) :
  forall done prev,
  Forall (fun s => plain_span s = true) spans ->
  Forall (fun s => plain_span s = true) done ->
  match prev with Some p => plain_span p = true | None => True end ->
  Forall (fun s => plain_span s = true) (coalesce_loop spans done prev).
Proof.
  induction spans as [|s rest IH]; intros done prev Hs Hd Hp.
  - cbn [coalesce_loop]. destruct prev as [p|]; [|exact Hd].
    apply Forall_app. split; [exact Hd|]. now constructor.
  - apply Forall_cons in Hs as [Hs Hrest]. cbn [coalesce_loop].
    destruct prev as [p|]; [|now apply IH].
    destruct (sameMarks (span_marks p) (span_marks s)
              && sameHyperlink (hyperlink p) (hyperlink s)).
    + apply IH; [exact Hrest | exact Hd | exact Hp].
    + apply IH; [exact Hrest | | exact Hs].
      apply Forall_app. split; [exact Hd|]. now constructor.
Qed.

Lemma rebuildSpansFromDiffs_plain (T : list span) (diffs : list diff) :
  plain_marks T = true ->
  forall g, In g (map format_of (rebuildSpansFromDiffs diffs T)) ->
  forallb (fun m => pipe_free (mark_type m)) (fst g) = true.
Proof.
  intros HT g Hg.
  assert (HT' : Forall (fun s => plain_span s = true) T).
  { apply Forall_forall. intros s Hs. apply list_elem_of_In in Hs.
    exact (proj1 (forallb_forall _ _) HT s Hs). }
  apply in_map_iff in Hg as (s & <- & Hs).
  unfold rebuildSpansFromDiffs, coalesceSpans in Hs.
  assert (Hall : Forall (fun s => plain_span s = true)
                   (coalesce_loop (rebuild_loop diffs T [] 0) [] None)).
  { apply coalesce_loop_plain; [|constructor|exact I].
    apply rebuild_loop_plain; [exact HT'|constructor]. }
  exact (proj1 (Forall_forall _ _) Hall s (proj2 (list_elem_of_In _ _) Hs)).
Qed.

(** *** From the spans to the block *)

Lemma rendered_from_same (F : list format) (l1 l2 : list (ascii * format)) :
  Forall2 same_char_format l1 l2 ->
  forall R, Forall2 (rendered_from F) l1 R -> Forall2 (rendered_from F) l2 R.
Proof.
  induction 1 as [|x y l1 l2 [Hc Hf] _ IH]; intros R HR.
  - inversion HR. constructor.
  - inversion HR as [|? z ? R' (Hcz & g & Hg & Hk & Hw) Hrest]; subst.
    constructor; [|now apply IH].
    split; [congruence|]. exists g. split; [exact Hg|]. split; [|exact Hw].
    rewrite Hk. now apply same_format_key.
Qed.

Lemma rendered_from_fst (F : list format) (l R : list (ascii * format)) :
  Forall2 (rendered_from F) l R -> map fst R = map fst l.
Proof.
  induction 1 as [|x y l R [Hc _] _ IH]; [reflexivity|].
  cbn [map]. now rewrite Hc, IH.
Qed.

Lemma inserted_span_key (inherit : option span) (txt : string) :
  key_of (format_of (inserted_span inherit txt))
  = key_of (inherited_format inherit).
Proof.
  unfold key_of, keyFor, format_of, inserted_span, inherited_format.
  destruct inherit as [s|]; [|reflexivity].
  cbn [fst snd span_marks hyperlink format_of]. rewrite cloneMarks_id.
  f_equal. destruct (hyperlink s) as [d|]; [|reflexivity].
  unfold cloneHyperlink, clone. now rewrite (or_empty_idem (Some d)).
Qed.


Lemma rebuild_loop_split (T : list span) (pre post : list diff) (txt : string) :
  forallb op_ok pre = true ->
  rebuild_loop (pre ++ (1, txt) :: post) T [] 0
  = (rebuild_loop pre T [] 0
     ++ inserted_span (inherit_at T (len (diff_text1 pre))) txt
        :: rebuild_loop post T [] (len (diff_text1 pre)))%list.
Proof.
  intros Hok. rewrite rebuild_loop_app. simpl.
  rewrite (advance_text1 pre Hok), rebuild_loop_acc.
  now rewrite <- app_assoc.
Qed.

Lemma inserted_text_in_block (dmp : engine) (srcBlock tgtBlock : node)
    (pre post : list diff) (txt : string) :
  edit_script
    (diff_of dmp (fst (flattenInlineBlock tgtBlock))
       (fst (flattenInlineBlock srcBlock)))
    (fst (flattenInlineBlock tgtBlock)) (fst (flattenInlineBlock srcBlock)) ->
  diff_of dmp (fst (flattenInlineBlock tgtBlock))
    (fst (flattenInlineBlock srcBlock))
  = (pre ++ (1, txt) :: post)%list ->
  plain_marks (snd (flattenInlineBlock tgtBlock)) = true ->
  exists before ins after : list (ascii * format),
    char_formats
      (snd (flattenInlineBlock (mergeInlineBlock dmp srcBlock tgtBlock)))
    = (before ++ ins ++ after)%list /\
    map fst before = chars (all_text pre) /\
    map fst ins = chars txt /\
    map fst after = chars (all_text post) /\
    Forall
      (fun x =>
         shows
           (inherited_format
              (inherit_at (snd (flattenInlineBlock tgtBlock))
                 (len (diff_text1 pre))))
           (snd x))
      ins.
Proof.
  intros (Hok & H1 & _) Hsplit Hplain. unfold mergeInlineBlock.
  set (T := snd (flattenInlineBlock tgtBlock)) in *.
  set (diffs := diff_of dmp (fst (flattenInlineBlock tgtBlock))
                  (fst (flattenInlineBlock srcBlock))) in *.
  set (cursor := len (diff_text1 pre)).
  assert (Hokpre : forallb op_ok pre = true).
  { rewrite Hsplit, forallb_app in Hok.
    now apply andb_true_iff in Hok as [? _]. }
  assert (Hokpost : forallb op_ok post = true).
  { rewrite Hsplit, forallb_app in Hok.
    apply andb_true_iff in Hok as [_ Hok]. cbn [forallb] in Hok.
    now apply andb_true_iff in Hok as [_ ?]. }
  pose proof (flattenInlineBlock_tiled tgtBlock) as Htiled.
  pose proof (flattenInlineBlock_normalized tgtBlock) as Hnorm.
  fold T in Htiled, Hnorm. unfold tiled_state in Htiled. cbn [snd fst] in Htiled.
  assert (Htext : map fst (char_formats T)
                  = chars (diff_text1 diffs)).
  { rewrite H1, <- chars_ctext. unfold T.
    now rewrite flattenInlineBlock_ctext. }
  (* the characters of the loop's spans *)
  destruct (rebuild_loop_keeps_target T _ Htiled Hnorm diffs 0
              ltac:(lia) Hok) as [Hall _].
  { change (Z.to_nat 0) with 0%nat. now rewrite drop_0. }
  assert (Hpost : map fst (char_formats (rebuild_loop post T [] cursor))
                  = chars (all_text post)).
  { apply (rebuild_loop_keeps_target T _ Htiled Hnorm post cursor).
    - apply len_nonneg.
    - exact Hokpost.
    - rewrite <- skipn_map, Htext, Hsplit, diff_text1_app, chars_app.
      unfold cursor, len. rewrite Nat2Z.id, <- chars_length.
      rewrite drop_app_length. reflexivity. }
  rewrite Hsplit in Hall.
  rewrite (rebuild_loop_split T pre post txt Hokpre) in Hall.
  fold cursor in Hall.
  set (inserted := inserted_span (inherit_at T cursor) txt) in *.
  set (Lpre := rebuild_loop pre T [] 0) in *.
  set (Lpost := rebuild_loop post T [] cursor) in *.
  assert (Hins : char_formats [inserted]
                 = map (fun c => (c, format_of inserted)) (chars txt)).
  { unfold char_formats. cbn. now rewrite app_nil_r. }
  assert (Hpre : map fst (char_formats Lpre) = chars (all_text pre)).
  { change (inserted :: Lpost) with ([inserted] ++ Lpost)%list in Hall.
    rewrite !char_formats_app, !map_app, Hpost, Hins in Hall.
    rewrite all_text_app, chars_app in Hall. cbn [all_text] in Hall.
    rewrite chars_app in Hall.
    rewrite map_map in Hall. cbn [fst] in Hall. rewrite map_id in Hall.
    rewrite !app_assoc in Hall. apply app_inv_tail in Hall.
    now apply app_inv_tail in Hall. }
  (* from the spans to the block *)
  set (rebuilt := rebuildSpansFromDiffs diffs T).
  pose proof (build_then_flatten_formats (nodeType tgtBlock)
                (or_empty (data tgtBlock)) rebuilt) as Hbuilt.
  pose proof (coalesceSpans_formats (rebuild_loop diffs T [] 0)) as Hco.
  fold (rebuildSpansFromDiffs diffs T) in Hco. fold rebuilt in Hco.
  pose proof (rendered_from_same _ _ _ Hco _ Hbuilt) as Hloop.
  rewrite Hsplit, (rebuild_loop_split T pre post txt Hokpre) in Hloop.
  fold cursor in Hloop. fold inserted Lpre Lpost in Hloop.
  change (inserted :: Lpost) with ([inserted] ++ Lpost)%list in Hloop.
  rewrite !char_formats_app in Hloop.
  apply Forall2_app_inv_l in Hloop as (before & rest & Hb & Hrest & ->).
  apply Forall2_app_inv_l in Hrest as (ins & after & Hi & Ha & ->).
  exists before, ins, after. split; [reflexivity|].
  split; [now rewrite (rendered_from_fst _ _ _ Hb)|].
  split.
  { rewrite (rendered_from_fst _ _ _ Hi), Hins, map_map. cbn [fst].
    now rewrite map_id. }
  split; [now rewrite (rendered_from_fst _ _ _ Ha)|].
  assert (HT : Forall (fun s => plain_span s = true) T).
  { apply Forall_forall. intros s Hs. apply list_elem_of_In in Hs.
    exact (proj1 (forallb_forall _ _) Hplain s Hs). }
  rewrite Hins in Hi. clear - Hi Hplain HT.
  remember (map (fun c => (c, format_of inserted)) (chars txt)) as l eqn:Hl.
  assert (Hfmt : Forall (fun x => snd x = format_of inserted) l).
  { subst l. apply Forall_forall. intros x Hx.
    apply list_elem_of_In, in_map_iff in Hx as (c & <- & _). reflexivity. }
  clear Hl. induction Hi as [|x y l ins (_ & g & Hg & Hk & Hw) _ IH];
    [constructor|].
  apply Forall_cons in Hfmt as [Hx Hfmt].
  constructor; [|now apply IH].
  rewrite Hw. apply written_shows.
  - exact (rebuildSpansFromDiffs_plain T diffs Hplain g Hg).
  - now apply inherited_format_plain.
  - rewrite Hk, Hx. apply inserted_span_key.
Qed.

(** C5.  In the inline merge of [srcBlock] into [tgtBlock], take any insert
    operation [(1, txt)] of the diff, after the operations [pre].  The
    loop of [rebuildSpansFromDiffs] pushes for it one span with the text
    [txt] whose marks and hyperlink are those of the target span
    [inherit]: the target span that covers the cursor when the cursor is
    inside the target text, the last target span when the cursor is at its
    end (no span, and so no formatting, when the target block has no
    text).  Coalescing afterwards leaves every character with the
    formatting it had.  In the block [mergeInlineBlock] returns, read as
    [flattenInlineBlock] reads a block, the text is that of the operations
    before, then [txt], then that of the operations after, and every
    character of [txt] is written with one mark per non-empty mark type of
    [inherit], no other mark, and the hyperlink of [inherit]; this for
    mark types without ["|"], the separator of [keyFor].  The merged block
    is the same for any source block with the same text: the source's
    formatting is never used. *)
Theorem inserted_text_inherits_target_formatting (dmp : engine)
    (srcBlock tgtBlock : node) (pre post : list diff) (txt : string) :
  let tgtPara := flattenInlineBlock tgtBlock in
  let srcPara := flattenInlineBlock srcBlock in
  let diffs := diff_of dmp (fst tgtPara) (fst srcPara) in
  edit_script diffs (fst tgtPara) (fst srcPara) ->
  diffs = (pre ++ (1, txt) :: post)%list ->
  let cursor := len (diff_text1 pre) in
  let inherit := inherit_at (snd tgtPara) cursor in
  let inserted := inserted_span inherit txt in
  rebuild_loop diffs (snd tgtPara) [] 0
  = (rebuild_loop pre (snd tgtPara) [] 0
       ++ inserted :: rebuild_loop post (snd tgtPara) [] cursor)%list /\
  text inserted = txt /\
  match inherit with
  | Some s =>
      span_marks inserted = span_marks s /\
      sameHyperlink (hyperlink inserted) (hyperlink s) = true
  | None => span_marks inserted = [] /\ hyperlink inserted = None
  end /\
  0 <= cursor <= len (fst tgtPara) /\
  (cursor < len (fst tgtPara) ->
   exists s, inherit = Some s /\ In s (snd tgtPara) /\
             start s <= cursor < end_ s) /\
  (cursor = len (fst tgtPara) -> inherit = last (snd tgtPara)) /\
  Forall2 same_char_format
    (char_formats (rebuildSpansFromDiffs diffs (snd tgtPara)))
    (char_formats (rebuild_loop diffs (snd tgtPara) [] 0)) /\
  (plain_marks (snd tgtPara) = true ->
   exists before ins after : list (ascii * format),
     char_formats
       (snd (flattenInlineBlock (mergeInlineBlock dmp srcBlock tgtBlock)))
     = (before ++ ins ++ after)%list /\
     map fst before = chars (all_text pre) /\
     map fst ins = chars txt /\
     map fst after = chars (all_text post) /\
     Forall (fun x => shows (inherited_format inherit) (snd x)) ins) /\
  (forall srcBlock' : node,
     fst (flattenInlineBlock srcBlock') = fst srcPara ->
     mergeInlineBlock dmp srcBlock' tgtBlock
     = mergeInlineBlock dmp srcBlock tgtBlock).
Proof.
  intros tgtPara srcPara diffs Hscript Hsplit cursor inherit inserted.
  pose proof Hscript as (Hok & H1 & H2).
  assert (Hokpre : forallb op_ok pre = true).
  { rewrite Hsplit, forallb_app in Hok. now apply andb_true_iff in Hok as [? _]. }
  assert (Hcur : 0 <= cursor <= len (fst tgtPara)).
  { subst cursor.
    assert (Hlen : len (fst tgtPara)
                   = len (diff_text1 pre) + len (diff_text1 ((1, txt) :: post))).
    { rewrite <- H1, Hsplit, diff_text1_app, len_app. reflexivity. }
    pose proof (len_nonneg (diff_text1 pre)).
    pose proof (len_nonneg (diff_text1 ((1, txt) :: post))). lia. }
  pose proof (flattenInlineBlock_tiled tgtBlock) as Htiled.
  fold tgtPara in Htiled.
  destruct (inherit_at_tiled _ _ cursor Htiled Hcur) as [Hin Hend].
  split; [|split; [|split; [|split; [|split; [|split; [|split; [|split]]]]]]].
  - rewrite Hsplit. apply (rebuild_loop_split _ pre post txt Hokpre).
  - reflexivity.
  - apply inserted_span_format.
  - exact Hcur.
  - exact Hin.
  - exact Hend.
  - apply coalesceSpans_formats.
  - intros Hplain.
    exact (inserted_text_in_block dmp srcBlock tgtBlock pre post txt
             Hscript Hsplit Hplain).
  - intros srcBlock' Heq. unfold mergeInlineBlock. now rewrite Heq.
Qed.

Lemma inserted_text_inherits_target_formatting_witness :
  diff_of Dmp.simple "Hello world" "Hello brave world"
  = [(0, "Hello "); (1, "brave "); (0, "world")] /\
  span_marks
    (inserted_span
       (inherit_at (snd (flattenInlineBlock Samples.bold_hello_world)) 6)
       "brave ")
  = [Samples.bold] /\
  exists before ins after : list (ascii * format),
    char_formats
      (snd (flattenInlineBlock
              (mergeInlineBlock Dmp.simple
                 Samples.italic_hello_brave_world Samples.bold_hello_world)))
    = (before ++ ins ++ after)%list /\
    map fst before = chars "Hello " /\
    map fst ins = chars "brave " /\
    map fst after = chars "world" /\
    Forall (fun x => shows ([Samples.bold], None) (snd x)) ins.
Proof.
  split; [reflexivity|].
  pose proof (inserted_text_inherits_target_formatting Dmp.simple
                Samples.italic_hello_brave_world Samples.bold_hello_world
                [(0, "Hello ")] [(0, "world")] "brave ") as H.
  cbv zeta in H.
  destruct H as (_ & _ & Hfmt & _ & Hcov & _ & _ & Hblock & _).
  - vm_compute. repeat split; reflexivity.
  - reflexivity.
  - split.
    + destruct (Hcov ltac:(vm_compute; reflexivity)) as (s & Hs & Hin & _).
      change (len (diff_text1 [(0, "Hello ")])) with 6 in Hs, Hfmt.
      rewrite Hs in Hfmt. destruct Hfmt as [Hm _].
      rewrite Hs. rewrite Hm.
      destruct Hin as [<-|[]]. reflexivity.
    + exact (Hblock eq_refl).
Defined.

(** Why the mark types are taken without ["|"]: with such a type two runs
    of the target that [sameMarks] tells apart get the same key in
    [buildInlineBlockFromSpans] and are written as one text node, with the
    marks of the first. *)
Example separator_in_a_mark_type_joins_runs :
  mergeInlineBlock Dmp.simple
    (Samples.paragraph
       [Samples.text_node "a" [{| mark_type := "x|y" |}];
        Samples.text_node "b" [{| mark_type := "x" |}; {| mark_type := "y" |}]])
    (Samples.paragraph
       [Samples.text_node "a" [{| mark_type := "x|y" |}];
        Samples.text_node "b" [{| mark_type := "x" |}; {| mark_type := "y" |}]])
  = Samples.paragraph [Samples.text_node "ab" [{| mark_type := "x|y" |}]].
Proof. reflexivity. Qed.

End InlineResultFacts.
